(** * A shallow embedding of [single-linked-list.h]

    The header defines one class template, [SingleLinkedList<Type>], with a
    nested [Node] struct and a nested [BasicIterator] class template, plus the
    free comparison operators.  The embedding keeps the memory picture of
    the C++ code: list objects and heap nodes live in a store, a [Node*] is
    either null, the address of the sentinel embedded in a list object, or the
    address of a node obtained from [new]; member functions are computations
    in a state monad whose outcomes are normal return, a thrown exception, or
    a failure (undefined behaviour, a failed [assert], fuel exhaustion of a
    loop). *)

From stdpp Require Import base option list numbers gmap sets fin_maps.
From Stdlib Require Import ZArith NArith Lia.

Set Default Proof Using "Type".

(** ** Element types

    The template parameter [Type] needs a default constructor (the sentinel
    holds a value-initialised [Type value{}]), and, for the comparison
    operators, [operator==] and [operator<]. *)

Class Element (T : Type) := {
  T_default : T;
  T_eq : T → T → bool;
  T_lt : T → T → bool
}.

#[export] Instance Z_Element : Element Z :=
  {| T_default := 0%Z; T_eq := Z.eqb; T_lt := Z.ltb |}.

(** ** Memory *)

Definition loc := positive.

(** What a [Node*] can hold besides [nullptr]: the address of the [head_]
    member of the list object at [l], or the address of a node made by
    [new]. *)
Inductive NodeRef :=
  | Sentinel (l : loc)
  | Cell (a : loc).

#[export] Instance NodeRef_eq_dec : EqDecision NodeRef.
Proof. solve_decision. Defined.

(** [Node*]; [None] is [nullptr]. *)
Definition NodePtr := option NodeRef.

Record Node (T : Type) := mkNode {
  value : T;
  next_node : NodePtr
}.
Arguments mkNode {T} _ _.
Arguments value {T} _.
Arguments next_node {T} _.

(** [size_t], taken to be 64 bits wide. *)
Definition size_t_modulus : N := 2 ^ 64.

Record SingleLinkedList (T : Type) := mkList {
  head_ : Node T;
  size_ : N
}.
Arguments mkList {T} _ _.
Arguments head_ {T} _.
Arguments size_ {T} _.

(** A node occupies at least 16 bytes of a 64-bit address space, so fewer
    than [2^60] of them are alive at any time: [new] fails beyond that. *)
Definition max_nodes : N := 2 ^ 60.

(** The store.  [budget] is the number of node constructions that will still
    succeed: it stands for the two ways [new Node(val, next)] throws (the
    allocation itself, or the copy constructor of [Type]), both at the same
    program point. *)
Record state (T : Type) := mkState {
  lists : gmap loc (SingleLinkedList T);
  heap : gmap loc (Node T);
  budget : nat
}.
Arguments mkState {T} _ _ _.
Arguments lists {T} _.
Arguments heap {T} _.
Arguments budget {T} _.

Inductive failure :=
  | UndefinedBehaviour
  | AssertionFailed
  | Terminated
  | OutOfFuel.

Inductive outcome (T A : Type) :=
  | Ret (a : A) (s : state T)
  | Throw (s : state T)
  | Fail (f : failure).
Arguments Ret {T A} _ _.
Arguments Throw {T A} _.
Arguments Fail {T A} _.

Definition M (T A : Type) := state T → outcome T A.

#[export] Instance M_ret {T} : MRet (M T) := fun A a s => Ret a s.

#[export] Instance M_bind {T} : MBind (M T) := fun A B k m s =>
  match m s with
  | Ret a s' => k a s'
  | Throw s' => Throw s'
  | Fail f => Fail f
  end.

Definition fail {T A} (f : failure) : M T A := fun _ => Fail f.

(** Runs [cleanup] on both the normal and the exceptional exit of [body]:
    the destructor of a local object at the end of its scope, or during stack
    unwinding.  Destructors are [noexcept]: one that throws ends the program. *)
Definition finally {T A} (body : M T A) (cleanup : M T unit) : M T A :=
  fun s =>
    match body s with
    | Ret a s1 =>
        match cleanup s1 with
        | Ret _ s2 => Ret a s2
        | Throw _ => Fail Terminated
        | Fail f => Fail f
        end
    | Throw s1 =>
        match cleanup s1 with
        | Ret _ s2 => Throw s2
        | Throw _ => Fail Terminated
        | Fail f => Fail f
        end
    | Fail f => Fail f
    end.

(** Runs [cleanup] only when [body] throws: the storage of an object whose
    constructor does not complete is released. *)
Definition on_throw {T A} (body : M T A) (cleanup : M T unit) : M T A :=
  fun s =>
    match body s with
    | Ret a s1 => Ret a s1
    | Throw s1 =>
        match cleanup s1 with
        | Ret _ s2 => Throw s2
        | Throw _ => Fail Terminated
        | Fail f => Fail f
        end
    | Fail f => Fail f
    end.

Definition assert {T} (b : bool) : M T unit :=
  if b then mret tt else fail AssertionFailed.

Section Memory.
Context {T : Type} `{Element T}.

Definition set_lists (f : gmap loc (SingleLinkedList T) → gmap loc (SingleLinkedList T))
    (s : state T) : state T :=
  mkState (f (lists s)) (heap s) (budget s).

Definition set_heap (f : gmap loc (Node T) → gmap loc (Node T))
    (s : state T) : state T :=
  mkState (lists s) (f (heap s)) (budget s).

(** Reading through a [Node*]: [*p]. *)
Definition load (p : NodePtr) : M T (Node T) := fun s =>
  match p with
  | None => Fail UndefinedBehaviour
  | Some (Sentinel l) =>
      match lists s !! l with
      | Some o => Ret (head_ o) s
      | None => Fail UndefinedBehaviour
      end
  | Some (Cell a) =>
      match heap s !! a with
      | Some n => Ret n s
      | None => Fail UndefinedBehaviour
      end
  end.

(** [p->next_node = q]. *)
Definition store_next (p : NodePtr) (q : NodePtr) : M T unit := fun s =>
  match p with
  | None => Fail UndefinedBehaviour
  | Some (Sentinel l) =>
      match lists s !! l with
      | Some o =>
          Ret tt (set_lists <[l := mkList (mkNode (value (head_ o)) q) (size_ o)]> s)
      | None => Fail UndefinedBehaviour
      end
  | Some (Cell a) =>
      match heap s !! a with
      | Some n => Ret tt (set_heap <[a := mkNode (value n) q]> s)
      | None => Fail UndefinedBehaviour
      end
  end.

(** [new Node(val, next)].  The node goes to an address that is not in
    use; nothing below depends on which one. *)
Definition new_Node (val : T) (next : NodePtr) : M T NodePtr := fun s =>
  match budget s with
  | O => Throw s
  | S b =>
      if decide (N.of_nat (size (heap s)) < max_nodes)%N then
        let a := fresh (dom (heap s)) in
        Ret (Some (Cell a))
            (mkState (lists s) (<[a := mkNode val next]> (heap s)) b)
      else Throw s
  end.

(** [delete p]. *)
Definition delete_Node (p : NodePtr) : M T unit := fun s =>
  match p with
  | None => Ret tt s
  | Some (Sentinel _) => Fail UndefinedBehaviour
  | Some (Cell a) =>
      match heap s !! a with
      | Some _ => Ret tt (set_heap (delete a) s)
      | None => Fail UndefinedBehaviour
      end
  end.

(** Reading and writing the [size_] member of the list object at [this]. *)
Definition get_size (this : loc) : M T N := fun s =>
  match lists s !! this with
  | Some o => Ret (size_ o) s
  | None => Fail UndefinedBehaviour
  end.

Definition set_size (this : loc) (n : N) : M T unit := fun s =>
  match lists s !! this with
  | Some o => Ret tt (set_lists <[this := mkList (head_ o) n]> s)
  | None => Fail UndefinedBehaviour
  end.

(** [++size_] and [--size_] on a [size_t]. *)
Definition incr_size (this : loc) : M T unit :=
  n ← get_size this; set_size this ((n + 1) mod size_t_modulus)%N.

Definition decr_size (this : loc) : M T unit :=
  n ← get_size this;
  set_size this ((n + size_t_modulus - 1) mod size_t_modulus)%N.

End Memory.

(** ** Iterators

    [BasicIterator<ValueType>] holds one [Node*].  [Iterator] and
    [ConstIterator] differ only in the constness of the reference they give
    out, so one record stands for both. *)

Record BasicIterator := mkIterator { node_ : NodePtr }.

(** [BasicIterator() = default]: the member initialiser sets [node_] to
    [nullptr]. *)
Definition default_iterator : BasicIterator := mkIterator None.

(** [operator==] and [operator!=] of iterators, all four overloads. *)
Definition iterator_eq (lhs rhs : BasicIterator) : bool :=
  bool_decide (node_ lhs = node_ rhs).

Definition iterator_ne (lhs rhs : BasicIterator) : bool :=
  bool_decide (node_ lhs ≠ node_ rhs).

(** What the function templates [Create], [std::equal] and
    [std::lexicographical_compare] ask of their iterator arguments. *)
Class InputIterator (T It : Type) := {
  iter_ne : It → It → bool;
  iter_deref : It → M T T;
  iter_incr : It → M T It
}.

(** A pointer into the array behind a [std::initializer_list<Type>]. *)
Record ArrayPtr (T : Type) := mkArrayPtr {
  array : list T;
  index : nat
}.
Arguments mkArrayPtr {T} _ _.
Arguments array {T} _.
Arguments index {T} _.

Section Iterators.
Context {T : Type}.

(** [operator++()]: [node_] becomes the [next_node] of the node it points to. *)
Definition iterator_incr (it : BasicIterator) : M T BasicIterator :=
  n ← load (node_ it); mret (mkIterator (next_node n)).

(** [operator*()]: [node_->value]. *)
Definition iterator_deref (it : BasicIterator) : M T T :=
  n ← load (node_ it); mret (value n).

(** [operator++(int)]: the pair of the value returned, a copy of the
    iterator as it was, and of the iterator after the increment. *)
Definition iterator_post_incr (it : BasicIterator)
    : M T (BasicIterator * BasicIterator) :=
  let old_value := it in
  it' ← iterator_incr it;
  mret (old_value, it').

#[export] Instance BasicIterator_input : InputIterator T BasicIterator :=
  {| iter_ne := iterator_ne;
     iter_deref := iterator_deref;
     iter_incr := iterator_incr |}.

Definition array_deref (p : ArrayPtr T) : M T T :=
  match array p !! index p with
  | Some v => mret v
  | None => fail UndefinedBehaviour
  end.

#[export] Instance ArrayPtr_input : InputIterator T (ArrayPtr T) :=
  {| iter_ne := fun p q => bool_decide (index p ≠ index q);
     iter_deref := array_deref;
     iter_incr := fun p => mret (mkArrayPtr (array p) (S (index p))) |}.

(** [values.begin()] and [values.end()] of an initializer list. *)
Definition array_begin (values : list T) : ArrayPtr T := mkArrayPtr values 0.
Definition array_end (values : list T) : ArrayPtr T :=
  mkArrayPtr values (length values).

End Iterators.

(** ** The standard algorithms the comparison operators call

    These follow the C++ standard's definition of the two algorithms. *)

Section Algorithms.
Context {T : Type} `{Element T} {It1 It2 : Type}
        `{!InputIterator T It1} `{!InputIterator T It2}.

(** [std::equal(first1, last1, first2)], the overload without [last2]. *)
Fixpoint std_equal (fuel : nat) (first1 last1 : It1) (first2 : It2)
    : M T bool :=
  if iter_ne first1 last1 then
    match fuel with
    | O => fail OutOfFuel
    | S fuel' =>
        x ← iter_deref first1;
        y ← iter_deref first2;
        if T_eq x y then
          first1' ← iter_incr first1;
          first2' ← iter_incr first2;
          std_equal fuel' first1' last1 first2'
        else mret false
    end
  else mret true.

(** [std::lexicographical_compare(first1, last1, first2, last2)]. *)
Fixpoint std_lexicographical_compare (fuel : nat)
    (first1 last1 : It1) (first2 last2 : It2) : M T bool :=
  if iter_ne first1 last1 && iter_ne first2 last2 then
    match fuel with
    | O => fail OutOfFuel
    | S fuel' =>
        x ← iter_deref first1;
        y ← iter_deref first2;
        if T_lt x y then mret true
        else if T_lt y x then mret false
        else
          first1' ← iter_incr first1;
          first2' ← iter_incr first2;
          std_lexicographical_compare fuel' first1' last1 first2' last2
    end
  else mret (negb (iter_ne first1 last1) && iter_ne first2 last2).

End Algorithms.

(** ** The list *)

Section List.
Context {T : Type} `{Element T}.

Definition head_ref (this : loc) : NodePtr := Some (Sentinel this).

(** Storage for a list object, with the default member initialisers
    [Node head_] (value-initialised [value], null [next_node]) and
    [size_ = 0].  This is all that [SingleLinkedList() = default] does. *)
Definition alloc_list : M T loc := fun s =>
  let l := fresh (dom (lists s)) in
  Ret l (set_lists <[l := mkList (mkNode T_default None) 0%N]> s).

Definition dealloc_list (this : loc) : M T unit := fun s =>
  match lists s !! this with
  | Some _ => Ret tt (set_lists (delete this) s)
  | None => Fail UndefinedBehaviour
  end.

Definition begin (this : loc) : M T BasicIterator :=
  h ← load (head_ref this); mret (mkIterator (next_node h)).

Definition end_ (this : loc) : BasicIterator := mkIterator None.

Definition cbegin := begin.
Definition cend := end_.

Definition before_begin (this : loc) : BasicIterator :=
  mkIterator (head_ref this).

Definition cbefore_begin := before_begin.

Definition GetSize (this : loc) : M T N := get_size this.

Definition IsEmpty (this : loc) : M T bool :=
  h ← load (head_ref this); mret (bool_decide (next_node h = None)).

(** [Create(range_b, range_e)]: the loop, with [prev] and [it] as its
    variables. *)
Fixpoint Create_loop {It} `{!InputIterator T It} (fuel : nat) (this : loc)
    (prev : NodePtr) (it range_e : It) : M T unit :=
  if iter_ne it range_e then
    match fuel with
    | O => fail OutOfFuel
    | S fuel' =>
        v ← iter_deref it;
        n ← new_Node v None;
        store_next prev n;;
        p ← load prev;
        incr_size this;;
        it' ← iter_incr it;
        Create_loop fuel' this (next_node p) it' range_e
    end
  else mret tt.

Definition Create {It} `{!InputIterator T It} (fuel : nat) (this : loc)
    (range_b range_e : It) : M T unit :=
  Create_loop fuel this (head_ref this) range_b range_e.

Definition PushFront (this : loc) (v : T) : M T unit :=
  h ← load (head_ref this);
  n ← new_Node v (next_node h);
  store_next (head_ref this) n;;
  incr_size this.

Fixpoint Clear_loop (fuel : nat) (this : loc) : M T unit :=
  h ← load (head_ref this);
  match next_node h with
  | None => mret tt
  | Some r =>
      match fuel with
      | O => fail OutOfFuel
      | S fuel' =>
          first ← load (Some r);
          delete_Node (Some r);;
          store_next (head_ref this) (next_node first);;
          Clear_loop fuel' this
      end
  end.

Definition Clear (fuel : nat) (this : loc) : M T unit :=
  Clear_loop fuel this;; set_size this 0%N.

Definition InsertAfter (this : loc) (pos : BasicIterator) (v : T)
    : M T BasicIterator :=
  p ← load (node_ pos);
  inserted ← new_Node v (next_node p);
  store_next (node_ pos) inserted;;
  incr_size this;;
  mret (mkIterator inserted).

Definition EraseAfter (this : loc) (pos : BasicIterator)
    : M T BasicIterator :=
  p ← load (node_ pos);
  let eraze_me := next_node p in
  e ← load eraze_me;
  let next_to_erazed := next_node e in
  store_next (node_ pos) next_to_erazed;;
  delete_Node eraze_me;;
  decr_size this;;
  mret (mkIterator next_to_erazed).

Definition PopFront (this : loc) : M T unit :=
  EraseAfter this (before_begin this);; mret tt.

Definition swap (this other : loc) : M T unit :=
  h ← load (head_ref this);
  let tmp_p := next_node h in
  tmp_s ← get_size this;
  o ← load (head_ref other);
  store_next (head_ref this) (next_node o);;
  other_size ← get_size other;
  set_size this other_size;;
  store_next (head_ref other) tmp_p;;
  set_size other tmp_s.

(** The destructor, followed by the release of the object's storage. *)
Definition destroy (fuel : nat) (this : loc) : M T unit :=
  Clear fuel this;; dealloc_list this.

(** A local list object: built by [ctor], alive during [body], destroyed
    when the scope is left, normally or by an exception. *)
Definition with_local {A} (fuel : nat) (ctor : M T loc) (body : loc → M T A)
    : M T A :=
  l ← ctor; finally (body l) (destroy fuel l).

(** The body shared by the two converting constructors. *)
Definition construct_from {It} `{!InputIterator T It} (fuel : nat)
    (range : M T (It * It)) : M T loc :=
  this ← alloc_list;
  on_throw
    (h ← load (head_ref this);
     n ← get_size this;
     assert (bool_decide (n = 0%N) && bool_decide (next_node h = None));;
     with_local fuel alloc_list (fun tmp =>
       r ← range;
       Create fuel tmp r.1 r.2;;
       swap this tmp))
    (dealloc_list this);;
  mret this.

(** [SingleLinkedList(std::initializer_list<Type> values)]. *)
Definition construct_values (fuel : nat) (values : list T) : M T loc :=
  construct_from fuel (mret (array_begin values, array_end values)).

(** [SingleLinkedList(const SingleLinkedList& other)]. *)
Definition construct_copy (fuel : nat) (other : loc) : M T loc :=
  construct_from fuel (b ← begin other; mret (b, end_ other)).

(** [operator=(const SingleLinkedList& rhs)]. *)
Definition assign (fuel : nat) (this rhs : loc) : M T loc :=
  with_local fuel (construct_copy fuel rhs) (fun copy_rhs =>
    swap this copy_rhs);;
  mret this.

(** The free [swap]. *)
Definition swap_lists (lhs rhs : loc) : M T unit := swap lhs rhs.

(** The free comparison operators. *)
Definition op_eq (fuel : nat) (lhs rhs : loc) : M T bool :=
  b1 ← begin lhs;
  b2 ← begin rhs;
  std_equal fuel b1 (end_ lhs) b2.

Definition op_ne (fuel : nat) (lhs rhs : loc) : M T bool :=
  b ← op_eq fuel lhs rhs; mret (negb b).

Definition op_lt (fuel : nat) (lhs rhs : loc) : M T bool :=
  b1 ← begin lhs;
  b2 ← begin rhs;
  std_lexicographical_compare fuel b1 (end_ lhs) b2 (end_ rhs).

Definition op_le (fuel : nat) (lhs rhs : loc) : M T bool :=
  b ← op_lt fuel rhs lhs; mret (negb b).

Definition op_gt (fuel : nat) (lhs rhs : loc) : M T bool :=
  op_lt fuel rhs lhs.

Definition op_ge (fuel : nat) (lhs rhs : loc) : M T bool :=
  b ← op_gt fuel rhs lhs; mret (negb b).

(** The state at program start: no objects, no nodes. *)
Definition initial (budget : nat) : state T := mkState ∅ ∅ budget.

End List.

(** ** Clients

    What a program does with lists: read one through its iterators, call
    [PushFront] in a row, call the public operations one after another. *)

(** One call of a public operation.  [Create] is a member template: it is
    called on the array of an initializer list, or on the range of a list. *)
Inductive call (T : Type) :=
  | CallDefault
  | CallValues (values : list T)
  | CallCopy (other : loc)
  | CallDestroy (this : loc)
  | CallAssign (this rhs : loc)
  | CallPushFront (this : loc) (v : T)
  | CallInsertAfter (this : loc) (pos : BasicIterator) (v : T)
  | CallEraseAfter (this : loc) (pos : BasicIterator)
  | CallPopFront (this : loc)
  | CallClear (this : loc)
  | CallSwap (this other : loc)
  | CallCreateValues (this : loc) (values : list T)
  | CallCreateRange (this other : loc).
Arguments CallDefault {T}.
Arguments CallValues {T} _.
Arguments CallCopy {T} _.
Arguments CallDestroy {T} _.
Arguments CallAssign {T} _ _.
Arguments CallPushFront {T} _ _.
Arguments CallInsertAfter {T} _ _ _.
Arguments CallEraseAfter {T} _ _.
Arguments CallPopFront {T} _.
Arguments CallClear {T} _.
Arguments CallSwap {T} _ _.
Arguments CallCreateValues {T} _ _.
Arguments CallCreateRange {T} _ _.

Section Clients.
Context {T : Type} `{Element T}.

(** The values met by a [for] loop that runs an iterator from [first] up to
    [last], dereferencing it at each step. *)
Fixpoint collect {It} `{!InputIterator T It} (fuel : nat) (first last : It)
    : M T (list T) :=
  if iter_ne first last then
    match fuel with
    | O => fail OutOfFuel
    | S fuel' =>
        v ← iter_deref first;
        first' ← iter_incr first;
        vs ← collect fuel' first' last;
        mret (v :: vs)
    end
  else mret [].

(** The elements of a list, front to back, as a client reads them. *)
Definition iterate (fuel : nat) (this : loc) : M T (list T) :=
  b ← begin this; collect fuel b (end_ this).

(** A run of [PushFront] calls, in the order of [vs]. *)
Fixpoint PushFront_all (this : loc) (vs : list T) : M T unit :=
  match vs with
  | [] => mret tt
  | v :: vs' => PushFront this v;; PushFront_all this vs'
  end.

(** What a call does.  The constructors put the new list object at the
    first free address. *)
Definition run (fuel : nat) (k : call T) : M T unit :=
  match k with
  | CallDefault => alloc_list;; mret tt
  | CallValues values => construct_values fuel values;; mret tt
  | CallCopy other => construct_copy fuel other;; mret tt
  | CallDestroy this => destroy fuel this
  | CallAssign this rhs => assign fuel this rhs;; mret tt
  | CallPushFront this v => PushFront this v
  | CallInsertAfter this pos v => InsertAfter this pos v;; mret tt
  | CallEraseAfter this pos => EraseAfter this pos;; mret tt
  | CallPopFront this => PopFront this
  | CallClear this => Clear fuel this
  | CallSwap this other => swap this other
  | CallCreateValues this values =>
      Create fuel this (array_begin values) (array_end values)
  | CallCreateRange this other =>
      b ← begin other; Create fuel this b (end_ other)
  end.

End Clients.

(** The state an outcome leaves, [d] when there is none. *)
Definition final_state {T A} (r : outcome T A) (d : state T) : state T :=
  match r with
  | Ret _ s | Throw s => s
  | Fail _ => d
  end.

(** * Specification vocabulary *)

Section Vocabulary.
Context {T : Type} `{Element T}.
Implicit Types (h : gmap loc (Node T)) (p q : NodePtr) (s : state T)
               (cells c new : list (loc * T)) (this l : loc)
               (L X : list loc).

(** [lseg h p q cells]: following [next_node] from [p] visits the nodes at
    the addresses of [cells], holding the values of [cells], and arrives
    at [q]. *)
Fixpoint lseg h p q cells : Prop :=
  match cells with
  | [] => p = q
  | (a, v) :: rest =>
      p = Some (Cell a) ∧ ∃ r, h !! a = Some (mkNode v r) ∧ lseg h r q rest
  end.

(** A chain ends at [nullptr]. *)
Definition chain h p cells : Prop := lseg h p None cells.

(** The pointer to the first node of [cells], or [q] when there is none. *)
Definition first_ptr q cells : NodePtr :=
  match cells with
  | [] => q
  | (a, _) :: _ => Some (Cell a)
  end.

(** The list object at [this] is alive, its chain is [cells] and its
    [size_] member, a [size_t], counts them. *)
Definition is_list s this cells : Prop :=
  ∃ o, lists s !! this = Some o ∧
       size_ o = N.of_nat (length cells) ∧
       (size_ o < size_t_modulus)%N ∧
       chain (heap s) (next_node (head_ o)) cells.

(** [new] has room for [n] more nodes. *)
Definition can_alloc_n (n : nat) s : Prop :=
  n ≤ budget s ∧ (N.of_nat n ≤ max_nodes - N.of_nat (size (heap s)))%N.

(** The next [new] succeeds. *)
Definition can_alloc s : Prop := can_alloc_n 1 s.

#[export] Instance can_alloc_n_dec n s : Decision (can_alloc_n n s).
Proof. unfold can_alloc_n. apply _. Defined.

(** The node an iterator references when it stands just after the cells
    [c1] of the list at [this]: the last of them, or the sentinel. *)
Definition last_ptr this c1 : NodePtr :=
  match last c1 with
  | None => head_ref this
  | Some (a, _) => Some (Cell a)
  end.

(** [s'] agrees with [s] on every list object outside [L] and every heap
    address outside [A]. *)
Definition frame (L A : list loc) s s' : Prop :=
  (∀ l, l ∉ L → lists s' !! l = lists s !! l) ∧
  (∀ a, a ∉ A → heap s' !! a = heap s !! a).

(** [s] agrees with [s0] on the list objects [L] and the heap addresses
    [X]: what a reader of these sees is what it saw in [s0]. *)
Definition agree L X s0 s : Prop :=
  (∀ l, l ∈ L → lists s !! l = lists s0 !! l) ∧
  (∀ a, a ∈ X → heap s !! a = heap s0 !! a).

(** [yields ok first last vs]: in every state that satisfies [ok], stepping
    an iterator from [first] reads the values [vs] and then meets [last]. *)
Fixpoint yields {It} `{!InputIterator T It} (ok : state T → Prop)
    (first last : It) (vs : list T) : Prop :=
  match vs with
  | [] => iter_ne first last = false
  | v :: vs' =>
      iter_ne first last = true ∧
      (∀ s, ok s → iter_deref first s = Ret v s) ∧
      ∃ first', (∀ s, ok s → iter_incr first s = Ret first' s) ∧
                yields ok first' last vs'
  end.

(** What [std::equal(first1, last1, first2)] makes of two value sequences:
    [None] when it reads past the end of the second. *)
Fixpoint equal_outcome (xs ys : list T) : option bool :=
  match xs, ys with
  | [], _ => Some true
  | _ :: _, [] => None
  | x :: xs', y :: ys' => if T_eq x y then equal_outcome xs' ys' else Some false
  end.

(** Lexicographic order on value sequences: the first position where one
    element is less than the other decides; a proper prefix is smaller. *)
Fixpoint lexicographic_lt (xs ys : list T) : bool :=
  match xs, ys with
  | _, [] => false
  | [], _ :: _ => true
  | x :: xs', y :: ys' =>
      if T_lt x y then true
      else if T_lt y x then false
      else lexicographic_lt xs' ys'
  end.

(** [reaches h p a]: the node at [a] is met when following [next_node]
    links from [p]. *)
Inductive reaches h : NodePtr → loc → Prop :=
  | reaches_here a n :
      h !! a = Some n → reaches h (Some (Cell a)) a
  | reaches_next a n b :
      h !! a = Some n → reaches h (next_node n) b →
      reaches h (Some (Cell a)) b.

(** The invariant of one list object, as the data model states it: the
    links from the sentinel lead through the nodes [cells] and end in a null
    link; these are the nodes reachable from the sentinel; none is met
    twice; [size_] is their number. *)
Definition list_invariant s this : Prop :=
  ∃ o cells,
    lists s !! this = Some o ∧
    chain (heap s) (next_node (head_ o)) cells ∧
    (∀ a, reaches (heap s) (next_node (head_ o)) a ↔ a ∈ cells.*1) ∧
    NoDup cells.*1 ∧
    size_ o = N.of_nat (length cells).

(** All list objects are lists, and no two of them share a node. *)
Definition wf s : Prop :=
  (∀ l, is_Some (lists s !! l) → ∃ cells, is_list s l cells) ∧
  (∀ l1 l2 c1 c2, l1 ≠ l2 → is_list s l1 c1 → is_list s l2 c2 →
     ∀ a, a ∈ c1.*1 → a ∉ c2.*1).

(** What a call needs: the list objects it names are alive; a position
    argument references the sentinel or a node of the list it is passed to;
    [Create] is applied to an empty list. *)
Definition permitted s (k : call T) : Prop :=
  match k with
  | CallDefault | CallValues _ => True
  | CallCopy this | CallDestroy this | CallPushFront this _
  | CallPopFront this | CallClear this => is_Some (lists s !! this)
  | CallAssign this other | CallSwap this other =>
      is_Some (lists s !! this) ∧ is_Some (lists s !! other)
  | CallInsertAfter this pos _ | CallEraseAfter this pos =>
      ∃ c1 c2, is_list s this (c1 ++ c2) ∧ node_ pos = last_ptr this c1
  | CallCreateValues this _ => is_list s this []
  | CallCreateRange this other =>
      is_list s this [] ∧ is_Some (lists s !! other)
  end.

(** The states a program gets to from the initial state by permitted
    calls, whether these return or throw, with [new] failing when it
    likes. *)
Inductive reachable : state T → Prop :=
  | reachable_initial b :
      reachable (initial b)
  | reachable_budget s b :
      reachable s → reachable (mkState (lists s) (heap s) b)
  | reachable_return s k fuel s' :
      reachable s → permitted s k → run fuel k s = Ret tt s' → reachable s'
  | reachable_throw s k fuel s' :
      reachable s → permitted s k → run fuel k s = Throw s' → reachable s'.

(** [r2] is what [r1] is or, when [r1] ran out of fuel, may become with
    more fuel. *)
Definition fuel_le {A} (r1 r2 : outcome T A) : Prop :=
  r1 = Fail OutOfFuel ∨ r1 = r2.

(** The length of the initializer list a call passes, if any. *)
Definition values_length (k : call T) : nat :=
  match k with
  | CallValues values | CallCreateValues _ values => length values
  | _ => 0
  end.

(** The node at [a] is in the chain of a list object. *)
Definition owned s (a : loc) : Prop :=
  ∃ l cells, is_list s l cells ∧ a ∈ cells.*1.

(** No node is lost: every node of the heap is in the chain of a list
    object. *)
Definition no_leak s : Prop :=
  ∀ a, is_Some (heap s !! a) → owned s a.

(** [m] does not throw, whatever the state. *)
Definition no_throw {A} (m : M T A) : Prop :=
  ∀ s s', m s ≠ Throw s'.

End Vocabulary.

(** ** Concrete states *)

Module Demo.

Local Open Scope Z_scope.
Local Open Scope positive_scope.

(** The list [{10, 20}], built by the initializer-list constructor: the
    list object is at 1, its nodes at 1 and 2. *)
Definition list_10_20 : state Z :=
  final_state (construct_values 2 [10; 20]%Z (initial 5)) (initial 0).

(** The list [{1, 2, 3}]. *)
Definition list_1_2_3 : state Z :=
  final_state (construct_values 3 [1; 2; 3]%Z (initial 9)) (initial 0).

(** Two lists: [{1, 2}] at 1 and [{9}] at 2. *)
Definition lists_12_9 : state Z :=
  final_state
    ((construct_values 2 [1; 2]%Z;; construct_values 2 [9]%Z) (initial 5))
    (initial 0).

(** Two lists: [{1, 2}] at 1 and [{1, 2, 3}] at 2. *)
Definition lists_12_123 : state Z :=
  final_state
    ((construct_values 2 [1; 2]%Z;; construct_values 3 [1; 2; 3]%Z) (initial 5))
    (initial 0).

(** Two lists: [{2}] at 1 and [{1, 9}] at 2. *)
Definition lists_2_19 : state Z :=
  final_state
    ((construct_values 2 [2]%Z;; construct_values 2 [1; 9]%Z) (initial 5))
    (initial 0).

(** An empty list, from the default constructor. *)
Definition empty_list : state Z :=
  final_state (alloc_list (initial 5)) (initial 0).

(** The two lists of [lists_12_9] when [new] will not succeed again. *)
Definition lists_12_9_exhausted : state Z :=
  mkState (lists lists_12_9) (heap lists_12_9) 0.

(** A program: build [{1, 2}], then push 0 onto its front. *)
Definition after_values : state Z :=
  final_state (run 2 (CallValues [1; 2]%Z) (initial 5)) (initial 0).

Definition after_push : state Z :=
  final_state (run 0 (CallPushFront 1 0%Z) after_values) (initial 0).

(** The list [{1}], built by the default constructor and [PushFront], and
    what [Create] makes of it when called with the values [{7}]. *)
Definition list_empty : state Z :=
  final_state (run 0 CallDefault (initial 5)) (initial 0).

Definition list_1 : state Z :=
  final_state (run 0 (CallPushFront 1 1%Z) list_empty) (initial 0).

Definition list_1_created : state Z :=
  final_state (run 1 (CallCreateValues 1 [7]%Z) list_1) (initial 0).

(** An empty list when [new] will succeed once more only. *)
Definition empty_list_budget_1 : state Z :=
  mkState (lists empty_list) (heap empty_list) 1.

(** Two lists of the same length: [{1, 2}] at 1 and [{1, 3}] at 2. *)
Definition lists_12_13 : state Z :=
  final_state
    ((construct_values 2 [1; 2]%Z;; construct_values 2 [1; 3]%Z) (initial 5))
    (initial 0).

End Demo.

(** * Lemmas *)

(** ** Chains of nodes *)

Section Chains.
Context {T : Type}.
Implicit Types (h : gmap loc (Node T)) (p q : NodePtr)
               (cells : list (loc * T)).

Lemma lseg_first h p q cells : lseg h p q cells → p = first_ptr q cells.
Proof. destruct cells as [|[a v] rest]; simpl; [done | by intros [-> _]]. Qed.

Lemma lseg_app h p q c1 c2 :
  lseg h p q (c1 ++ c2) ↔ ∃ r, lseg h p r c1 ∧ lseg h r q c2.
Proof.
  revert p. induction c1 as [|[a v] c1 IH]; intros p; simpl.
  - split; [intros Hc; by exists p | by intros (r & -> & Hc)].
  - split.
    + intros (-> & r & Ha & Hr). apply IH in Hr as (r' & H1 & H2).
      exists r'. split; [|done]. split; [done|]. by exists r.
    + intros (r' & (-> & r & Ha & H1) & H2). split; [done|].
      exists r. split; [done|]. apply IH. by exists r'.
Qed.

Lemma lseg_frame h h' p q cells :
  (∀ a, a ∈ cells.*1 → h' !! a = h !! a) →
  lseg h p q cells → lseg h' p q cells.
Proof.
  revert p. induction cells as [|[a v] rest IH]; intros p Hfr; simpl; [done|].
  intros (-> & r & Ha & Hr). split; [done|]. exists r. split.
  - rewrite Hfr; [done|]. simpl. apply list_elem_of_here.
  - apply IH; [|done]. intros b Hb. apply Hfr. simpl. by apply list_elem_of_further.
Qed.

Lemma lseg_alive h p q cells a :
  lseg h p q cells → a ∈ cells.*1 → is_Some (h !! a).
Proof.
  revert p. induction cells as [|[b v] rest IH]; intros p; simpl.
  - intros _ Ha. by apply elem_of_nil in Ha.
  - intros (-> & r & Hb & Hr) Ha. apply elem_of_cons in Ha as [->|Ha]; eauto.
Qed.

(** From a given pointer there is one chain. *)
Lemma chain_det h p c1 c2 : chain h p c1 → chain h p c2 → c1 = c2.
Proof.
  unfold chain. revert p c2.
  induction c1 as [|[a v] c1 IH]; intros p [|[b w] c2]; simpl; try done.
  - intros -> [? _]. done.
  - intros [-> _] ?. done.
  - intros (-> & r & Ha & Hr) (Heq & r' & Hb & Hr').
    simplify_eq. f_equal. by eapply IH.
Qed.

(** A chain visits no node twice. *)
Lemma chain_NoDup h p cells : chain h p cells → NoDup cells.*1.
Proof.
  unfold chain. revert p.
  induction cells as [|[a v] rest IH]; intros p; simpl.
  - intros _. apply NoDup_nil_2.
  - intros (-> & r & Ha & Hr). apply NoDup_cons. split; [|by eapply IH].
    intros Hin. apply list_elem_of_fmap in Hin as ([a' v'] & Heq & Hin).
    simpl in Heq. subst a'.
    apply list_elem_of_split in Hin as (l1 & l2 & ->).
    pose proof Hr as Hr0.
    apply lseg_app in Hr as (r' & _ & Hr2).
    pose proof Hr2 as (-> & r2 & Ha' & Hr3). simpl in Hr2.
    rewrite Ha in Ha'. injection Ha' as Hv Hr'. subst v' r2.
    assert (l1 ++ (a, v) :: l2 = l2) as Habs by by eapply chain_det.
    apply (f_equal length) in Habs. rewrite length_app in Habs.
    simpl in Habs. lia.
Qed.

Lemma chain_alive h p cells a :
  chain h p cells → a ∈ cells.*1 → is_Some (h !! a).
Proof. apply lseg_alive. Qed.

(** The node at a given place of a chain. *)
Lemma chain_lookup h p c1 a v c2 :
  chain h p (c1 ++ (a, v) :: c2) →
  h !! a = Some (mkNode v (first_ptr None c2)).
Proof.
  intros Hc. apply lseg_app in Hc as (r & _ & Hr).
  destruct Hr as (-> & r' & Ha & Hr'). by rewrite <-(lseg_first _ _ _ _ Hr').
Qed.

(** The nodes of a chain fit in the heap. *)
Lemma chain_length h p cells : chain h p cells → length cells ≤ size h.
Proof.
  intros Hc. pose proof (chain_NoDup _ _ _ Hc) as Hnd.
  rewrite <-(length_fmap fst), <-(size_list_to_set (C:=gset loc)) by done.
  rewrite <-size_dom. apply subseteq_size.
  intros a Ha. apply elem_of_list_to_set in Ha. apply elem_of_dom.
  by eapply chain_alive.
Qed.

End Chains.

(** ** What a list object stands for *)

Ltac unfold_prims :=
  unfold incr_size, decr_size, get_size, set_size, store_next, load,
    delete_Node, head_ref, set_lists, set_heap, fail, mbind, M_bind,
    mret, M_ret.

(** Symbolic execution of the primitives: look the accessed objects up. *)
Ltac exec :=
  unfold_prims; simpl;
  repeat (first
    [ rewrite lookup_insert_eq
    | rewrite lookup_insert_ne by congruence
    | rewrite lookup_delete_eq
    | rewrite lookup_delete_ne by congruence
    | match goal with
      | Hl : ?m !! ?k = _ |- context [?m !! ?k] => rewrite Hl
      end ]; simpl).

Section Representation.
Context {T : Type} `{Element T}.
Implicit Types (s : state T) (cells c : list (loc * T)) (this : loc).

Lemma frame_refl L A s : frame L A s s.
Proof. by split. Qed.

Lemma frame_trans L A s1 s2 s3 :
  frame L A s1 s2 → frame L A s2 s3 → frame L A s1 s3.
Proof.
  intros [Hl1 Ha1] [Hl2 Ha2]. split; intros x Hx.
  - by rewrite Hl2, Hl1.
  - by rewrite Ha2, Ha1.
Qed.

Lemma frame_weaken L A L' A' s s' :
  L ⊆ L' → A ⊆ A' → frame L A s s' → frame L' A' s s'.
Proof.
  intros HL HA [Hl Ha]. split; intros x Hx.
  - apply Hl. intros Hin. apply Hx, HL, Hin.
  - apply Ha. intros Hin. apply Hx, HA, Hin.
Qed.

Lemma is_list_det s this c1 c2 :
  is_list s this c1 → is_list s this c2 → c1 = c2.
Proof.
  intros (o1 & Ho1 & _ & _ & Hc1) (o2 & Ho2 & _ & _ & Hc2).
  rewrite Ho1 in Ho2. injection Ho2 as <-. by eapply chain_det.
Qed.

Lemma is_list_alive s this cells a :
  is_list s this cells → a ∈ cells.*1 → is_Some (heap s !! a).
Proof. intros (o & _ & _ & _ & Hc). by eapply chain_alive. Qed.

Lemma is_list_NoDup s this cells : is_list s this cells → NoDup cells.*1.
Proof. intros (o & _ & _ & _ & Hc). by eapply chain_NoDup. Qed.

(** A list keeps its meaning when neither its object nor its nodes are
    touched. *)
Lemma is_list_frame L A s s' this cells :
  frame L A s s' → this ∉ L → (∀ a, a ∈ cells.*1 → a ∉ A) →
  is_list s this cells → is_list s' this cells.
Proof.
  intros [Hl Ha] Hthis Hdisj (o & Ho & Hsz & Hlt & Hc).
  exists o. split; [by rewrite Hl|]. do 2 (split; [done|]).
  eapply lseg_frame; [|done]. intros a Hin. by apply Ha, Hdisj.
Qed.

Lemma fresh_heap (h : gmap loc (Node T)) : h !! fresh (dom h) = None.
Proof. apply not_elem_of_dom, is_fresh. Qed.

Lemma fresh_lists (m : gmap loc (SingleLinkedList T)) :
  m !! fresh (dom m) = None.
Proof. apply not_elem_of_dom, is_fresh. Qed.

Lemma new_Node_ok s v q :
  can_alloc s →
  new_Node v q s =
    Ret (Some (Cell (fresh (dom (heap s)))))
        (mkState (lists s) (<[fresh (dom (heap s)) := mkNode v q]> (heap s))
                 (pred (budget s))).
Proof.
  intros [Hb Hcap]. unfold new_Node.
  destruct (budget s); [lia|]. rewrite decide_True; [done|].
  unfold max_nodes in *. lia.
Qed.

Lemma new_Node_throw s v q : ¬ can_alloc s → new_Node v q s = Throw s.
Proof.
  intros Hn. unfold new_Node. destruct (budget s) eqn:Hb; [done|].
  case_decide; [|done]. destruct Hn. split; [lia|].
  unfold max_nodes in *. lia.
Qed.

(** [++size_] does not wrap: the nodes counted are in the heap, and the
    heap had room for one more. *)
Lemma incr_no_wrap (h : gmap loc (Node T)) p cells :
  chain h p cells → (N.of_nat 1 ≤ max_nodes - N.of_nat (size h))%N →
  ((N.of_nat (length cells) + 1) mod size_t_modulus)%N
    = N.of_nat (S (length cells)).
Proof.
  intros Hc Hcap. apply chain_length in Hc.
  rewrite N.mod_small; [lia|].
  unfold max_nodes, size_t_modulus in *.
  assert (2 ^ 60 < 2 ^ 64)%N by done. lia.
Qed.

Lemma decr_no_wrap (n : nat) :
  (N.of_nat (S n) < size_t_modulus)%N →
  ((N.of_nat (S n) + size_t_modulus - 1) mod size_t_modulus)%N = N.of_nat n.
Proof.
  intros Hlt.
  replace (N.of_nat (S n) + size_t_modulus - 1)%N
    with (N.of_nat n + 1 * size_t_modulus)%N by lia.
  rewrite N.Div0.mod_add. apply N.mod_small. lia.
Qed.

Lemma mod_size_t_lt (n : N) : (n mod size_t_modulus < size_t_modulus)%N.
Proof. by apply N.mod_lt. Qed.

Lemma last_ptr_nil this : last_ptr (T:=T) this [] = head_ref this.
Proof. done. Qed.

Lemma last_ptr_snoc this c b w :
  last_ptr this (c ++ [(b, w)]) = Some (Cell b).
Proof. unfold last_ptr. by rewrite last_snoc. Qed.

Lemma snoc_case {A} (l : list A) : l = [] ∨ ∃ l' x, l = l' ++ [x].
Proof. destruct l as [|x l] using rev_ind; [by left | right; eauto]. Qed.

End Representation.

(** ** The mutators that work on one position *)

Section Mutators.
Context {T : Type} `{Element T}.
Implicit Types (s : state T) (cells c : list (loc * T)) (this : loc)
               (h : gmap loc (Node T)).

Lemma chain_push h p cells a v :
  chain h p cells → h !! a = None →
  chain (<[a := mkNode v p]> h) (Some (Cell a)) ((a, v) :: cells).
Proof.
  intros Hc Ha. split; [done|]. exists p. split; [apply lookup_insert_eq|].
  eapply lseg_frame; [|done]. intros b Hb.
  apply lookup_insert_ne. intros ->.
  destruct (chain_alive _ _ _ _ Hc Hb) as [n Hn]. congruence.
Qed.

Lemma chain_insert_after h p c1 b w c2 a v :
  chain h p (c1 ++ (b, w) :: c2) → h !! a = None →
  chain (<[b := mkNode w (Some (Cell a))]>
           (<[a := mkNode v (first_ptr None c2)]> h))
        p (c1 ++ (b, w) :: (a, v) :: c2).
Proof.
  intros Hc Ha.
  pose proof (chain_NoDup _ _ _ Hc) as Hnd.
  assert (∀ x, x ∈ (c1 ++ (b, w) :: c2).*1 → x ≠ a) as Hfr.
  { intros x Hx ->. destruct (chain_alive _ _ _ _ Hc Hx). congruence. }
  rewrite fmap_app, fmap_cons in Hnd, Hfr. simpl in Hnd, Hfr.
  apply NoDup_app in Hnd as (_ & Hd1 & Hnd). apply NoDup_cons in Hnd as [Hb2 _].
  assert (b ≠ a) as Hba by (apply Hfr; set_solver).
  apply lseg_app in Hc as (r & H1 & (-> & q & Hb & H2)).
  apply lseg_app. exists (Some (Cell b)). split.
  - eapply lseg_frame; [|done]. intros x Hx.
    rewrite lookup_insert_ne, lookup_insert_ne; [done| |].
    + intros <-. by apply (Hfr a); [set_solver|].
    + intros <-. apply (Hd1 b); set_solver.
  - split; [done|]. eexists. split; [apply lookup_insert_eq|].
    split; [done|]. exists q. split.
    + rewrite lookup_insert_ne by done. rewrite lookup_insert_eq.
      by rewrite (lseg_first _ _ _ _ H2).
    + eapply lseg_frame; [|done]. intros x Hx.
      rewrite lookup_insert_ne, lookup_insert_ne; [done| |].
      * intros <-. by apply (Hfr a); [set_solver|].
      * intros <-. done.
Qed.

Lemma chain_pop h a v c2 :
  chain h (Some (Cell a)) ((a, v) :: c2) →
  chain (delete a h) (first_ptr None c2) c2.
Proof.
  intros Hc. pose proof (chain_NoDup _ _ _ Hc) as Hnd.
  simpl in Hnd. apply NoDup_cons in Hnd as [Ha _].
  destruct Hc as (_ & q & Hq & Hc). rewrite <-(lseg_first _ _ _ _ Hc).
  eapply lseg_frame; [|done]. intros x Hx.
  apply lookup_delete_ne. by intros <-.
Qed.

Lemma chain_erase_after h p c1 b w a v c2 :
  chain h p (c1 ++ (b, w) :: (a, v) :: c2) →
  chain (delete a (<[b := mkNode w (first_ptr None c2)]> h))
        p (c1 ++ (b, w) :: c2).
Proof.
  intros Hc. pose proof (chain_NoDup _ _ _ Hc) as Hnd.
  rewrite fmap_app, !fmap_cons in Hnd. simpl in Hnd.
  apply NoDup_app in Hnd as (_ & Hd1 & Hnd).
  apply NoDup_cons in Hnd as [Hb2 Hnd]. apply NoDup_cons in Hnd as [Ha2 _].
  assert (b ≠ a) as Hba by set_solver.
  apply lseg_app in Hc as (r & H1 & (-> & q & Hb & (-> & q' & Ha & H2))).
  apply lseg_app. exists (Some (Cell b)). split.
  - eapply lseg_frame; [|done]. intros x Hx.
    rewrite lookup_delete_ne, lookup_insert_ne; [done| |].
    + intros <-. apply (Hd1 b); set_solver.
    + intros <-. apply (Hd1 a); set_solver.
  - split; [done|]. exists q'. split.
    + rewrite lookup_delete_ne by done. rewrite lookup_insert_eq.
      by rewrite (lseg_first _ _ _ _ H2).
    + eapply lseg_frame; [|done]. intros x Hx.
      rewrite lookup_delete_ne, lookup_insert_ne; [done| |].
      * intros <-. set_solver.
      * intros <-. done.
Qed.

(** *** [PushFront] *)

Lemma PushFront_spec s this cells v :
  is_list s this cells → can_alloc s →
  ∃ s', PushFront this v s = Ret tt s' ∧
    is_list s' this ((fresh (dom (heap s)), v) :: cells) ∧
    frame [this] [fresh (dom (heap s))] s s' ∧
    dom (heap s') = {[fresh (dom (heap s))]} ∪ dom (heap s) ∧
    budget s' = pred (budget s).
Proof.
  intros (o & Ho & Hsz & Hlt & Hc) Hcan. eexists.
  unfold PushFront. exec. rewrite new_Node_ok by done. exec.
  pose proof (fresh_heap (heap s)) as Hfresh.
  set (a := fresh (dom (heap s))) in *.
  split; [reflexivity|]. split; [|split; [|split]]; simpl.
  - eexists. split; [apply lookup_insert_eq|]. simpl.
    split; [|split; [apply mod_size_t_lt|by apply chain_push]].
    rewrite Hsz. eapply incr_no_wrap; [done|]. apply Hcan.
  - split; simpl; intros x Hx.
    + rewrite !lookup_insert_ne; [done|set_solver..].
    + rewrite lookup_insert_ne; [done|set_solver].
  - by rewrite dom_insert_L.
  - done.
Qed.

Lemma PushFront_throw s this cells v :
  is_list s this cells → ¬ can_alloc s → PushFront this v s = Throw s.
Proof.
  intros (o & Ho & _) Hcan. unfold PushFront. exec.
  by rewrite new_Node_throw.
Qed.

(** *** [InsertAfter] *)

Lemma load_last_ptr s this c1 c2 :
  is_list s this (c1 ++ c2) →
  ∃ n, load (last_ptr this c1) s = Ret n s ∧
       next_node n = first_ptr None c2.
Proof.
  intros (o & Ho & _ & _ & Hc).
  destruct (snoc_case c1) as [->|(c1' & [b w] & ->)].
  - exists (head_ o). rewrite last_ptr_nil. exec. split; [done|].
    by apply lseg_first in Hc.
  - rewrite last_ptr_snoc. rewrite <-app_assoc in Hc. simpl in Hc.
    apply chain_lookup in Hc. eexists. exec. done.
Qed.

Lemma InsertAfter_spec s this c1 c2 v :
  is_list s this (c1 ++ c2) → can_alloc s →
  ∃ s', InsertAfter this (mkIterator (last_ptr this c1)) v s
          = Ret (mkIterator (Some (Cell (fresh (dom (heap s)))))) s' ∧
    is_list s' this (c1 ++ (fresh (dom (heap s)), v) :: c2) ∧
    frame [this] (fresh (dom (heap s)) :: c1.*1) s s' ∧
    dom (heap s') = {[fresh (dom (heap s))]} ∪ dom (heap s) ∧
    budget s' = pred (budget s).
Proof.
  intros Hl Hcan. pose proof Hl as (o & Ho & Hsz & Hlt & Hc).
  pose proof (fresh_heap (heap s)) as Hfresh.
  assert (((size_ o + 1) mod size_t_modulus)%N
          = N.of_nat (length (c1 ++ (fresh (dom (heap s)), v) :: c2))) as Hsz'.
  { rewrite Hsz. erewrite incr_no_wrap; [|done|apply Hcan].
    rewrite !length_app. simpl. lia. }
  unfold InsertAfter. simpl.
  destruct (snoc_case c1) as [->|(c1' & [b w] & ->)].
  - rewrite last_ptr_nil. exec. rewrite new_Node_ok by done. exec.
    set (a := fresh (dom (heap s))) in *.
    eexists. split; [reflexivity|]. split; [|split; [|split]]; simpl.
    + eexists. split; [apply lookup_insert_eq|]. simpl.
      split; [done|]. split; [apply mod_size_t_lt|]. by apply chain_push.
    + split; simpl; intros x Hx.
      * rewrite !lookup_insert_ne; [done|set_solver..].
      * rewrite lookup_insert_ne; [done|set_solver].
    + by rewrite dom_insert_L.
    + done.
  - rewrite last_ptr_snoc. rewrite <-app_assoc in Hc, Hsz' |- *.
    simpl in Hc, Hsz' |- *.
    pose proof (chain_lookup _ _ _ _ _ _ Hc) as Hb.
    assert (fresh (dom (heap s)) ≠ b) as Hne by congruence.
    exec. rewrite new_Node_ok by done. exec.
    set (a := fresh (dom (heap s))) in *.
    eexists. split; [reflexivity|]. split; [|split; [|split]]; simpl.
    + eexists. split; [apply lookup_insert_eq|]. simpl.
      split; [done|]. split; [apply mod_size_t_lt|].
      by apply chain_insert_after.
    + split; simpl; intros x Hx.
      * rewrite lookup_insert_ne; [done|set_solver].
      * rewrite fmap_app in Hx. simpl in Hx.
        rewrite !lookup_insert_ne; [done|set_solver..].
    + rewrite !dom_insert_L.
      assert (b ∈ dom (heap s)) by (apply elem_of_dom; eauto). set_solver.
    + done.
Qed.

Lemma InsertAfter_throw s this c1 c2 v :
  is_list s this (c1 ++ c2) → ¬ can_alloc s →
  InsertAfter this (mkIterator (last_ptr this c1)) v s = Throw s.
Proof.
  intros Hl Hcan. destruct (load_last_ptr _ _ _ _ Hl) as (n & Hn & _).
  unfold InsertAfter. simpl. unfold mbind, M_bind. rewrite Hn.
  by rewrite new_Node_throw.
Qed.

(** *** [EraseAfter] and [PopFront] *)

Lemma EraseAfter_spec s this c1 a v c2 :
  is_list s this (c1 ++ (a, v) :: c2) →
  ∃ s', EraseAfter this (mkIterator (last_ptr this c1)) s
          = Ret (mkIterator (first_ptr None c2)) s' ∧
    is_list s' this (c1 ++ c2) ∧
    frame [this] (a :: c1.*1) s s' ∧
    dom (heap s') = dom (heap s) ∖ {[a]} ∧
    budget s' = budget s.
Proof.
  intros Hl. pose proof Hl as (o & Ho & Hsz & Hlt & Hc).
  assert (((size_ o + size_t_modulus - 1) mod size_t_modulus)%N
          = N.of_nat (length (c1 ++ c2))) as Hsz'.
  { rewrite Hsz in Hlt |- *. rewrite length_app in Hlt |- *. simpl in Hlt |- *.
    rewrite Nat.add_succ_r in Hlt |- *. rewrite decr_no_wrap by done.
    by rewrite length_app. }
  assert (N.of_nat (length (c1 ++ c2)) < size_t_modulus)%N as Hlt'.
  { rewrite <-Hsz'. apply mod_size_t_lt. }
  pose proof (chain_lookup _ _ _ _ _ _ Hc) as Ha.
  unfold EraseAfter. simpl.
  destruct (snoc_case c1) as [->|(c1' & [b w] & ->)].
  - rewrite last_ptr_nil. simpl in *.
    pose proof (lseg_first _ _ _ _ Hc) as Hfirst. simpl in Hfirst.
    exec. rewrite Hfirst. exec.
    eexists. split; [reflexivity|]. split; [|split; [|split]]; simpl.
    + eexists. split; [apply lookup_insert_eq|]. simpl.
      split; [done|]. split; [by rewrite Hsz'|].
      apply (chain_pop _ _ v). by rewrite <-Hfirst.
    + split; simpl; intros x Hx.
      * rewrite !lookup_insert_ne; [done|set_solver..].
      * rewrite lookup_delete_ne; [done|set_solver].
    + by rewrite dom_delete_L.
    + done.
  - rewrite last_ptr_snoc. rewrite <-app_assoc in Hc, Hsz', Hlt' |- *.
    simpl in Hc, Hsz', Hlt' |- *.
    pose proof (chain_lookup _ _ _ _ _ _ Hc) as Hb. simpl in Hb.
    pose proof (chain_NoDup _ _ _ Hc) as Hnd.
    rewrite fmap_app, !fmap_cons in Hnd. simpl in Hnd.
    apply NoDup_app in Hnd as (_ & _ & Hnd). apply NoDup_cons in Hnd as [Hba _].
    assert (b ≠ a) as Hne by set_solver.
    exec.
    eexists. split; [reflexivity|]. split; [|split; [|split]]; simpl.
    + eexists. split; [apply lookup_insert_eq|]. simpl.
      split; [done|]. split; [by rewrite Hsz'|].
      by apply (chain_erase_after _ _ _ _ _ _ v).
    + split; simpl; intros x Hx.
      * rewrite lookup_insert_ne; [done|set_solver].
      * rewrite fmap_app in Hx. simpl in Hx.
        rewrite lookup_delete_ne, lookup_insert_ne; [done|set_solver..].
    + rewrite dom_delete_L, dom_insert_L.
      assert (b ∈ dom (heap s)) by (apply elem_of_dom; eauto). set_solver.
    + done.
Qed.

End Mutators.

Section Observers.
Context {T : Type} `{Element T}.
Implicit Types (s : state T) (cells c : list (loc * T)) (this : loc).

Lemma GetSize_spec s this cells :
  is_list s this cells → GetSize this s = Ret (N.of_nat (length cells)) s.
Proof. intros (o & Ho & Hsz & _). unfold GetSize. exec. by rewrite Hsz. Qed.

Lemma is_list_lookup s this c1 a v c2 :
  is_list s this (c1 ++ (a, v) :: c2) →
  heap s !! a = Some (mkNode v (first_ptr None c2)).
Proof. intros (o & _ & _ & _ & Hc). by eapply chain_lookup. Qed.

(** Two states in which a list has the same cells hold the same nodes at
    the addresses of these cells. *)
Lemma is_list_heap_agree s s' this cells a :
  is_list s this cells → is_list s' this cells → a ∈ cells.*1 →
  heap s' !! a = heap s !! a.
Proof.
  intros Hl Hl' Ha. apply list_elem_of_fmap in Ha as ([a' v] & -> & Hin).
  apply list_elem_of_split in Hin as (l1 & l2 & ->). simpl.
  by rewrite (is_list_lookup _ _ _ _ _ _ Hl), (is_list_lookup _ _ _ _ _ _ Hl').
Qed.

Lemma iterator_deref_cell s a n :
  heap s !! a = Some n →
  iterator_deref (mkIterator (Some (Cell a))) s = Ret (value n) s.
Proof. intros Ha. unfold iterator_deref. by exec. Qed.

End Observers.

Section PositionClaims.
Context {T : Type} `{Element T}.
Implicit Types (s : state T) (cells c : list (loc * T)) (this : loc).

(** C4.  [InsertAfter(pos, value)], with [pos] at the sentinel or at a node
    of the list and room for one more node: one node is created, holding
    [value] and linked to what followed [pos]; the node of [pos] is relinked
    to it; the list reads as before with [value] put in just after [pos];
    the size grows by one; the iterator returned references the new node. *)
Theorem InsertAfter_correct s this c1 c2 v :
  is_list s this (c1 ++ c2) → can_alloc s →
  ∃ a s',
    InsertAfter this (mkIterator (last_ptr this c1)) v s
      = Ret (mkIterator (Some (Cell a))) s' ∧
    heap s !! a = None ∧
    dom (heap s') = {[a]} ∪ dom (heap s) ∧
    heap s' !! a = Some (mkNode v (first_ptr None c2)) ∧
    (∃ n, load (last_ptr this c1) s' = Ret n s' ∧
          next_node n = Some (Cell a)) ∧
    is_list s' this (c1 ++ (a, v) :: c2) ∧
    GetSize this s = Ret (N.of_nat (length (c1 ++ c2))) s ∧
    GetSize this s' = Ret (N.of_nat (length (c1 ++ c2)) + 1)%N s' ∧
    iterator_deref (mkIterator (Some (Cell a))) s' = Ret v s'.
Proof.
  intros Hl Hcan.
  destruct (InsertAfter_spec _ _ _ _ v Hl Hcan) as (s' & Hrun & Hl' & _ & Hdom & _).
  exists (fresh (dom (heap s))), s'.
  pose proof (is_list_lookup _ _ _ _ _ _ Hl') as Ha.
  split; [done|]. split; [apply fresh_heap|]. split; [done|]. split; [done|].
  split; [|split; [done|split; [|split]]].
  - apply (load_last_ptr _ _ _ ((fresh (dom (heap s)), v) :: c2) Hl').
  - by apply GetSize_spec.
  - rewrite (GetSize_spec _ _ _ Hl'). f_equal.
    rewrite !length_app. simpl. lia.
  - by rewrite (iterator_deref_cell _ _ _ Ha).
Qed.

(** C5.  [EraseAfter(pos)], with a node after the one of [pos]: exactly
    that node leaves the heap, the list reads as before without its value,
    the size drops by one, and the iterator returned references what followed
    the removed node, which is [end()] when nothing did. *)
Theorem EraseAfter_correct s this c1 a v c2 :
  is_list s this (c1 ++ (a, v) :: c2) →
  ∃ s',
    EraseAfter this (mkIterator (last_ptr this c1)) s
      = Ret (mkIterator (first_ptr None c2)) s' ∧
    dom (heap s') = dom (heap s) ∖ {[a]} ∧
    is_list s' this (c1 ++ c2) ∧
    GetSize this s = Ret (N.of_nat (length (c1 ++ c2)) + 1)%N s ∧
    GetSize this s' = Ret (N.of_nat (length (c1 ++ c2))) s' ∧
    match c2 with
    | [] => mkIterator (first_ptr None c2) = end_ this
    | (_, w) :: _ => iterator_deref (mkIterator (first_ptr None c2)) s' = Ret w s'
    end.
Proof.
  intros Hl.
  destruct (EraseAfter_spec _ _ _ _ _ _ Hl) as (s' & Hrun & Hl' & _ & Hdom & _).
  exists s'. split; [done|]. split; [done|]. split; [done|].
  split; [|split].
  - rewrite (GetSize_spec _ _ _ Hl). f_equal.
    rewrite !length_app. simpl. lia.
  - by apply GetSize_spec.
  - destruct c2 as [|[b w] c2]; [done|]. simpl.
    pose proof (is_list_lookup _ _ _ _ _ _ Hl') as Hb.
    by rewrite (iterator_deref_cell _ _ _ Hb).
Qed.

(** C10.  [InsertAfter(pos, v)] followed by [EraseAfter(pos)] gives back
    the list: the same cells, hence the same element sequence and size, and
    the same heap. *)
Theorem InsertAfter_EraseAfter_roundtrip s this c1 c2 v :
  is_list s this (c1 ++ c2) → can_alloc s →
  ∃ it s1 it' s2,
    InsertAfter this (mkIterator (last_ptr this c1)) v s = Ret it s1 ∧
    EraseAfter this (mkIterator (last_ptr this c1)) s1 = Ret it' s2 ∧
    is_list s2 this (c1 ++ c2) ∧
    GetSize this s2 = Ret (N.of_nat (length (c1 ++ c2))) s2 ∧
    GetSize this s = Ret (N.of_nat (length (c1 ++ c2))) s ∧
    heap s2 = heap s.
Proof.
  intros Hl Hcan.
  destruct (InsertAfter_spec _ _ _ _ v Hl Hcan) as (s1 & Hrun1 & Hl1 & Hfr1 & _).
  destruct (EraseAfter_spec _ _ _ _ _ _ Hl1) as (s2 & Hrun2 & Hl2 & Hfr2 & Hdom2 & _).
  do 4 eexists. split; [done|]. split; [done|]. split; [done|].
  split; [by apply GetSize_spec|]. split; [by apply GetSize_spec|].
  apply map_eq. intros x.
  destruct (decide (x ∈ (c1 ++ c2).*1)) as [Hin|Hout].
  - by apply (is_list_heap_agree _ _ this (c1 ++ c2)).
  - destruct (decide (x = fresh (dom (heap s)))) as [->|Hne].
    + rewrite fresh_heap. apply not_elem_of_dom. rewrite Hdom2. set_solver.
    + rewrite fmap_app in Hout.
      rewrite (proj2 Hfr2), (proj2 Hfr1); [done|set_solver..].
Qed.

End PositionClaims.

(** C2, as the spec words it, fails: two default-constructed iterators
    compare equal, and a default-constructed iterator compares equal to the
    end iterator of a list. *)
Lemma default_iterator_no_match_counterexample :
  ¬ (iterator_eq default_iterator default_iterator = false) ∧
  ¬ (iterator_ne default_iterator default_iterator = true) ∧
  ¬ (iterator_eq default_iterator (end_ 1%positive) = false) ∧
  ¬ (iterator_ne default_iterator (end_ 1%positive) = true).
Proof. repeat split; discriminate. Qed.

(** C2, amended.  A default-constructed iterator holds the null node
    pointer, as every end iterator does: it compares equal to another
    default-constructed iterator and to the end iterator of any list, and
    unequal to every iterator that references a node or a sentinel. *)
Theorem default_iterator_is_end (this : loc) (r : NodeRef) :
  node_ default_iterator = None ∧
  iterator_eq default_iterator default_iterator = true ∧
  iterator_ne default_iterator default_iterator = false ∧
  iterator_eq default_iterator (end_ this) = true ∧
  iterator_ne default_iterator (end_ this) = false ∧
  iterator_eq (end_ this) default_iterator = true ∧
  iterator_ne (end_ this) default_iterator = false ∧
  iterator_eq default_iterator (mkIterator (Some r)) = false ∧
  iterator_ne default_iterator (mkIterator (Some r)) = true.
Proof. repeat split. Qed.

(** ** Reading a list through its iterators *)

Section Traversal.
Context {T : Type} `{Element T}.
Implicit Types (s : state T) (cells c : list (loc * T)) (this : loc).

Lemma begin_spec s this cells :
  is_list s this cells →
  begin this s = Ret (mkIterator (first_ptr None cells)) s.
Proof.
  intros (o & Ho & _ & _ & Hc). unfold begin. exec.
  by rewrite (lseg_first _ _ _ _ Hc).
Qed.

Lemma collect_chain s p cells fuel :
  chain (heap s) p cells → length cells ≤ fuel →
  collect fuel (mkIterator p) (mkIterator None) s = Ret cells.*2 s.
Proof.
  revert p fuel. induction cells as [|[a v] rest IH]; intros p fuel Hc Hf.
  - destruct fuel; simpl in *; by rewrite Hc.
  - destruct Hc as (-> & q & Ha & Hc). simpl in Hf.
    destruct fuel as [|fuel]; [lia|]. simpl.
    unfold iterator_deref, iterator_incr. exec.
    change ((collect fuel (mkIterator q) (mkIterator None) ≫=
             (fun vs => mret (v :: vs))) s = Ret (v :: rest.*2) s).
    unfold mbind, M_bind. rewrite IH; [done..|lia].
  Qed.

Lemma iterate_spec s this cells fuel :
  is_list s this cells → length cells ≤ fuel →
  iterate fuel this s = Ret cells.*2 s.
Proof.
  intros Hl Hf. unfold iterate, mbind, M_bind. rewrite (begin_spec _ _ _ Hl).
  destruct Hl as (o & Ho & _ & _ & Hc). apply lseg_first in Hc as Hp.
  rewrite <-Hp. by apply collect_chain.
Qed.

Lemma std_equal_chain s p1 c1 p2 c2 fuel :
  chain (heap s) p1 c1 → chain (heap s) p2 c2 → length c1 ≤ fuel →
  std_equal fuel (mkIterator p1) (mkIterator None) (mkIterator p2) s
  = match equal_outcome c1.*2 c2.*2 with
    | Some b => Ret b s
    | None => Fail UndefinedBehaviour
    end.
Proof.
  revert p1 p2 c2 fuel.
  induction c1 as [|[a x] c1 IH]; intros p1 p2 c2 fuel H1 H2 Hf.
  - destruct fuel; simpl in *; by rewrite H1.
  - destruct H1 as (-> & q1 & Ha & H1). simpl in Hf.
    destruct fuel as [|fuel]; [lia|]. simpl.
    unfold iterator_deref, iterator_incr. exec.
    destruct c2 as [|[b y] c2]; simpl in *.
    + by rewrite H2.
    + destruct H2 as (-> & q2 & Hb & H2). exec.
      destruct (T_eq x y); [|done]. exec. apply IH; [done..|lia].
Qed.

Lemma std_lexicographical_compare_chain s p1 c1 p2 c2 fuel :
  chain (heap s) p1 c1 → chain (heap s) p2 c2 →
  length c1 `min` length c2 ≤ fuel →
  std_lexicographical_compare fuel (mkIterator p1) (mkIterator None)
    (mkIterator p2) (mkIterator None) s
  = Ret (lexicographic_lt c1.*2 c2.*2) s.
Proof.
  unfold chain. revert p1 p2 c2 fuel.
  induction c1 as [|[a x] c1 IH]; intros p1 p2 c2 fuel H1 H2 Hf.
  - simpl in H1. subst p1.
    destruct c2 as [|[b y] c2]; simpl in H2.
    + subst p2. by destruct fuel.
    + destruct H2 as (-> & _). by destruct fuel.
  - destruct H1 as (-> & q1 & Ha & H1).
    destruct c2 as [|[b y] c2]; simpl in H2.
    + subst p2. by destruct fuel.
    + destruct H2 as (-> & q2 & Hb & H2). simpl in Hf.
      destruct fuel as [|fuel]; [lia|]. simpl.
      unfold iterator_deref, iterator_incr. exec.
      destruct (T_lt x y); [done|]. destruct (T_lt y x); [done|]. exec.
      apply IH; [done..|lia].
Qed.

(** What [operator==] of two lists computes. *)
Lemma op_eq_spec s lhs rhs c1 c2 fuel :
  is_list s lhs c1 → is_list s rhs c2 → length c1 ≤ fuel →
  op_eq fuel lhs rhs s
  = match equal_outcome c1.*2 c2.*2 with
    | Some b => Ret b s
    | None => Fail UndefinedBehaviour
    end.
Proof.
  intros H1 H2 Hf. unfold op_eq, mbind, M_bind.
  rewrite (begin_spec _ _ _ H1), (begin_spec _ _ _ H2).
  destruct H1 as (o1 & _ & _ & _ & H1), H2 as (o2 & _ & _ & _ & H2).
  apply lseg_first in H1 as Hp1. apply lseg_first in H2 as Hp2.
  rewrite <-Hp1, <-Hp2. by apply std_equal_chain.
Qed.

Lemma op_lt_spec s lhs rhs c1 c2 fuel :
  is_list s lhs c1 → is_list s rhs c2 →
  length c1 `min` length c2 ≤ fuel →
  op_lt fuel lhs rhs s = Ret (lexicographic_lt c1.*2 c2.*2) s.
Proof.
  intros H1 H2 Hf. unfold op_lt, mbind, M_bind.
  rewrite (begin_spec _ _ _ H1), (begin_spec _ _ _ H2).
  destruct H1 as (o1 & _ & _ & _ & H1), H2 as (o2 & _ & _ & _ & H2).
  apply lseg_first in H1 as Hp1. apply lseg_first in H2 as Hp2.
  rewrite <-Hp1, <-Hp2. by apply std_lexicographical_compare_chain.
Qed.

Lemma can_alloc_n_step n s s' a :
  can_alloc_n (S n) s → heap s !! a = None →
  dom (heap s') = {[a]} ∪ dom (heap s) → budget s' = pred (budget s) →
  can_alloc_n n s'.
Proof.
  intros [Hb Hcap] Ha Hdom Hb'. split; [lia|].
  rewrite <-size_dom, Hdom, size_union, size_singleton, size_dom; [lia|].
  apply not_elem_of_dom in Ha. set_solver.
Qed.

Lemma can_alloc_n_first n s : can_alloc_n (S n) s → can_alloc s.
Proof.
  intros [Hb Hcap]. split; lia.
Qed.

Lemma PushFront_all_spec s this cells vs :
  is_list s this cells → can_alloc_n (length vs) s →
  ∃ new s', PushFront_all this vs s = Ret tt s' ∧
    new.*2 = rev vs ∧ is_list s' this (new ++ cells).
Proof.
  revert s cells. induction vs as [|v vs IH]; intros s cells Hl Hcan.
  - by exists [], s.
  - simpl in Hcan. pose proof (can_alloc_n_first _ _ Hcan) as Hcan1.
    destruct (PushFront_spec _ _ _ v Hl Hcan1) as (s1 & Hrun & Hl1 & _ & Hdom & Hb).
    assert (can_alloc_n (length vs) s1) as Hcan'.
    { eapply can_alloc_n_step; eauto using fresh_heap. }
    destruct (IH _ _ Hl1 Hcan') as (new & s' & Hrun' & Hnew & Hl').
    exists (new ++ [(fresh (dom (heap s)), v)]), s'. split; [|split].
    + simpl. unfold mbind, M_bind. by rewrite Hrun.
    + rewrite fmap_app, Hnew. done.
    + by rewrite <-app_assoc.
Qed.

End Traversal.

Section ValueClaims.
Context {T : Type} `{Element T}.
Implicit Types (s : state T) (cells c : list (loc * T)) (this : loc).

(** C8.  Pushing [v1..vn], in that order, onto the front of an empty list
    while [new] succeeds: reading the list front to back gives [vn..v1], and
    [GetSize()] gives [n]. *)
Theorem PushFront_reverses s this vs :
  is_list s this [] → can_alloc_n (length vs) s →
  ∃ s', PushFront_all this vs s = Ret tt s' ∧
    (∀ fuel, length vs ≤ fuel → iterate fuel this s' = Ret (rev vs) s') ∧
    GetSize this s' = Ret (N.of_nat (length vs)) s'.
Proof.
  intros Hl Hcan.
  destruct (PushFront_all_spec _ _ _ vs Hl Hcan) as (new & s' & Hrun & Hnew & Hl').
  rewrite app_nil_r in Hl'.
  assert (length new = length vs) as Hlen.
  { by rewrite <-(length_fmap snd new), Hnew, length_rev. }
  exists s'. split; [done|]. split.
  - intros fuel Hf. rewrite <-Hnew. apply iterate_spec; [done|lia].
  - rewrite <-Hlen. by apply GetSize_spec.
Qed.

(** C9.  [operator<] is the lexicographic order of the two element
    sequences under the element type's [operator<]; [<=], [>] and [>=] are
    [!(rhs < lhs)], [rhs < lhs] and [!(lhs < rhs)]. *)
Theorem ordering_operators_lexicographic s lhs rhs c1 c2 fuel :
  is_list s lhs c1 → is_list s rhs c2 →
  length c1 `min` length c2 ≤ fuel →
  op_lt fuel lhs rhs s = Ret (lexicographic_lt c1.*2 c2.*2) s ∧
  op_le fuel lhs rhs s = Ret (negb (lexicographic_lt c2.*2 c1.*2)) s ∧
  op_gt fuel lhs rhs s = Ret (lexicographic_lt c2.*2 c1.*2) s ∧
  op_ge fuel lhs rhs s = Ret (negb (lexicographic_lt c1.*2 c2.*2)) s.
Proof.
  intros H1 H2 Hf.
  assert (length c2 `min` length c1 ≤ fuel) as Hf' by lia.
  pose proof (op_lt_spec _ _ _ _ _ _ H1 H2 Hf) as Hlt.
  pose proof (op_lt_spec _ _ _ _ _ _ H2 H1 Hf') as Hgt.
  unfold op_ge, op_gt, op_le, mbind, M_bind. rewrite Hlt, Hgt. done.
Qed.

End ValueClaims.

(** ** Whole-list operations *)

Section WholeList.
Context {T : Type} `{Element T}.
Implicit Types (s : state T) (cells c new : list (loc * T)) (this : loc)
               (L X : list loc).

Lemma agree_refl L X s : agree L X s s.
Proof. by split. Qed.

Lemma agree_frame L X L' A s0 s s' :
  agree L X s0 s → frame L' A s s' →
  (∀ l, l ∈ L → l ∉ L') → (∀ a, a ∈ X → a ∉ A) →
  agree L X s0 s'.
Proof.
  intros [Hl Ha] [Hl' Ha'] HL HX. split.
  - intros l Hin. rewrite Hl', Hl; auto.
  - intros a Hin. rewrite Ha', Ha; auto.
Qed.

(** *** [Clear] *)

Lemma Clear_loop_spec s this o cells fuel :
  lists s !! this = Some o →
  chain (heap s) (next_node (head_ o)) cells →
  length cells ≤ fuel →
  ∃ s', Clear_loop fuel this s = Ret tt s' ∧
    (∃ hd, lists s' !! this = Some (mkList hd (size_ o)) ∧ next_node hd = None) ∧
    frame [this] cells.*1 s s' ∧
    (∀ a, a ∈ cells.*1 → heap s' !! a = None) ∧
    budget s' = budget s.
Proof.
  revert s o fuel. induction cells as [|[a v] rest IH]; intros s o fuel Ho Hc Hf.
  - exists s. unfold chain in Hc. simpl in Hc.
    split; [|split; [|split; [|split]]].
    + destruct fuel; simpl; exec; by rewrite Hc.
    + exists (head_ o). by destruct o.
    + apply frame_refl.
    + intros a Ha. by apply elem_of_nil in Ha.
    + done.
  - simpl in Hf. destruct fuel as [|fuel]; [lia|].
    pose proof (chain_NoDup _ _ _ Hc) as Hnd. simpl in Hnd.
    apply NoDup_cons in Hnd as [Hna _].
    pose proof (lseg_first _ _ _ _ Hc) as Hp. simpl in Hp.
    rewrite Hp in Hc. pose proof (chain_pop _ _ _ _ Hc) as Hrest.
    destruct Hc as (_ & q & Ha & Hc).
    pose proof (lseg_first _ _ _ _ Hc) as Hq.
    set (s1 := mkState
                 (<[this := mkList (mkNode (value (head_ o)) q) (size_ o)]> (lists s))
                 (delete a (heap s)) (budget s)).
    destruct (IH s1 (mkList (mkNode (value (head_ o)) q) (size_ o)) fuel)
      as (s' & Hrun & (hd & Hhd & Hnull) & [Hfl Hfa] & Hdel & Hb).
    { apply lookup_insert_eq. }
    { simpl. by rewrite Hq. }
    { lia. }
    simpl in Hrun, Hhd, Hfl, Hfa, Hb.
    exists s'. split; [|split; [|split; [|split]]].
    + simpl. exec. rewrite Hp. exec. exact Hrun.
    + by exists hd.
    + split.
      * intros l Hl. rewrite Hfl by done. simpl.
        rewrite lookup_insert_ne; [done|set_solver].
      * intros x Hx. simpl in Hx. rewrite Hfa by set_solver. simpl.
        rewrite lookup_delete_ne; [done|set_solver].
    + intros x Hx. simpl in Hx. apply elem_of_cons in Hx as [->|Hx]; [|auto].
      rewrite Hfa by done. apply lookup_delete_eq.
    + done.
Qed.

Lemma Clear_spec s this cells fuel :
  is_list s this cells → length cells ≤ fuel →
  ∃ s', Clear fuel this s = Ret tt s' ∧
    is_list s' this [] ∧
    frame [this] cells.*1 s s' ∧
    (∀ a, a ∈ cells.*1 → heap s' !! a = None) ∧
    budget s' = budget s.
Proof.
  intros (o & Ho & _ & _ & Hc) Hf.
  destruct (Clear_loop_spec _ _ _ _ _ Ho Hc Hf)
    as (s1 & Hrun & (hd & Hhd & Hnull) & [Hfl Hfa] & Hdel & Hb).
  eexists. split; [|split; [|split; [|split]]].
  - unfold Clear, mbind, M_bind. rewrite Hrun. exec. reflexivity.
  - eexists. simpl. split; [apply lookup_insert_eq|]. simpl.
    split; [done|]. split; [done|]. by rewrite Hnull.
  - split; simpl.
    + intros l Hl. rewrite lookup_insert_ne by set_solver. auto.
    + done.
  - done.
  - done.
Qed.

(** *** [swap] *)

Lemma swap_spec s this other c1 c2 :
  is_list s this c1 → is_list s other c2 →
  ∃ s', swap this other s = Ret tt s' ∧
    is_list s' this c2 ∧ is_list s' other c1 ∧
    frame [this; other] [] s s' ∧
    heap s' = heap s ∧ budget s' = budget s.
Proof.
  intros H1 H2.
  destruct (decide (this = other)) as [<-|Hne].
  - rewrite (is_list_det _ _ _ _ H2 H1) in *. clear H2.
    destruct H1 as (o & Ho & Hsz & Hlt & Hc).
    eexists. split; [|split; [|split; [|split]]].
    + unfold swap. exec. reflexivity.
    + eexists. split; [apply lookup_insert_eq|]. done.
    + eexists. split; [apply lookup_insert_eq|]. done.
    + split; simpl; [|done]. intros l Hl.
      rewrite !lookup_insert_ne; [done|set_solver..].
    + done.
  - destruct H1 as (o1 & Ho1 & Hsz1 & Hlt1 & Hc1).
    destruct H2 as (o2 & Ho2 & Hsz2 & Hlt2 & Hc2).
    eexists. split; [|split; [|split; [|split]]].
    + unfold swap. exec. reflexivity.
    + eexists. simpl. rewrite !lookup_insert_ne by done.
      split; [apply lookup_insert_eq|]. done.
    + eexists. split; [apply lookup_insert_eq|]. done.
    + split; simpl; [|done]. intros l Hl.
      rewrite !lookup_insert_ne; [done|set_solver..].
    + done.
Qed.

End WholeList.

Section Control.
Context {T : Type}.

Lemma bind_Ret {A B} (m : M T A) (k : A → M T B) s a s' :
  m s = Ret a s' → (m ≫= k) s = k a s'.
Proof. intros Hm. unfold mbind, M_bind. by rewrite Hm. Qed.

Lemma bind_Throw {A B} (m : M T A) (k : A → M T B) s s' :
  m s = Throw s' → (m ≫= k) s = Throw s'.
Proof. intros Hm. unfold mbind, M_bind. by rewrite Hm. Qed.

Lemma finally_Ret {A} (body : M T A) cleanup s a s1 s2 :
  body s = Ret a s1 → cleanup s1 = Ret tt s2 →
  finally body cleanup s = Ret a s2.
Proof. intros Hb Hc. unfold finally. by rewrite Hb, Hc. Qed.

Lemma finally_Throw {A} (body : M T A) cleanup s s1 s2 :
  body s = Throw s1 → cleanup s1 = Ret tt s2 →
  finally body cleanup s = Throw s2.
Proof. intros Hb Hc. unfold finally. by rewrite Hb, Hc. Qed.

Lemma on_throw_Ret {A} (body : M T A) cleanup s a s1 :
  body s = Ret a s1 → on_throw body cleanup s = Ret a s1.
Proof. intros Hb. unfold on_throw. by rewrite Hb. Qed.

Lemma on_throw_Throw {A} (body : M T A) cleanup s s1 s2 :
  body s = Throw s1 → cleanup s1 = Ret tt s2 →
  on_throw body cleanup s = Throw s2.
Proof. intros Hb Hc. unfold on_throw. by rewrite Hb, Hc. Qed.

End Control.

Section Ranges.
Context {T : Type} `{Element T} {It : Type} `{!InputIterator T It}.
Implicit Types (s : state T) (cells c new : list (loc * T)) (this : loc)
               (L X : list loc).

Lemma can_alloc_n_after n s s' a :
  can_alloc s → heap s !! a = None →
  dom (heap s') = {[a]} ∪ dom (heap s) → budget s' = pred (budget s) →
  can_alloc_n n s' ↔ can_alloc_n (S n) s.
Proof.
  intros [Hb Hcap] Ha Hdom Hb'. unfold can_alloc_n.
  rewrite <-(size_dom (heap s')), Hdom, size_union, size_singleton, size_dom.
  - lia.
  - apply not_elem_of_dom in Ha. set_solver.
Qed.

(** One turn of the loop of [Create] does what [InsertAfter] does at the
    last position. *)
Lemma Create_step_eq {A} s this cells v (K : NodePtr → M T A) :
  is_list s this cells →
  (n ← new_Node v None;
   store_next (last_ptr this cells) n;;
   p ← load (last_ptr this cells);
   incr_size this;;
   K (next_node p)) s
  = (it ← InsertAfter this (mkIterator (last_ptr this cells)) v;
     K (node_ it)) s.
Proof.
  intros (o & Ho & _ & _ & Hc).
  destruct (decide (can_alloc s)) as [Hcan|Hcan].
  - destruct (snoc_case cells) as [->|(c' & [b w] & ->)].
    + unfold chain in Hc. simpl in Hc. rewrite last_ptr_nil.
      unfold InsertAfter. exec. rewrite Hc.
      rewrite !new_Node_ok by done. exec. done.
    + rewrite last_ptr_snoc. apply chain_lookup in Hc. simpl in Hc.
      assert (fresh (dom (heap s)) ≠ b) as Hne.
      { intros Heq. pose proof (fresh_heap (heap s)). congruence. }
      unfold InsertAfter. exec.
      rewrite !new_Node_ok by done. exec. done.
  - destruct (snoc_case cells) as [->|(c' & [b w] & ->)].
    + rewrite last_ptr_nil. unfold InsertAfter. exec.
      by rewrite !new_Node_throw.
    + rewrite last_ptr_snoc. apply chain_lookup in Hc.
      unfold InsertAfter. exec. by rewrite !new_Node_throw.
Qed.

Lemma Create_loop_spec L X s0 fuel this first last vs s cells :
  is_list s this cells →
  yields (agree L X s0) first last vs →
  agree L X s0 s →
  this ∉ L →
  (∀ a, a ∈ X → is_Some (heap s0 !! a)) →
  (∀ a, a ∈ X → a ∉ cells.*1) →
  length vs ≤ fuel →
  ∃ new s',
    is_list s' this (cells ++ new) ∧
    (∀ a, a ∈ new.*1 → heap s !! a = None) ∧
    frame [this] (cells.*1 ++ new.*1) s s' ∧
    agree L X s0 s' ∧
    ((can_alloc_n (length vs) s ∧
      Create_loop fuel this (last_ptr this cells) first last s = Ret tt s' ∧
      new.*2 = vs ∧ budget s' = budget s - length vs)
     ∨
     (¬ can_alloc_n (length vs) s ∧
      Create_loop fuel this (last_ptr this cells) first last s = Throw s' ∧
      length new < length vs ∧ new.*2 = take (length new) vs)).
Proof.
  revert fuel first s cells.
  induction vs as [|v vs IH]; intros fuel first s cells Hl Hy Hok Hthis HX Hdisj Hf.
  - exists [], s. rewrite app_nil_r. split; [done|]. split.
    { intros a Ha. by apply elem_of_nil in Ha. }
    split; [apply frame_refl|]. split; [done|]. left.
    split; [split; simpl; lia|]. simpl in Hy.
    split; [|split; [done|simpl; lia]].
    destruct fuel; simpl; by rewrite Hy.
  - destruct Hy as (Hne & Hderef & first' & Hincr & Hy).
    simpl in Hf. destruct fuel as [|fuel]; [lia|].
    assert (Create_loop (S fuel) this (last_ptr this cells) first last s
            = (it ← InsertAfter this (mkIterator (last_ptr this cells)) v;
               first'' ← iter_incr first;
               Create_loop fuel this (node_ it) first'' last) s) as Hstep.
    { simpl. rewrite Hne. erewrite bind_Ret by by apply Hderef.
      exact (Create_step_eq s this cells v
               (fun q => first'' ← iter_incr first;
                         Create_loop fuel this q first'' last) Hl). }
    rewrite Hstep. clear Hstep.
    destruct (decide (can_alloc s)) as [Hcan|Hcan].
    + assert (is_list s this (cells ++ [])) as Hl0 by by rewrite app_nil_r.
      destruct (InsertAfter_spec _ _ _ _ v Hl0 Hcan)
        as (s1 & Hrun & Hl1 & Hfr1 & Hdom1 & Hb1).
      pose proof (fresh_heap (heap s)) as Hfresh.
      set (a := fresh (dom (heap s))) in *.
      assert (∀ x, x ∈ X → x ≠ a) as HXa.
      { intros x Hx ->. destruct (HX _ Hx) as [n Hn].
        rewrite <-(proj2 Hok a Hx) in Hn. congruence. }
      assert (agree L X s0 s1) as Hok1.
      { eapply agree_frame; [done..| |].
        - intros l Hin. set_solver.
        - intros x Hx Hin. apply elem_of_cons in Hin as [->|Hin].
          + by apply (HXa a).
          + by apply (Hdisj x). }
      erewrite bind_Ret by done. simpl.
      erewrite bind_Ret by by apply Hincr.
      rewrite <-(last_ptr_snoc this cells a v).
      destruct (IH fuel first' s1 (cells ++ [(a, v)]))
        as (new & s' & Hl' & Hfresh' & Hfr' & Hok' & Hcase);
        [done..| |lia|].
      { intros x Hx. rewrite fmap_app. simpl. intros Hin.
        apply elem_of_app in Hin as [Hin|Hin]; [by apply (Hdisj x)|].
        apply list_elem_of_singleton in Hin. by apply (HXa x). }
      exists ((a, v) :: new), s'.
      rewrite <-app_assoc in Hl'. simpl in Hl'.
      rewrite fmap_app in Hfr'. simpl in Hfr'.
      split; [done|]. split.
      { intros x Hx. simpl in Hx. apply elem_of_cons in Hx as [->|Hx]; [done|].
        apply Hfresh' in Hx. apply not_elem_of_dom.
        apply not_elem_of_dom in Hx. rewrite Hdom1 in Hx. set_solver. }
      split.
      { eapply frame_trans.
        - eapply frame_weaken; [| |exact Hfr1]; set_solver.
        - eapply frame_weaken; [| |exact Hfr']; set_solver. }
      split; [done|].
      pose proof (can_alloc_n_after (length vs) s s1 a Hcan Hfresh Hdom1 Hb1)
        as Hiff.
      destruct Hcase as [(Hn & Hrun' & Hvs & Hb')|(Hn & Hrun' & Hlen & Hpre)].
      * left. split; [by apply Hiff|]. split; [done|].
        split; [by rewrite fmap_cons, Hvs|]. simpl. lia.
      * right. split; [by rewrite <-Hiff|]. split; [done|].
        split; [simpl; lia|]. rewrite fmap_cons. simpl. by f_equal.
    + exists [], s. rewrite app_nil_r. split; [done|]. split.
      { intros a Ha. by apply elem_of_nil in Ha. }
      split; [apply frame_refl|]. split; [done|]. right.
      split; [|split; [|split; [simpl; lia|done]]].
      * intros Hn. by apply Hcan, (can_alloc_n_first (length vs)).
      * apply bind_Throw. apply (InsertAfter_throw _ _ _ []); [|done].
        by rewrite app_nil_r.
Qed.

End Ranges.

Section Construction.
Context {T : Type} `{Element T}.
Implicit Types (s : state T) (cells c new : list (loc * T)) (this : loc)
               (L X : list loc).

Lemma yields_array (ok : state T → Prop) (arr : list T) (i : nat) :
  i ≤ length arr →
  yields ok (mkArrayPtr arr i) (array_end arr) (drop i arr).
Proof.
  remember (length arr - i) as n eqn:Hn. revert i Hn.
  induction n as [|n IH]; intros i Hn Hi.
  - assert (i = length arr) as -> by lia. rewrite drop_all. simpl.
    by apply bool_decide_eq_false_2; intros [].
  - destruct (lookup_lt_is_Some_2 arr i) as [v Hv]; [lia|].
    rewrite (drop_S _ _ _ Hv). simpl. split; [|split].
    + apply bool_decide_eq_true_2. lia.
    + intros s _. unfold array_deref. simpl. by rewrite Hv.
    + exists (mkArrayPtr arr (S i)). split; [done|]. apply IH; lia.
Qed.

Lemma yields_chain L X s0 p cells :
  chain (heap s0) p cells → (∀ a, a ∈ cells.*1 → a ∈ X) →
  yields (agree L X s0) (mkIterator p) (mkIterator None) cells.*2.
Proof.
  unfold chain. revert p. induction cells as [|[a v] rest IH]; intros p Hc HX.
  - simpl in *. subst p. done.
  - destruct Hc as (-> & q & Ha & Hc). simpl. split; [done|]. split.
    + intros s [_ Hs]. unfold iterator_deref. exec.
      rewrite Hs, Ha by set_solver. done.
    + exists (mkIterator q). split.
      * intros s [_ Hs]. unfold iterator_incr. exec.
        rewrite Hs, Ha by set_solver. done.
      * apply IH; [done|]. intros x Hx. apply HX. set_solver.
Qed.

Lemma load_head s this o :
  lists s !! this = Some o → load (head_ref this) s = Ret (head_ o) s.
Proof. intros Ho. by exec. Qed.

Lemma get_size_ok s this o :
  lists s !! this = Some o → get_size this s = Ret (size_ o) s.
Proof. intros Ho. by exec. Qed.

(** *** Storage of list objects *)

Lemma alloc_list_spec s :
  ∃ s', alloc_list s = Ret (fresh (dom (lists s))) s' ∧
    lists s !! fresh (dom (lists s)) = None ∧
    lists s' !! fresh (dom (lists s)) = Some (mkList (mkNode T_default None) 0%N) ∧
    is_list s' (fresh (dom (lists s))) [] ∧
    frame [fresh (dom (lists s))] [] s s' ∧
    heap s' = heap s ∧ budget s' = budget s.
Proof.
  eexists. split; [reflexivity|]. split; [apply fresh_lists|]. simpl.
  split; [apply lookup_insert_eq|]. split; [|split; [|done]].
  - eexists. simpl. split; [apply lookup_insert_eq|]. done.
  - split; simpl; [|done]. intros l Hl.
    rewrite lookup_insert_ne; [done|set_solver].
Qed.

Lemma destroy_spec s this cells fuel :
  is_list s this cells → length cells ≤ fuel →
  ∃ s', destroy fuel this s = Ret tt s' ∧
    lists s' !! this = None ∧
    frame [this] cells.*1 s s' ∧
    (∀ a, a ∈ cells.*1 → heap s' !! a = None) ∧
    budget s' = budget s.
Proof.
  intros Hl Hf.
  destruct (Clear_spec _ _ _ _ Hl Hf) as (s1 & Hrun & Hl1 & [Hfl Hfa] & Hdel & Hb).
  destruct Hl1 as (o & Ho & _).
  eexists. split; [|split; [|split; [|split]]].
  - unfold destroy. erewrite bind_Ret by done.
    unfold dealloc_list. rewrite Ho. reflexivity.
  - simpl. apply lookup_delete_eq.
  - split; simpl; [|done]. intros l Hnl.
    rewrite lookup_delete_ne by set_solver. auto.
  - done.
  - done.
Qed.

Lemma frame_is_Some_lists L A s s' l :
  frame L A s s' → l ∉ L → is_Some (lists s !! l) → is_Some (lists s' !! l).
Proof. intros [Hl _] Hn. by rewrite Hl. Qed.

(** *** The converting constructors *)

Lemma construct_from_spec {It} `{!InputIterator T It} L X s fuel
    (range : M T (It * It)) first last vs :
  (∀ s', agree L X s s' → range s' = Ret (first, last) s') →
  yields (agree L X s) first last vs →
  (∀ l, l ∈ L → is_Some (lists s !! l)) →
  (∀ a, a ∈ X → is_Some (heap s !! a)) →
  length vs ≤ fuel →
  (can_alloc_n (length vs) s ∧
   ∃ new s',
     construct_from fuel range s = Ret (fresh (dom (lists s))) s' ∧
     is_list s' (fresh (dom (lists s))) new ∧ new.*2 = vs ∧
     (∀ a, a ∈ new.*1 → heap s !! a = None) ∧
     frame [fresh (dom (lists s))] new.*1 s s' ∧
     budget s' = budget s - length vs)
  ∨
  (¬ can_alloc_n (length vs) s ∧
   ∃ s', construct_from fuel range s = Throw s' ∧
     lists s' = lists s ∧ heap s' = heap s).
Proof.
  intros Hrange Hy HL HX Hf.
  destruct (alloc_list_spec s) as (s1 & Hrun1 & Hnone1 & Ho1 & Hl1 & Hfr1 & Hh1 & Hb1).
  set (this := fresh (dom (lists s))) in *.
  destruct (alloc_list_spec s1) as (s2 & Hrun2 & Hnone2 & Ho2 & Hl2 & Hfr2 & Hh2 & Hb2).
  set (tmp := fresh (dom (lists s1))) in *.
  assert (tmp ≠ this) as Hne by (intros Heq; rewrite Heq in Hnone2; congruence).
  assert (∀ l, l ∈ L → l ≠ this ∧ l ≠ tmp) as HLfresh.
  { intros l Hl. destruct (HL l Hl) as [o Ho]. split; intros ->; [congruence|].
    rewrite <-(proj1 Hfr1 tmp) in Ho by set_solver. congruence. }
  assert (frame [this; tmp] [] s s2) as Hfr02.
  { eapply frame_trans; eapply frame_weaken; [| |exact Hfr1| | |exact Hfr2];
      set_solver. }
  assert (agree L X s s2) as Hok2.
  { eapply agree_frame; [apply agree_refl|exact Hfr02| |].
    - intros l Hl. destruct (HLfresh l Hl). set_solver.
    - intros a _. set_solver. }
  assert (is_list s2 this []) as Hthis2.
  { eapply is_list_frame; [exact Hfr2| | |exact Hl1]; set_solver. }
  destruct (Create_loop_spec L X s fuel tmp first last vs s2 [])
    as (new & s3 & Hl3 & Hfresh3 & Hfr3 & _ & Hcase); try done.
  { intros Hin. destruct (HLfresh tmp Hin). done. }
  { intros a _. set_solver. }
  simpl in Hl3, Hfr3.
  assert (is_list s3 this []) as Hthis3.
  { eapply is_list_frame; [exact Hfr3| | |exact Hthis2]; set_solver. }
  assert (construct_from fuel range s
          = (on_throw
               (finally (Create fuel tmp first last;; swap this tmp)
                        (destroy fuel tmp))
               (dealloc_list this);; mret this) s2) as Hstart.
  { unfold construct_from. erewrite bind_Ret by exact Hrun1.
    unfold mbind at 1, M_bind at 1, on_throw.
    erewrite bind_Ret by by apply load_head.
    erewrite bind_Ret by by apply get_size_ok. simpl.
    unfold with_local. erewrite bind_Ret by reflexivity.
    erewrite bind_Ret by exact Hrun2.
    unfold finally at 1. erewrite bind_Ret by by apply Hrange.
    simpl. reflexivity. }
  assert (can_alloc_n (length vs) s ↔ can_alloc_n (length vs) s2) as Hcan.
  { unfold can_alloc_n. by rewrite Hb2, Hb1, Hh2, Hh1. }
  rewrite Hstart. clear Hstart.
  destruct Hcase as [(Hn & Hrun3 & Hvs & Hb3)|(Hn & Hrun3 & Hlen & _)].
  - left. split; [by apply Hcan|].
    destruct (swap_spec _ _ _ _ _ Hthis3 Hl3)
      as (s4 & Hrun4 & Hthis4 & Htmp4 & Hfr4 & Hh4 & Hb4).
    destruct (destroy_spec _ _ _ fuel Htmp4) as (s5 & Hrun5 & Hnone5 & Hfr5 & _ & Hb5);
      [simpl; lia|].
    exists new, s5. split; [|split; [|split; [|split; [|split]]]].
    + erewrite bind_Ret; [reflexivity|]. apply on_throw_Ret.
      eapply finally_Ret; [|exact Hrun5].
      erewrite bind_Ret by exact Hrun3. exact Hrun4.
    + eapply is_list_frame; [exact Hfr5| | |exact Hthis4]; set_solver.
    + done.
    + intros a Ha. rewrite <-Hh1, <-Hh2. by apply Hfresh3.
    + split.
      * intros l Hl. destruct (decide (l = tmp)) as [->|Hlt].
        -- rewrite Hnone5. rewrite <-(proj1 Hfr1 tmp) by set_solver. done.
        -- rewrite (proj1 Hfr5), (proj1 Hfr4), (proj1 Hfr3), (proj1 Hfr02);
             [done|set_solver..].
      * intros a Ha.
        rewrite (proj2 Hfr5), Hh4, (proj2 Hfr3), (proj2 Hfr02);
          [done|set_solver..].
    + rewrite Hb5, Hb4, Hb3, Hb2, Hb1. done.
  - right. split; [by rewrite Hcan|].
    destruct (destroy_spec _ _ _ fuel Hl3) as (s4 & Hrun4 & Hnone4 & Hfr4 & Hdel4 & Hb4);
      [lia|].
    assert (is_Some (lists s4 !! this)) as [o4 Ho4].
    { rewrite (proj1 Hfr4), (proj1 Hfr3), (proj1 Hfr2) by set_solver. eauto. }
    eexists. split; [|split].
    + erewrite bind_Throw; [reflexivity|].
      eapply on_throw_Throw.
      * eapply finally_Throw; [|exact Hrun4].
        erewrite bind_Throw by exact Hrun3. done.
      * unfold dealloc_list. rewrite Ho4. reflexivity.
    + simpl. apply map_eq. intros l.
      destruct (decide (l = this)) as [->|Hlthis].
      { by rewrite lookup_delete_eq. }
      rewrite lookup_delete_ne by done.
      destruct (decide (l = tmp)) as [->|Hlt].
      { rewrite Hnone4. rewrite <-(proj1 Hfr1 tmp) by set_solver. done. }
      rewrite (proj1 Hfr4), (proj1 Hfr3), (proj1 Hfr02); [done|set_solver..].
    + simpl. apply map_eq. intros a.
      destruct (decide (a ∈ new.*1)) as [Hin|Hout].
      * rewrite Hdel4 by done. rewrite <-Hh1, <-Hh2. symmetry. by apply Hfresh3.
      * rewrite (proj2 Hfr4), (proj2 Hfr3), (proj2 Hfr02); [done|set_solver..].
Qed.

End Construction.

Section Copying.
Context {T : Type} `{Element T}.
Implicit Types (s : state T) (cells c new : list (loc * T)) (this : loc)
               (L X : list loc).

Lemma construct_values_spec s fuel (vs : list T) :
  length vs ≤ fuel →
  (can_alloc_n (length vs) s ∧
   ∃ new s',
     construct_values fuel vs s = Ret (fresh (dom (lists s))) s' ∧
     is_list s' (fresh (dom (lists s))) new ∧ new.*2 = vs ∧
     (∀ a, a ∈ new.*1 → heap s !! a = None) ∧
     frame [fresh (dom (lists s))] new.*1 s s' ∧
     budget s' = budget s - length vs)
  ∨
  (¬ can_alloc_n (length vs) s ∧
   ∃ s', construct_values fuel vs s = Throw s' ∧
     lists s' = lists s ∧ heap s' = heap s).
Proof.
  intros Hf. unfold construct_values.
  apply (construct_from_spec [] [] s fuel _ (array_begin vs) (array_end vs) vs);
    try done.
  - apply (yields_array _ vs 0). lia.
  - intros l Hl. by apply elem_of_nil in Hl.
  - intros a Ha. by apply elem_of_nil in Ha.
Qed.

Lemma construct_copy_spec s fuel other cells :
  is_list s other cells → length cells ≤ fuel →
  (can_alloc_n (length cells) s ∧
   ∃ new s',
     construct_copy fuel other s = Ret (fresh (dom (lists s))) s' ∧
     is_list s' (fresh (dom (lists s))) new ∧ new.*2 = cells.*2 ∧
     (∀ a, a ∈ new.*1 → heap s !! a = None) ∧
     frame [fresh (dom (lists s))] new.*1 s s' ∧
     budget s' = budget s - length cells)
  ∨
  (¬ can_alloc_n (length cells) s ∧
   ∃ s', construct_copy fuel other s = Throw s' ∧
     lists s' = lists s ∧ heap s' = heap s).
Proof.
  intros Hl Hf. pose proof Hl as (o & Ho & _ & _ & Hc).
  rewrite <-(length_fmap snd cells). unfold construct_copy.
  apply (construct_from_spec [other] cells.*1 s fuel _
           (mkIterator (next_node (head_ o))) (mkIterator None) cells.*2).
  - intros s' [Hs' _].
    erewrite bind_Ret; [reflexivity|]. unfold begin.
    erewrite bind_Ret; [reflexivity|]. apply load_head.
    rewrite Hs' by set_solver. done.
  - by apply yields_chain.
  - intros l Hin. apply list_elem_of_singleton in Hin as ->. eauto.
  - intros a Ha. by eapply is_list_alive.
  - by rewrite length_fmap.
Qed.

(** *** Copy assignment *)

Lemma assign_spec s fuel this rhs ct cr :
  is_list s this ct → is_list s rhs cr →
  length ct ≤ fuel → length cr ≤ fuel →
  (can_alloc_n (length cr) s ∧
   ∃ new s',
     assign fuel this rhs s = Ret this s' ∧
     is_list s' this new ∧ new.*2 = cr.*2 ∧
     (∀ a, a ∈ new.*1 → heap s !! a = None) ∧
     frame [this] (ct.*1 ++ new.*1) s s' ∧
     (∀ a, a ∈ ct.*1 → heap s' !! a = None) ∧
     budget s' = budget s - length cr)
  ∨
  (¬ can_alloc_n (length cr) s ∧
   ∃ s', assign fuel this rhs s = Throw s' ∧
     lists s' = lists s ∧ heap s' = heap s).
Proof.
  intros Ht Hr Hft Hfr.
  destruct (construct_copy_spec s fuel rhs cr Hr Hfr)
    as [(Hcan & new & s1 & Hrun1 & Hcopy1 & Hvs & Hfresh & Hfr1 & Hb1)
       |(Hcan & s1 & Hrun1 & Hls & Hhs)].
  - left. split; [done|].
    pose proof (fresh_lists (lists s)) as Hnone.
    set (copy := fresh (dom (lists s))) in *.
    assert (this ≠ copy) as Hne.
    { intros ->. destruct Ht as (o & Ho & _). congruence. }
    assert (∀ a, a ∈ ct.*1 → a ∉ new.*1) as Hdisj.
    { intros a Ha Hin. destruct (is_list_alive _ _ _ _ Ht Ha) as [n Hn].
      rewrite (Hfresh a Hin) in Hn. done. }
    assert (is_list s1 this ct) as Ht1.
    { eapply is_list_frame; [exact Hfr1| | |exact Ht]; set_solver. }
    destruct (swap_spec _ _ _ _ _ Ht1 Hcopy1)
      as (s2 & Hrun2 & Ht2 & Hcopy2 & Hfr2 & Hh2 & Hb2).
    destruct (destroy_spec _ _ _ fuel Hcopy2 Hft)
      as (s3 & Hrun3 & Hnone3 & Hfr3 & Hdel3 & Hb3).
    exists new, s3. split; [|split; [|split; [|split; [|split; [|split]]]]].
    + unfold assign, with_local.
      erewrite bind_Ret; [reflexivity|].
      erewrite bind_Ret by exact Hrun1.
      eapply finally_Ret; [exact Hrun2|exact Hrun3].
    + eapply is_list_frame; [exact Hfr3| | |exact Ht2]; [set_solver|].
      intros a Ha Hin. by apply (Hdisj a).
    + done.
    + done.
    + split.
      * intros l Hl. destruct (decide (l = copy)) as [->|Hlc].
        -- by rewrite Hnone3, Hnone.
        -- rewrite (proj1 Hfr3), (proj1 Hfr2), (proj1 Hfr1);
             [done|set_solver..].
      * intros a Ha.
        rewrite (proj2 Hfr3), Hh2, (proj2 Hfr1); [done|set_solver..].
    + done.
    + rewrite Hb3, Hb2, Hb1. done.
  - right. split; [done|]. exists s1. split; [|done].
    unfold assign, with_local.
    erewrite bind_Throw; [reflexivity|]. by erewrite bind_Throw.
Qed.

End Copying.

Section CopyClaims.
Context {T : Type} `{Element T}.
Implicit Types (s : state T) (cells c new : list (loc * T)) (this : loc).

(** C6.  Copy assignment copies [rhs] into fresh nodes and then swaps the
    copy in: when the copying succeeds the target holds the elements [rhs]
    had, in order, and their count, and [rhs], when it is another list, is
    as before; when the copying throws, the list objects and the heap are
    what they were before the call.  This covers [this = rhs] and an empty
    [rhs], for which nothing is allocated and the assignment cannot throw. *)
Theorem assign_strong_guarantee s fuel this rhs ct cr :
  is_list s this ct → is_list s rhs cr →
  length ct ≤ fuel → length cr ≤ fuel →
  (can_alloc_n (length cr) s →
   ∃ new s',
     assign fuel this rhs s = Ret this s' ∧
     is_list s' this new ∧ new.*2 = cr.*2 ∧
     (∀ a, a ∈ new.*1 → heap s !! a = None) ∧
     iterate fuel this s' = Ret cr.*2 s' ∧
     GetSize this s' = Ret (N.of_nat (length cr)) s' ∧
     (this ≠ rhs → (∀ a, a ∈ ct.*1 → a ∉ cr.*1) → is_list s' rhs cr)) ∧
  (¬ can_alloc_n (length cr) s →
   ∃ s',
     assign fuel this rhs s = Throw s' ∧
     lists s' = lists s ∧ heap s' = heap s ∧
     is_list s' this ct ∧ is_list s' rhs cr) ∧
  (cr = [] → can_alloc_n (length cr) s).
Proof.
  intros Ht Hr Hft Hfr.
  destruct (assign_spec s fuel this rhs ct cr Ht Hr Hft Hfr)
    as [(Hcan & new & s' & Hrun & Ht' & Hvs & Hfresh & Hfr' & Hdel & Hb)
       |(Hcan & s' & Hrun & Hls & Hhs)].
  - split; [|split; [done|]].
    + intros _. exists new, s'.
      assert (length new = length cr) as Hlen.
      { by rewrite <-(length_fmap snd new), Hvs, length_fmap. }
      split; [done|]. split; [done|]. split; [done|]. split; [done|].
      split; [|split].
      * rewrite <-Hvs. apply iterate_spec; [done|lia].
      * rewrite <-Hlen. by apply GetSize_spec.
      * intros Hne Hdisj.
        eapply is_list_frame; [exact Hfr'| | |exact Hr]; [set_solver|].
        intros a Ha Hin. apply elem_of_app in Hin as [Hin|Hin].
        -- by apply (Hdisj a).
        -- destruct (is_list_alive _ _ _ _ Hr Ha) as [n Hn].
           rewrite (Hfresh a Hin) in Hn. done.
    + intros ->. split; simpl; lia.
  - split; [done|]. split.
    + intros _. exists s'. split; [done|]. split; [done|]. split; [done|].
      assert (frame [] [] s s') as Hfr0.
      { split; intros x _; by rewrite ?Hls, ?Hhs. }
      split; (eapply is_list_frame; [exact Hfr0| | |eassumption]; set_solver).
    + intros ->. destruct Hcan. split; simpl; lia.
Qed.

(** C7.  The copy constructor builds its list out of nodes that did not
    exist before, with the elements of the source in order, and leaves the
    source as it was; whatever a mutator then does to the copy ([PushFront],
    [InsertAfter] and [EraseAfter] at a position of the copy, [PopFront],
    [Clear]), the source keeps its cells, so its element sequence and size. *)
Theorem copy_is_independent s fuel src cells :
  is_list s src cells → length cells ≤ fuel →
  can_alloc_n (length cells) s →
  ∃ copy new s1,
    construct_copy fuel src s = Ret copy s1 ∧
    copy ≠ src ∧
    is_list s1 copy new ∧ new.*2 = cells.*2 ∧
    (∀ a, a ∈ new.*1 → a ∉ cells.*1) ∧
    is_list s1 src cells ∧
    ∀ s2,
      ((∃ v, PushFront copy v s1 = Ret tt s2) ∨
       (∃ c1 c2 v it, new = c1 ++ c2 ∧
          InsertAfter copy (mkIterator (last_ptr copy c1)) v s1 = Ret it s2) ∨
       (∃ c1 c2 it, new = c1 ++ c2 ∧
          EraseAfter copy (mkIterator (last_ptr copy c1)) s1 = Ret it s2) ∨
       PopFront copy s1 = Ret tt s2 ∨
       Clear fuel copy s1 = Ret tt s2) →
      is_list s2 src cells ∧
      iterate fuel src s2 = Ret cells.*2 s2 ∧
      GetSize src s2 = Ret (N.of_nat (length cells)) s2.
Proof.
  intros Hsrc Hf Hcan.
  destruct (construct_copy_spec s fuel src cells Hsrc Hf)
    as [(_ & new & s1 & Hrun1 & Hcopy1 & Hvs & Hfresh & Hfr1 & Hb1)
       |(Hcan' & _)]; [|done].
  pose proof (fresh_lists (lists s)) as Hnone.
  set (copy := fresh (dom (lists s))) in *.
  assert (copy ≠ src) as Hne.
  { intros ->. destruct Hsrc as (o & Ho & _). congruence. }
  assert (∀ a, a ∈ new.*1 → a ∉ cells.*1) as Hdisj.
  { intros a Hin Ha. destruct (is_list_alive _ _ _ _ Hsrc Ha) as [n Hn].
    rewrite (Hfresh a Hin) in Hn. done. }
  assert (is_list s1 src cells) as Hsrc1.
  { eapply is_list_frame; [exact Hfr1| | |exact Hsrc]; [set_solver|].
    intros a Ha Hin. by apply (Hdisj a). }
  assert (length new = length cells) as Hlen.
  { by rewrite <-(length_fmap snd new), Hvs, length_fmap. }
  exists copy, new, s1. do 5 (split; [done|]). split; [done|].
  intros s2 Hmut.
  assert (∃ A, frame [copy] A s1 s2 ∧ ∀ a, a ∈ cells.*1 → a ∉ A) as (A & Hfr2 & HA).
  { assert (∀ a, a ∈ cells.*1 → a ≠ fresh (dom (heap s1))) as Hnf.
    { intros a Ha ->. destruct (is_list_alive _ _ _ _ Hsrc1 Ha) as [n Hn].
      rewrite fresh_heap in Hn. done. }
    destruct Hmut as [(v & Hrun)|[(c1 & c2 & v & it & -> & Hrun)
      |[(c1 & c2 & it & -> & Hrun)|[Hrun|Hrun]]]].
    - destruct (decide (can_alloc s1)) as [Hc|Hc].
      + destruct (PushFront_spec _ _ _ v Hcopy1 Hc) as (s2' & Hrun' & _ & Hfr & _).
        rewrite Hrun in Hrun'. injection Hrun' as <-.
        eexists. split; [exact Hfr|]. intros a Ha Hin.
        apply list_elem_of_singleton in Hin. by apply (Hnf a).
      + rewrite (PushFront_throw _ _ _ v Hcopy1 Hc) in Hrun. done.
    - destruct (decide (can_alloc s1)) as [Hc|Hc].
      + destruct (InsertAfter_spec _ _ _ _ v Hcopy1 Hc) as (s2' & Hrun' & _ & Hfr & _).
        rewrite Hrun in Hrun'. injection Hrun' as _ <-.
        eexists. split; [exact Hfr|]. intros a Ha Hin.
        apply elem_of_cons in Hin as [->|Hin]; [by apply (Hnf _ Ha)|].
        apply (Hdisj a); [|done]. rewrite fmap_app. set_solver.
      + rewrite (InsertAfter_throw _ _ _ _ v Hcopy1 Hc) in Hrun. done.
    - destruct c2 as [|[a v] c2].
      + destruct (load_last_ptr _ _ _ _ Hcopy1) as (n & Hn & Hnext).
        unfold EraseAfter in Hrun. simpl in Hrun.
        erewrite bind_Ret in Hrun by exact Hn. rewrite Hnext in Hrun. done.
      + destruct (EraseAfter_spec _ _ _ _ _ _ Hcopy1) as (s2' & Hrun' & _ & Hfr & _).
        rewrite Hrun in Hrun'. injection Hrun' as _ <-.
        eexists. split; [exact Hfr|]. intros x Hx Hin.
        apply (Hdisj x); [|done]. rewrite fmap_app. set_solver.
    - destruct new as [|[a v] new'].
      + destruct (load_last_ptr _ copy [] [] Hcopy1) as (n & Hn & Hnext).
        unfold PopFront, EraseAfter in Hrun. simpl in Hrun.
        unfold mbind at 1, M_bind at 1 in Hrun.
        erewrite bind_Ret in Hrun by exact Hn. rewrite Hnext in Hrun. done.
      + destruct (EraseAfter_spec _ copy [] a v new' Hcopy1)
          as (s2' & Hrun' & _ & Hfr & _).
        unfold PopFront in Hrun. erewrite bind_Ret in Hrun by exact Hrun'.
        injection Hrun as <-.
        eexists. split; [exact Hfr|]. intros x Hx Hin.
        apply (Hdisj x); [|done]. set_solver.
    - destruct (Clear_spec _ _ _ fuel Hcopy1) as (s2' & Hrun' & _ & Hfr & _); [lia|].
      rewrite Hrun in Hrun'. injection Hrun' as <-.
      eexists. split; [exact Hfr|]. intros x Hx Hin. by apply (Hdisj x). }
  assert (is_list s2 src cells) as Hsrc2.
  { eapply is_list_frame; [exact Hfr2| | |exact Hsrc1]; [set_solver|done]. }
  split; [done|]. split; [by apply iterate_spec|by apply GetSize_spec].
Qed.

End CopyClaims.

(** ** The invariant of the data model *)

Section Invariant.
Context {T : Type} `{Element T}.
Implicit Types (s : state T) (cells c new : list (loc * T)) (this l : loc)
               (L A : list loc) (h : gmap loc (Node T)).

Lemma chain_reaches h p cells a :
  chain h p cells → reaches h p a ↔ a ∈ cells.*1.
Proof.
  unfold chain. intros Hc. split.
  - intros Hr. revert cells Hc.
    induction Hr as [a n Ha|a n b Ha Hr IH]; intros [|[a' v] rest] Hc;
      simpl in Hc; try done.
    + destruct Hc as [[= <-] _]. set_solver.
    + destruct Hc as ([= <-] & q & Ha' & Hc). rewrite Ha in Ha'.
      injection Ha' as ->. simpl in IH. apply IH in Hc. set_solver.
  - revert p Hc. induction cells as [|[a' v] rest IH]; intros p Hc Hin.
    + by apply elem_of_nil in Hin.
    + destruct Hc as (-> & q & Ha' & Hc). simpl in Hin.
      apply elem_of_cons in Hin as [->|Hin].
      * by eapply reaches_here.
      * eapply reaches_next; [done|]. simpl. by apply IH.
Qed.

Lemma is_list_invariant s this cells :
  is_list s this cells → list_invariant s this.
Proof.
  intros (o & Ho & Hsz & _ & Hc). exists o, cells.
  split; [done|]. split; [done|]. split; [|split; [|done]].
  - intros a. by apply chain_reaches.
  - by eapply chain_NoDup.
Qed.

Lemma is_list_ext s s' this cells :
  lists s' = lists s → heap s' = heap s →
  is_list s this cells → is_list s' this cells.
Proof. intros Hl Hh. unfold is_list. by rewrite Hl, Hh. Qed.

Lemma wf_ext s s' :
  lists s' = lists s → heap s' = heap s → wf s → wf s'.
Proof.
  intros Hl Hh [Hall Hdisj]. split.
  - intros l Hal. rewrite Hl in Hal. destruct (Hall l Hal) as [c Hc].
    exists c. by eapply is_list_ext.
  - intros l1 l2 c1 c2 Hne H1 H2.
    eapply Hdisj; [done| |]; (eapply is_list_ext; [| |eassumption]; done).
Qed.

Lemma wf_initial b : wf (initial (T:=T) b).
Proof.
  split.
  - intros l [o Ho]. simpl in Ho. by rewrite lookup_empty in Ho.
  - intros l1 l2 c1 c2 _ (o & Ho & _). simpl in Ho. by rewrite lookup_empty in Ho.
Qed.

(** A step that touches only the list objects [L] and the addresses [A],
    where [A] and the new nodes of [L] were owned by [L] or free, and that
    leaves the objects of [L] lists without common nodes, keeps [wf]. *)
Lemma wf_update L A s s' :
  wf s → frame L A s s' →
  (∀ a, a ∈ A →
     (∃ l0 c0, l0 ∈ L ∧ is_list s l0 c0 ∧ a ∈ c0.*1) ∨ heap s !! a = None) →
  (∀ l c', l ∈ L → is_list s' l c' → ∀ a, a ∈ c'.*1 →
     (∃ l0 c0, l0 ∈ L ∧ is_list s l0 c0 ∧ a ∈ c0.*1) ∨ heap s !! a = None) →
  (∀ l, l ∈ L → is_Some (lists s' !! l) → ∃ c', is_list s' l c') →
  (∀ l1 l2 c1 c2, l1 ∈ L → l2 ∈ L → l1 ≠ l2 →
     is_list s' l1 c1 → is_list s' l2 c2 → ∀ a, a ∈ c1.*1 → a ∉ c2.*1) →
  wf s'.
Proof.
  intros [Hall Hdisj] Hfr Hfp Hnew Halive HdisjL.
  assert (∀ l c, l ∉ L → is_list s l c → is_list s' l c) as Hkeep.
  { intros l c Hl Hc. eapply is_list_frame; [exact Hfr|done| |done].
    intros a Ha Hin. destruct (Hfp a Hin) as [(l0 & c0 & Hl0 & Hc0 & Ha0)|Hfree].
    - refine (Hdisj l l0 c c0 _ Hc Hc0 a Ha Ha0). intros ->. done.
    - destruct (is_list_alive _ _ _ _ Hc Ha) as [n Hn]. congruence. }
  assert (∀ l c, l ∉ L → is_list s' l c → is_list s l c) as Hback.
  { intros l c Hl Hc. pose proof Hc as (o & Ho & _).
    rewrite (proj1 Hfr) in Ho by done.
    destruct (Hall l) as [c0 Hc0]; [eauto|].
    by rewrite (is_list_det _ _ _ _ Hc (Hkeep _ _ Hl Hc0)). }
  assert (∀ l1 l2 c1 c2, l1 ∈ L → l2 ∉ L →
            is_list s' l1 c1 → is_list s' l2 c2 →
            ∀ a, a ∈ c1.*1 → a ∉ c2.*1) as Hmixed.
  { intros l1 l2 c1 c2 Hl1 Hl2 H1 H2 a Ha1 Ha2.
    apply Hback in H2; [|done].
    destruct (Hnew l1 c1 Hl1 H1 a Ha1) as [(l0 & c0 & Hl0 & Hc0 & Ha0)|Hfree].
    - refine (Hdisj l0 l2 c0 c2 _ Hc0 H2 a Ha0 Ha2). intros ->. done.
    - destruct (is_list_alive _ _ _ _ H2 Ha2) as [n Hn]. congruence. }
  split.
  - intros l Hal. destruct (decide (l ∈ L)) as [Hl|Hl]; [by apply Halive|].
    rewrite (proj1 Hfr) in Hal by done.
    destruct (Hall l Hal) as [c Hc]. exists c. by apply Hkeep.
  - intros l1 l2 c1 c2 Hne H1 H2 a Ha1 Ha2.
    destruct (decide (l1 ∈ L)) as [Hl1|Hl1], (decide (l2 ∈ L)) as [Hl2|Hl2].
    + exact (HdisjL l1 l2 c1 c2 Hl1 Hl2 Hne H1 H2 a Ha1 Ha2).
    + exact (Hmixed l1 l2 c1 c2 Hl1 Hl2 H1 H2 a Ha1 Ha2).
    + exact (Hmixed l2 l1 c2 c1 Hl2 Hl1 H2 H1 a Ha2 Ha1).
    + apply Hback in H1, H2; [|done..].
      exact (Hdisj l1 l2 c1 c2 Hne H1 H2 a Ha1 Ha2).
Qed.

(** The list object [this] goes from [cells] to [cells']. *)
Lemma wf_update_one s s' this cells cells' A :
  wf s → is_list s this cells → is_list s' this cells' →
  frame [this] A s s' →
  (∀ a, a ∈ A → a ∈ cells.*1 ∨ heap s !! a = None) →
  (∀ a, a ∈ cells'.*1 → a ∈ cells.*1 ∨ heap s !! a = None) →
  wf s'.
Proof.
  intros Hwf Hl Hl' Hfr HA Hnew.
  apply (wf_update [this] A s s'); try done.
  - intros a Ha. destruct (HA a Ha) as [Hin|Hf]; [left|by right].
    exists this, cells. set_solver.
  - intros l c' Hin Hc' a Ha. apply list_elem_of_singleton in Hin as ->.
    rewrite (is_list_det _ _ _ _ Hc' Hl') in Ha.
    destruct (Hnew a Ha) as [Hin|Hf]; [left|by right].
    exists this, cells. set_solver.
  - intros l Hin _. apply list_elem_of_singleton in Hin as ->. eauto.
  - intros l1 l2 c1 c2 Hin1 Hin2 Hne.
    apply list_elem_of_singleton in Hin1, Hin2. congruence.
Qed.

(** A list object comes to life at [this], built of fresh nodes. *)
Lemma wf_construct s s' this new :
  wf s → is_list s' this new →
  (∀ a, a ∈ new.*1 → heap s !! a = None) →
  frame [this] new.*1 s s' →
  wf s'.
Proof.
  intros Hwf Hl' Hfresh Hfr.
  apply (wf_update [this] new.*1 s s'); try done.
  - intros a Ha. right. by apply Hfresh.
  - intros l c' Hin Hc' a Ha. apply list_elem_of_singleton in Hin as ->.
    rewrite (is_list_det _ _ _ _ Hc' Hl') in Ha. right. by apply Hfresh.
  - intros l Hin _. apply list_elem_of_singleton in Hin as ->. eauto.
  - intros l1 l2 c1 c2 Hin1 Hin2 Hne.
    apply list_elem_of_singleton in Hin1, Hin2. congruence.
Qed.

(** The list object at [this] ends, with its nodes. *)
Lemma wf_destroy s s' this cells :
  wf s → is_list s this cells → lists s' !! this = None →
  frame [this] cells.*1 s s' →
  wf s'.
Proof.
  intros Hwf Hl Hnone Hfr.
  apply (wf_update [this] cells.*1 s s'); try done.
  - intros a Ha. left. exists this, cells. set_solver.
  - intros l c' Hin (o & Ho & _). apply list_elem_of_singleton in Hin as ->.
    congruence.
  - intros l Hin [o Ho]. apply list_elem_of_singleton in Hin as ->. congruence.
  - intros l1 l2 c1 c2 Hin1 Hin2 Hne.
    apply list_elem_of_singleton in Hin1, Hin2. congruence.
Qed.

(** Two list objects exchange their chains. *)
Lemma wf_swap s s' this other c1 c2 :
  wf s → is_list s this c1 → is_list s other c2 →
  is_list s' this c2 → is_list s' other c1 →
  frame [this; other] [] s s' →
  wf s'.
Proof.
  intros Hwf H1 H2 H1' H2' Hfr.
  apply (wf_update [this; other] [] s s'); try done.
  - intros a Ha. by apply elem_of_nil in Ha.
  - intros l c' Hin Hc' a Ha. left.
    apply elem_of_cons in Hin as [->|Hin];
      [|apply list_elem_of_singleton in Hin as ->].
    + rewrite (is_list_det _ _ _ _ Hc' H1') in Ha.
      exists other, c2. set_solver.
    + rewrite (is_list_det _ _ _ _ Hc' H2') in Ha.
      exists this, c1. set_solver.
  - intros l Hin _.
    apply elem_of_cons in Hin as [->|Hin];
      [|apply list_elem_of_singleton in Hin as ->]; eauto.
  - intros l1 l2 d1 d2 Hin1 Hin2 Hne Hd1 Hd2.
    assert ((l1 = this ∧ l2 = other) ∨ (l1 = other ∧ l2 = this)) as Hcase.
    { set_solver. }
    destruct Hcase as [[-> ->]|[-> ->]].
    + rewrite (is_list_det _ _ _ _ Hd1 H1'), (is_list_det _ _ _ _ Hd2 H2').
      refine (proj2 Hwf other this c2 c1 _ H2 H1). congruence.
    + rewrite (is_list_det _ _ _ _ Hd1 H2'), (is_list_det _ _ _ _ Hd2 H1').
      refine (proj2 Hwf this other c1 c2 _ H1 H2). congruence.
Qed.

End Invariant.

(** ** Programs that call the public operations *)

Section Programs.
Context {T : Type} `{Element T}.
Implicit Types (s : state T) (cells c new : list (loc * T)) (this l : loc).

(** *** More fuel does not change an outcome *)

Lemma fuel_le_refl {A} (r : outcome T A) : fuel_le r r.
Proof. by right. Qed.

Lemma fuel_le_bind {A B} (m1 m2 : M T A) (k1 k2 : A → M T B) s :
  fuel_le (m1 s) (m2 s) → (∀ a s', fuel_le (k1 a s') (k2 a s')) →
  fuel_le ((m1 ≫= k1) s) ((m2 ≫= k2) s).
Proof.
  unfold mbind, M_bind. intros [->|<-] Hk; [by left|].
  destruct (m1 s); [apply Hk|by right..].
Qed.

Lemma fuel_le_finally {A} (b1 b2 : M T A) (c1 c2 : M T unit) s :
  fuel_le (b1 s) (b2 s) → (∀ s', fuel_le (c1 s') (c2 s')) →
  fuel_le (finally b1 c1 s) (finally b2 c2 s).
Proof.
  unfold finally. intros [->|<-] Hc; [by left|].
  destruct (b1 s) as [a s1|s1|f]; [| |by right].
  - destruct (Hc s1) as [->|<-]; [by left|by right].
  - destruct (Hc s1) as [->|<-]; [by left|by right].
Qed.

Lemma fuel_le_on_throw {A} (b1 b2 : M T A) (c : M T unit) s :
  fuel_le (b1 s) (b2 s) → fuel_le (on_throw b1 c s) (on_throw b2 c s).
Proof. unfold on_throw. intros [->|<-]; [by left|by right]. Qed.

Ltac fuel_binds :=
  repeat (apply fuel_le_bind; [apply fuel_le_refl|intros ? ?]).

Lemma Create_loop_mono {It} `{!InputIterator T It} n m this prev
    (first last : It) s :
  n ≤ m →
  fuel_le (Create_loop n this prev first last s)
          (Create_loop m this prev first last s).
Proof.
  revert m prev first s. induction n as [|n IH]; intros m prev first s Hnm.
  - simpl. destruct (iter_ne first last) eqn:Hne; [by left|].
    right. destruct m; simpl; by rewrite Hne.
  - destruct m as [|m]; [lia|]. simpl.
    destruct (iter_ne first last); [|apply fuel_le_refl].
    fuel_binds. apply IH. lia.
Qed.

Lemma Clear_loop_mono n m this s :
  n ≤ m → fuel_le (Clear_loop n this s) (Clear_loop m this s).
Proof.
  revert m s. induction n as [|n IH]; intros m s Hnm.
  - destruct m; simpl; [apply fuel_le_refl|].
    fuel_binds. destruct (next_node a); [by left|apply fuel_le_refl].
  - destruct m as [|m]; [lia|]. simpl.
    fuel_binds. destruct (next_node a); [|apply fuel_le_refl].
    fuel_binds. apply IH. lia.
Qed.

Lemma destroy_mono n m this s :
  n ≤ m → fuel_le (destroy n this s) (destroy m this s).
Proof.
  intros Hnm. unfold destroy, Clear.
  apply fuel_le_bind; [|intros; apply fuel_le_refl].
  apply fuel_le_bind; [|intros; apply fuel_le_refl].
  by apply Clear_loop_mono.
Qed.

Lemma construct_from_mono {It} `{!InputIterator T It} n m
    (range : M T (It * It)) s :
  n ≤ m → fuel_le (construct_from n range s) (construct_from m range s).
Proof.
  intros Hnm. unfold construct_from, with_local.
  fuel_binds. apply fuel_le_bind; [|intros; apply fuel_le_refl].
  apply fuel_le_on_throw. fuel_binds.
  apply fuel_le_finally; [|intros; by apply destroy_mono].
  fuel_binds. apply fuel_le_bind; [|intros; apply fuel_le_refl].
  by apply Create_loop_mono.
Qed.

Lemma assign_mono n m this rhs s :
  n ≤ m → fuel_le (assign n this rhs s) (assign m this rhs s).
Proof.
  intros Hnm. unfold assign, with_local.
  apply fuel_le_bind; [|intros; apply fuel_le_refl].
  apply fuel_le_bind; [by apply construct_from_mono|].
  intros copy s'. apply fuel_le_finally; [apply fuel_le_refl|].
  intros. by apply destroy_mono.
Qed.

Lemma run_mono n m k s : n ≤ m → fuel_le (run n k s) (run m k s).
Proof.
  intros Hnm. destruct k; simpl; try apply fuel_le_refl.
  - apply fuel_le_bind; [|intros; apply fuel_le_refl].
    by apply construct_from_mono.
  - apply fuel_le_bind; [|intros; apply fuel_le_refl].
    by apply construct_from_mono.
  - by apply destroy_mono.
  - apply fuel_le_bind; [|intros; apply fuel_le_refl].
    by apply assign_mono.
  - unfold Clear. apply fuel_le_bind; [|intros; apply fuel_le_refl].
    by apply Clear_loop_mono.
  - by apply Create_loop_mono.
  - fuel_binds. by apply Create_loop_mono.
Qed.

End Programs.

Section Preservation.
Context {T : Type} `{Element T}.
Implicit Types (s : state T) (cells c new : list (loc * T)) (this l : loc).

Lemma is_list_length s this cells :
  is_list s this cells → length cells ≤ size (heap s).
Proof. intros (o & _ & _ & _ & Hc). by eapply chain_length. Qed.

Lemma iterator_eta (pos : BasicIterator) p :
  node_ pos = p → pos = mkIterator p.
Proof. destruct pos. simpl. by intros ->. Qed.

Lemma EraseAfter_at_end s this cells :
  is_list s this cells →
  EraseAfter this (mkIterator (last_ptr this cells)) s
  = Fail UndefinedBehaviour.
Proof.
  intros Hl. rewrite <-(app_nil_r cells) in Hl.
  destruct (load_last_ptr _ _ _ _ Hl) as (n & Hn & Hnext).
  unfold EraseAfter. simpl. erewrite bind_Ret by exact Hn.
  rewrite Hnext. done.
Qed.

Ltac outcome Hrun :=
  let s' := fresh "s'" in
  let Hr := fresh "Hr" in
  intros s' [Hr|Hr]; rewrite Hrun in Hr; try discriminate Hr;
  injection Hr as <-.

Lemma run_wf s k fuel :
  wf s → permitted s k →
  size (heap s) ≤ fuel → values_length k ≤ fuel →
  ∀ s', run fuel k s = Ret tt s' ∨ run fuel k s = Throw s' → wf s'.
Proof.
  intros Hwf Hperm Hfuel Hvals.
  destruct k as [|values|other|this|this rhs|this v|this pos v|this pos
                 |this|this|this other|this values|this other];
    simpl in Hperm, Hvals |- *.
  - (* SingleLinkedList() *)
    destruct (alloc_list_spec s) as (s1 & Hrun1 & _ & _ & Hl1 & Hfr1 & _).
    assert ((alloc_list;; mret tt) s = Ret tt s1) as Hrun
      by by erewrite bind_Ret by exact Hrun1.
    outcome Hrun. eapply (wf_construct s _ _ []); [done..| |done].
    intros a Ha. by apply elem_of_nil in Ha.
  - (* SingleLinkedList(values) *)
    destruct (construct_values_spec s fuel values Hvals)
      as [(_ & new & s1 & Hrun1 & Hl1 & _ & Hfresh & Hfr1 & _)
         |(_ & s1 & Hrun1 & Hls & Hhs)].
    + assert ((construct_values fuel values;; mret tt) s = Ret tt s1) as Hrun
        by by erewrite bind_Ret by exact Hrun1.
      outcome Hrun. by eapply wf_construct.
    + assert ((construct_values fuel values;; mret tt) s = Throw s1) as Hrun
        by by erewrite bind_Throw by exact Hrun1.
      outcome Hrun. by eapply wf_ext.
  - (* SingleLinkedList(other) *)
    destruct (proj1 Hwf other Hperm) as [co Hco].
    pose proof (is_list_length _ _ _ Hco) as Hlen.
    destruct (construct_copy_spec s fuel other co Hco ltac:(lia))
      as [(_ & new & s1 & Hrun1 & Hl1 & _ & Hfresh & Hfr1 & _)
         |(_ & s1 & Hrun1 & Hls & Hhs)].
    + assert ((construct_copy fuel other;; mret tt) s = Ret tt s1) as Hrun
        by by erewrite bind_Ret by exact Hrun1.
      outcome Hrun. by eapply wf_construct.
    + assert ((construct_copy fuel other;; mret tt) s = Throw s1) as Hrun
        by by erewrite bind_Throw by exact Hrun1.
      outcome Hrun. by eapply wf_ext.
  - (* ~SingleLinkedList() *)
    destruct (proj1 Hwf this Hperm) as [ct Hct].
    pose proof (is_list_length _ _ _ Hct) as Hlen.
    destruct (destroy_spec s this ct fuel Hct ltac:(lia))
      as (s1 & Hrun & Hnone & Hfr1 & _).
    outcome Hrun. by eapply wf_destroy.
  - (* operator= *)
    destruct Hperm as [Hthis Hrhs].
    destruct (proj1 Hwf this Hthis) as [ct Hct].
    destruct (proj1 Hwf rhs Hrhs) as [cr Hcr].
    pose proof (is_list_length _ _ _ Hct) as Hlent.
    pose proof (is_list_length _ _ _ Hcr) as Hlenr.
    destruct (assign_spec s fuel this rhs ct cr Hct Hcr ltac:(lia) ltac:(lia))
      as [(_ & new & s1 & Hrun1 & Hl1 & _ & Hfresh & Hfr1 & _)
         |(_ & s1 & Hrun1 & Hls & Hhs)].
    + assert ((assign fuel this rhs;; mret tt) s = Ret tt s1) as Hrun
        by by erewrite bind_Ret by exact Hrun1.
      outcome Hrun. eapply (wf_update_one s _ this ct new); [done..| |].
      * intros a Ha. apply elem_of_app in Ha as [Ha|Ha]; auto.
      * intros a Ha. auto.
    + assert ((assign fuel this rhs;; mret tt) s = Throw s1) as Hrun
        by by erewrite bind_Throw by exact Hrun1.
      outcome Hrun. by eapply wf_ext.
  - (* PushFront *)
    destruct (proj1 Hwf this Hperm) as [ct Hct].
    destruct (decide (can_alloc s)) as [Hcan|Hcan].
    + destruct (PushFront_spec s this ct v Hct Hcan)
        as (s1 & Hrun & Hl1 & Hfr1 & _).
      pose proof (fresh_heap (heap s)) as Hfresh.
      outcome Hrun. eapply (wf_update_one s _ this ct); [done..| |].
      * intros a Ha. apply list_elem_of_singleton in Ha as ->. by right.
      * intros a Ha. simpl in Ha. apply elem_of_cons in Ha as [->|Ha]; auto.
    + pose proof (PushFront_throw s this ct v Hct Hcan) as Hrun.
      by outcome Hrun.
  - (* InsertAfter *)
    destruct Hperm as (c1 & c2 & Hct & Hpos).
    apply iterator_eta in Hpos as ->.
    destruct (decide (can_alloc s)) as [Hcan|Hcan].
    + destruct (InsertAfter_spec s this c1 c2 v Hct Hcan)
        as (s1 & Hrun1 & Hl1 & Hfr1 & _).
      pose proof (fresh_heap (heap s)) as Hfresh.
      assert ((InsertAfter this (mkIterator (last_ptr this c1)) v;; mret tt) s
              = Ret tt s1) as Hrun by by erewrite bind_Ret by exact Hrun1.
      outcome Hrun. eapply (wf_update_one s _ this (c1 ++ c2)); [done..| |].
      * intros a Ha. rewrite fmap_app.
        apply elem_of_cons in Ha as [->|Ha]; [by right|left; set_solver].
      * intros a Ha. rewrite fmap_app in Ha |- *. simpl in Ha.
        apply elem_of_app in Ha as [Ha|Ha]; [left; set_solver|].
        apply elem_of_cons in Ha as [->|Ha]; [by right|left; set_solver].
    + pose proof (InsertAfter_throw s this c1 c2 v Hct Hcan) as Hrun1.
      assert ((InsertAfter this (mkIterator (last_ptr this c1)) v;; mret tt) s
              = Throw s) as Hrun by by erewrite bind_Throw by exact Hrun1.
      by outcome Hrun.
  - (* EraseAfter *)
    destruct Hperm as (c1 & c2 & Hct & Hpos).
    apply iterator_eta in Hpos as ->.
    destruct c2 as [|[a v] c2].
    + rewrite app_nil_r in Hct.
      pose proof (EraseAfter_at_end s this c1 Hct) as Hrun1.
      intros s' [Hr|Hr]; unfold mbind, M_bind in Hr; by rewrite Hrun1 in Hr.
    + destruct (EraseAfter_spec s this c1 a v c2 Hct)
        as (s1 & Hrun1 & Hl1 & Hfr1 & _).
      assert ((EraseAfter this (mkIterator (last_ptr this c1));; mret tt) s
              = Ret tt s1) as Hrun by by erewrite bind_Ret by exact Hrun1.
      outcome Hrun.
      eapply (wf_update_one s _ this (c1 ++ (a, v) :: c2)); [done..| |].
      * intros x Hx. left. rewrite fmap_app. simpl. set_solver.
      * intros x Hx. left. rewrite fmap_app in Hx |- *. simpl. set_solver.
  - (* PopFront *)
    destruct (proj1 Hwf this Hperm) as [[|[a v] ct] Hct].
    + pose proof (EraseAfter_at_end s this [] Hct) as Hrun1.
      assert (PopFront this s = Fail UndefinedBehaviour) as Hrun.
      { unfold PopFront, mbind, M_bind.
        change (before_begin this)
          with (mkIterator (last_ptr (T:=T) this [])).
        by rewrite Hrun1. }
      intros s' [Hr|Hr]; by rewrite Hrun in Hr.
    + destruct (EraseAfter_spec s this [] a v ct Hct)
        as (s1 & Hrun1 & Hl1 & Hfr1 & _).
      assert (PopFront this s = Ret tt s1) as Hrun.
      { unfold PopFront. by erewrite bind_Ret by exact Hrun1. }
      outcome Hrun.
      eapply (wf_update_one s _ this ((a, v) :: ct)); [done..| |].
      * intros x Hx. left. simpl in *. set_solver.
      * intros x Hx. left. simpl in *. set_solver.
  - (* Clear *)
    destruct (proj1 Hwf this Hperm) as [ct Hct].
    pose proof (is_list_length _ _ _ Hct) as Hlen.
    destruct (Clear_spec s this ct fuel Hct ltac:(lia))
      as (s1 & Hrun & Hl1 & Hfr1 & _).
    outcome Hrun. eapply (wf_update_one s _ this ct []); [done..| |].
    + intros a Ha. by left.
    + intros a Ha. by apply elem_of_nil in Ha.
  - (* swap *)
    destruct Hperm as [Hthis Hother].
    destruct (proj1 Hwf this Hthis) as [ct Hct].
    destruct (proj1 Hwf other Hother) as [co Hco].
    destruct (swap_spec s this other ct co Hct Hco)
      as (s1 & Hrun & Hl1 & Hl2 & Hfr1 & _).
    outcome Hrun. by eapply (wf_swap s _ this other ct co).
  - (* Create, from an initializer list *)
    destruct (Create_loop_spec [] [] s fuel this
                (array_begin values) (array_end values) values s [])
      as (new & s1 & Hl1 & Hfresh & Hfr1 & _ & Hcase); try done.
    { apply (yields_array _ values 0). lia. }
    { intros Hin. by apply elem_of_nil in Hin. }
    { intros a Ha. by apply elem_of_nil in Ha. }
    { intros a Ha. by apply elem_of_nil in Ha. }
    simpl in Hl1, Hfr1.
    assert (wf s1) as Hwf1.
    { eapply (wf_update_one s _ this [] new); [done..| |]; auto. }
    assert (∀ r, Create_loop fuel this (last_ptr (T:=T) this [])
                   (array_begin values) (array_end values) s = r →
                 Create fuel this (array_begin values) (array_end values) s = r)
      as Hcreate by (by intros r <-).
    destruct Hcase as [(_ & Hrun & _)|(_ & Hrun & _)];
      apply Hcreate in Hrun; by outcome Hrun.
  - (* Create, from the range of a list *)
    destruct Hperm as [Hct Hother].
    destruct (proj1 Hwf other Hother) as [co Hco].
    pose proof (is_list_length _ _ _ Hco) as Hlen.
    pose proof Hco as (o & Ho & _ & _ & Hc).
    destruct (Create_loop_spec [] co.*1 s fuel this
                (mkIterator (first_ptr None co)) (mkIterator None) co.*2 s [])
      as (new & s1 & Hl1 & Hfresh & Hfr1 & _ & Hcase); try done.
    { rewrite (lseg_first _ _ _ _ Hc) in Hc. by apply yields_chain. }
    { intros Hin. by apply elem_of_nil in Hin. }
    { intros a Ha. by eapply is_list_alive. }
    { intros a _ Hin. by apply elem_of_nil in Hin. }
    { rewrite length_fmap. lia. }
    simpl in Hl1, Hfr1.
    assert (wf s1) as Hwf1.
    { eapply (wf_update_one s _ this [] new); [done..| |]; auto. }
    assert (∀ r, Create_loop fuel this (last_ptr (T:=T) this [])
                   (mkIterator (first_ptr None co)) (mkIterator None) s = r →
                 (b ← begin other; Create fuel this b (end_ other)) s = r)
      as Hbegin.
    { intros r <-. by erewrite bind_Ret by by apply begin_spec. }
    destruct Hcase as [(_ & Hrun & _)|(_ & Hrun & _)];
      apply Hbegin in Hrun; by outcome Hrun.
Qed.

Lemma run_more_fuel n m k s (r : outcome T unit) :
  n ≤ m → run n k s = r → r ≠ Fail OutOfFuel → run m k s = r.
Proof.
  intros Hnm Hr Hne. destruct (run_mono n m k s Hnm) as [Hoof|Heq];
    congruence.
Qed.

Lemma reachable_wf s : reachable s → wf s.
Proof.
  induction 1 as [b|s b _ IH|s k fuel s' _ IH Hperm Hrun
                 |s k fuel s' _ IH Hperm Hrun].
  - apply wf_initial.
  - by eapply wf_ext.
  - eapply (run_wf s k (fuel `max` (size (heap s) `max` values_length k)));
      [done|done|lia|lia|].
    left. eapply run_more_fuel; [|exact Hrun|done]. lia.
  - eapply (run_wf s k (fuel `max` (size (heap s) `max` values_length k)));
      [done|done|lia|lia|].
    right. eapply run_more_fuel; [|exact Hrun|done]. lia.
Qed.

(** C3, amended.  In every state reached from the initial state by calls of
    the public operations that respect their preconditions (position
    arguments reference the sentinel or a node of the list they are passed
    to, [Create] is applied to an empty list), whether the calls return or
    throw, every list object satisfies the invariant, and no node belongs to
    two lists. *)
Theorem reachable_invariant s :
  reachable s →
  (∀ this, is_Some (lists s !! this) → list_invariant s this) ∧
  (∀ l1 l2 c1 c2, l1 ≠ l2 → is_list s l1 c1 → is_list s l2 c2 →
     ∀ a, a ∈ c1.*1 → a ∉ c2.*1).
Proof.
  intros Hr. destruct (reachable_wf s Hr) as [Hall Hdisj]. split; [|done].
  intros this Hal. destruct (Hall this Hal) as [cells Hl].
  by eapply is_list_invariant.
Qed.

End Preservation.

(** * Further properties of the code *)

(** ** Iterators over a list *)

Section IteratorFacts.
Context {T : Type} `{Element T}.
Implicit Types (s : state T) (cells c : list (loc * T)) (this : loc).

Lemma IsEmpty_spec s this cells :
  is_list s this cells →
  IsEmpty this s = Ret (match cells with [] => true | _ => false end) s.
Proof.
  intros (o & Ho & _ & _ & Hc). unfold IsEmpty. exec.
  rewrite (lseg_first _ _ _ _ Hc). by destruct cells as [|[a v] rest].
Qed.

(** X1.  The default constructor makes an empty list at an address that
    was free: its size is 0, [IsEmpty] holds, [begin()] equals [end()],
    iteration meets no element, and no node is allocated. *)
Theorem default_constructed_is_empty s fuel :
  ∃ this s',
    alloc_list s = Ret this s' ∧
    lists s !! this = None ∧
    heap s' = heap s ∧
    GetSize this s' = Ret 0%N s' ∧
    IsEmpty this s' = Ret true s' ∧
    begin this s' = Ret (end_ this) s' ∧
    iterate fuel this s' = Ret [] s'.
Proof.
  destruct (alloc_list_spec s) as (s' & Hrun & Hnone & _ & Hl & _ & Hh & _).
  exists (fresh (dom (lists s))), s'.
  split; [done|]. split; [done|]. split; [done|].
  split; [by apply (GetSize_spec _ _ [])|].
  split; [by apply (IsEmpty_spec _ _ [])|].
  split; [by apply (begin_spec _ _ [])|].
  apply (iterate_spec _ _ []); [done|simpl; lia].
Qed.

(** X2.  On a list, [IsEmpty()], [begin() == end()] and [GetSize() == 0]
    say the same thing: each holds exactly when the list has no element. *)
Theorem emptiness_tests_agree s this cells :
  is_list s this cells →
  ∃ b n,
    begin this s = Ret b s ∧ GetSize this s = Ret n s ∧
    IsEmpty this s = Ret (iterator_eq b (end_ this)) s ∧
    iterator_eq b (end_ this) = (n =? 0)%N ∧
    (iterator_eq b (end_ this) = true ↔ cells = []).
Proof.
  intros Hl. exists (mkIterator (first_ptr None cells)), (N.of_nat (length cells)).
  split; [by apply begin_spec|]. split; [by apply GetSize_spec|].
  rewrite (IsEmpty_spec _ _ _ Hl).
  destruct cells as [|[a v] rest]; simpl; repeat split; done.
Qed.

(** X3.  Stepping through a list.  With the list split as [c1], the node
    [(a, v)], [c2]: incrementing the iterator at the last node of [c1]
    ([before_begin()] when [c1] is empty) gives the iterator at [a];
    dereferencing that one gives [v]; incrementing it gives the iterator at
    the first node of [c2], [end()] when [c2] is empty; the postfix form
    returns the iterator as it was.  Nothing is written. *)
Theorem iterator_steps s this c1 a v c2 :
  is_list s this (c1 ++ (a, v) :: c2) →
  let it := mkIterator (Some (Cell a)) in
  iterator_incr (mkIterator (last_ptr this c1)) s = Ret it s ∧
  iterator_deref it s = Ret v s ∧
  iterator_incr it s = Ret (mkIterator (first_ptr None c2)) s ∧
  iterator_post_incr it s = Ret (it, mkIterator (first_ptr None c2)) s ∧
  (c2 = [] → mkIterator (first_ptr None c2) = end_ this) ∧
  (c1 = [] → mkIterator (last_ptr this c1) = before_begin this ∧
             begin this s = Ret it s).
Proof.
  intros Hl. cbv zeta.
  pose proof (is_list_lookup _ _ _ _ _ _ Hl) as Ha.
  destruct (load_last_ptr _ _ _ _ Hl) as (n & Hn & Hnext).
  assert (iterator_incr (mkIterator (Some (Cell a))) s
          = Ret (mkIterator (first_ptr None c2)) s) as Hincr.
  { unfold iterator_incr. by exec. }
  split; [|split; [|split; [|split; [|split]]]].
  - unfold iterator_incr. simpl. erewrite bind_Ret by exact Hn.
    by rewrite Hnext.
  - by rewrite (iterator_deref_cell _ _ _ Ha).
  - done.
  - unfold iterator_post_incr. by erewrite bind_Ret by exact Hincr.
  - by intros ->.
  - intros ->. split; [done|]. by rewrite (begin_spec _ _ _ Hl).
Qed.

(** X4.  A loop from [begin()] to [end()] with [++] and [*] meets the
    elements of the list in order, as many as [GetSize()] says, and leaves
    the state as it was. *)
Theorem iteration_visits_all s this cells fuel :
  is_list s this cells →
  length cells ≤ fuel →
  iterate fuel this s = Ret cells.*2 s ∧
  GetSize this s = Ret (N.of_nat (length cells.*2)) s.
Proof.
  intros Hl Hf. split; [by apply iterate_spec|].
  rewrite length_fmap. by apply GetSize_spec.
Qed.


(** X6.  Iterators are compared by the node they reference: in a list,
    the iterators at two different places are unequal, whatever the values
    there, and none equals [before_begin()] or [end()]. *)
Theorem iterators_at_different_places s this cells i j a b v w :
  is_list s this cells →
  cells !! i = Some (a, v) → cells !! j = Some (b, w) → i ≠ j →
  iterator_eq (mkIterator (Some (Cell a))) (mkIterator (Some (Cell b))) = false ∧
  iterator_ne (mkIterator (Some (Cell a))) (mkIterator (Some (Cell b))) = true ∧
  iterator_eq (mkIterator (Some (Cell a))) (before_begin this) = false ∧
  iterator_eq (mkIterator (Some (Cell a))) (end_ this) = false.
Proof.
  intros Hl Hi Hj Hij.
  pose proof (is_list_NoDup _ _ _ Hl) as Hnd.
  assert (a ≠ b) as Hab.
  { intros ->. apply Hij. eapply NoDup_lookup; [exact Hnd| |].
    - by rewrite list_lookup_fmap, Hi.
    - by rewrite list_lookup_fmap, Hj. }
  unfold iterator_eq, iterator_ne. simpl.
  split; [|split; [|split]].
  - apply bool_decide_eq_false_2. congruence.
  - apply bool_decide_eq_true_2. congruence.
  - done.
  - done.
Qed.

End IteratorFacts.

(** ** Front operations, [Clear] and [swap] *)

Section FrontFacts.
Context {T : Type} `{Element T}.
Implicit Types (s : state T) (cells c : list (loc * T)) (this : loc).

Lemma PopFront_spec s this a v rest :
  is_list s this ((a, v) :: rest) →
  ∃ s', PopFront this s = Ret tt s' ∧
    is_list s' this rest ∧
    frame [this] [a] s s' ∧
    dom (heap s') = dom (heap s) ∖ {[a]} ∧
    budget s' = budget s.
Proof.
  intros Hl.
  destruct (EraseAfter_spec s this [] a v rest Hl)
    as (s' & Hrun & Hl' & Hfr & Hdom & Hb).
  exists s'. split; [|done].
  unfold PopFront. by erewrite bind_Ret by exact Hrun.
Qed.

(** X7.  [PopFront] on a list with a first node removes that node and no
    other: the rest of the list stays, in order and at the same addresses,
    the size drops by one, and the node leaves the heap. *)
Theorem PopFront_removes_first s this a v rest :
  is_list s this ((a, v) :: rest) →
  ∃ s',
    PopFront this s = Ret tt s' ∧
    is_list s' this rest ∧
    dom (heap s') = dom (heap s) ∖ {[a]} ∧
    GetSize this s = Ret (N.of_nat (length rest) + 1)%N s ∧
    GetSize this s' = Ret (N.of_nat (length rest)) s' ∧
    begin this s' = Ret (mkIterator (first_ptr None rest)) s'.
Proof.
  intros Hl.
  destruct (PopFront_spec s this a v rest Hl) as (s' & Hrun & Hl' & _ & Hdom & _).
  exists s'. split; [done|]. split; [done|]. split; [done|].
  split; [|split].
  - rewrite (GetSize_spec _ _ _ Hl). f_equal. simpl. lia.
  - by apply GetSize_spec.
  - by apply begin_spec.
Qed.

(** X8.  [PushFront(v)] followed by [PopFront()] gives the list back: the
    same cells, so the same elements and size, and the same heap. *)
Theorem PushFront_PopFront_roundtrip s this cells v :
  is_list s this cells → can_alloc s →
  ∃ s1 s2,
    PushFront this v s = Ret tt s1 ∧
    PopFront this s1 = Ret tt s2 ∧
    is_list s2 this cells ∧
    heap s2 = heap s.
Proof.
  intros Hl Hcan.
  destruct (PushFront_spec s this cells v Hl Hcan)
    as (s1 & Hrun1 & Hl1 & Hfr1 & _).
  destruct (PopFront_spec s1 this _ v cells Hl1)
    as (s2 & Hrun2 & Hl2 & Hfr2 & Hdom2 & _).
  exists s1, s2. split; [done|]. split; [done|]. split; [done|].
  apply map_eq. intros x.
  destruct (decide (x = fresh (dom (heap s)))) as [->|Hne].
  - rewrite fresh_heap. apply not_elem_of_dom. rewrite Hdom2. set_solver.
  - rewrite (proj2 Hfr2), (proj2 Hfr1); [done|set_solver..].
Qed.

(** X9.  [PushFront(v)] does what [InsertAfter(before_begin(), v)] does, in
    every state: the same outcome and the same resulting store. *)
Theorem PushFront_is_InsertAfter_before_begin s this v :
  PushFront this v s = (InsertAfter this (before_begin this) v;; mret tt) s.
Proof.
  unfold PushFront, InsertAfter, before_begin, mbind, M_bind. cbn [node_].
  destruct (load (head_ref this) s) as [h s1| |]; [|done..].
  destruct (new_Node v (next_node h) s1) as [n s2| |]; [|done..].
  destruct (store_next (head_ref this) n s2) as [[] s3| |]; [|done..].
  destruct (incr_size this s3) as [[] s4| |]; done.
Qed.

(** X10.  When building the new node throws, [PushFront] and [InsertAfter]
    have changed nothing: the state after the throw is the state before the
    call. *)
Theorem insertion_throws_unchanged s this c1 c2 v :
  is_list s this (c1 ++ c2) → ¬ can_alloc s →
  PushFront this v s = Throw s ∧
  InsertAfter this (mkIterator (last_ptr this c1)) v s = Throw s.
Proof.
  intros Hl Hcan. split.
  - by eapply PushFront_throw.
  - by apply (InsertAfter_throw _ _ _ c2).
Qed.

(** X11.  [Clear] empties the list and frees its nodes, these and no
    others; the list object stays alive and usable, other list objects are
    not touched, and nothing is allocated. *)
Theorem Clear_frees_all s this cells fuel :
  is_list s this cells → length cells ≤ fuel →
  ∃ s',
    Clear fuel this s = Ret tt s' ∧
    is_list s' this [] ∧
    GetSize this s' = Ret 0%N s' ∧
    IsEmpty this s' = Ret true s' ∧
    dom (heap s') = dom (heap s) ∖ list_to_set cells.*1 ∧
    (∀ a, a ∉ cells.*1 → heap s' !! a = heap s !! a) ∧
    (∀ l, l ≠ this → lists s' !! l = lists s !! l) ∧
    budget s' = budget s.
Proof.
  intros Hl Hf.
  destruct (Clear_spec s this cells fuel Hl Hf)
    as (s' & Hrun & Hl' & [Hfl Hfa] & Hdel & Hb).
  exists s'. split; [done|]. split; [done|].
  split; [by apply (GetSize_spec _ _ [])|].
  split; [by apply (IsEmpty_spec _ _ [])|].
  split; [|split; [done|split; [|done]]].
  - apply set_eq. intros a.
    rewrite elem_of_difference, !elem_of_dom, elem_of_list_to_set.
    destruct (decide (a ∈ cells.*1)) as [Hin|Hout].
    + rewrite (Hdel a Hin). split; [by intros [? ?]|by intros [_ ?]].
    + rewrite (Hfa a Hout). tauto.
  - intros l Hne. apply Hfl. set_solver.
Qed.

(** X12.  [swap], member and free, exchanges the chains and the sizes of
    two list objects and nothing else: each list object now has the cells
    of the other, at the addresses they had, so iterators into them stay on
    their nodes; the heap is the same; no other list object changes. *)
Theorem swap_exchanges s this other c1 c2 :
  is_list s this c1 → is_list s other c2 →
  ∃ s',
    swap this other s = Ret tt s' ∧
    swap_lists this other s = Ret tt s' ∧
    is_list s' this c2 ∧ is_list s' other c1 ∧
    heap s' = heap s ∧
    (∀ l, l ≠ this → l ≠ other → lists s' !! l = lists s !! l) ∧
    budget s' = budget s.
Proof.
  intros H1 H2.
  destruct (swap_spec s this other c1 c2 H1 H2)
    as (s' & Hrun & H1' & H2' & [Hfl _] & Hh & Hb).
  exists s'. do 5 (split; [done|]). split; [|done].
  intros l Hn1 Hn2. apply Hfl. set_solver.
Qed.

(** X13.  Swapping twice gives both lists back, and [swap] is symmetric:
    [a.swap(b)] and [b.swap(a)] leave each list with the same cells. *)
Theorem swap_twice s this other c1 c2 :
  is_list s this c1 → is_list s other c2 →
  ∃ s1 s2 s1',
    swap this other s = Ret tt s1 ∧
    swap this other s1 = Ret tt s2 ∧
    is_list s2 this c1 ∧ is_list s2 other c2 ∧ heap s2 = heap s ∧
    swap other this s = Ret tt s1' ∧
    is_list s1' this c2 ∧ is_list s1' other c1.
Proof.
  intros H1 H2.
  destruct (swap_spec s this other c1 c2 H1 H2)
    as (s1 & Hrun1 & H1' & H2' & _ & Hh1 & _).
  destruct (swap_spec s1 this other c2 c1 H1' H2')
    as (s2 & Hrun2 & H1'' & H2'' & _ & Hh2 & _).
  destruct (swap_spec s other this c2 c1 H2 H1)
    as (s1' & Hrun1' & Ho & Ht & _).
  exists s1, s2, s1'. do 4 (split; [done|]).
  split; [by rewrite Hh2|]. done.
Qed.

End FrontFacts.

(** ** Construction, destruction and equality *)

Section LifetimeFacts.
Context {T : Type} `{Element T}.
Implicit Types (s : state T) (cells c new : list (loc * T)) (this : loc).

(** X14.  The initializer-list constructor.  While [new] succeeds it makes
    a list object at a free address, out of nodes that were free, holding
    the values in the order given, and touches no other list object or
    node.  When [new] throws on the way, the nodes built so far are freed:
    list objects and heap are as they were before the call. *)
Theorem construct_values_correct s fuel (vs : list T) :
  length vs ≤ fuel →
  (can_alloc_n (length vs) s →
   ∃ this new s',
     construct_values fuel vs s = Ret this s' ∧
     lists s !! this = None ∧
     is_list s' this new ∧ new.*2 = vs ∧
     (∀ a, a ∈ new.*1 → heap s !! a = None) ∧
     iterate fuel this s' = Ret vs s' ∧
     GetSize this s' = Ret (N.of_nat (length vs)) s' ∧
     (∀ l, l ≠ this → lists s' !! l = lists s !! l) ∧
     (∀ a, a ∉ new.*1 → heap s' !! a = heap s !! a)) ∧
  (¬ can_alloc_n (length vs) s →
   ∃ s',
     construct_values fuel vs s = Throw s' ∧
     lists s' = lists s ∧ heap s' = heap s).
Proof.
  intros Hf.
  destruct (construct_values_spec s fuel vs Hf)
    as [(Hcan & new & s' & Hrun & Hl & Hvs & Hfresh & [Hfl Hfa] & _)
       |(Hcan & s' & Hrun & Hls & Hhs)].
  - split; [|done]. intros _. exists (fresh (dom (lists s))), new, s'.
    assert (length new = length vs) as Hlen
      by by rewrite <-(length_fmap snd new), Hvs.
    split; [done|]. split; [apply fresh_lists|].
    split; [done|]. split; [done|]. split; [done|].
    split; [|split; [|split; [|done]]].
    + rewrite <-Hvs. apply iterate_spec; [done|lia].
    + rewrite <-Hlen. by apply GetSize_spec.
    + intros l Hne. apply Hfl. set_solver.
  - split; [done|]. intros _. by exists s'.
Qed.

(** X15.  When the copy constructor throws, nothing is left behind: list
    objects and heap are as they were before the call, and the source is
    the list it was. *)
Theorem construct_copy_throws_unchanged s fuel other cells :
  is_list s other cells → length cells ≤ fuel →
  ¬ can_alloc_n (length cells) s →
  ∃ s',
    construct_copy fuel other s = Throw s' ∧
    lists s' = lists s ∧ heap s' = heap s ∧
    is_list s' other cells.
Proof.
  intros Hl Hf Hcan.
  destruct (construct_copy_spec s fuel other cells Hl Hf)
    as [(Hcan' & _)|(_ & s' & Hrun & Hls & Hhs)]; [done|].
  exists s'. do 3 (split; [done|]). by eapply is_list_ext.
Qed.

Lemma Create_values_spec s fuel this (vs : list T) :
  is_list s this [] → length vs ≤ fuel →
  ∃ new s',
    is_list s' this new ∧
    (∀ a, a ∈ new.*1 → heap s !! a = None) ∧
    frame [this] new.*1 s s' ∧
    ((can_alloc_n (length vs) s ∧
      Create fuel this (array_begin vs) (array_end vs) s = Ret tt s' ∧
      new.*2 = vs)
     ∨
     (¬ can_alloc_n (length vs) s ∧
      Create fuel this (array_begin vs) (array_end vs) s = Throw s' ∧
      length new < length vs ∧ new.*2 = take (length new) vs)).
Proof.
  intros Hl Hf.
  destruct (Create_loop_spec [] [] s fuel this
              (array_begin vs) (array_end vs) vs s [])
    as (new & s' & Hl' & Hfresh & Hfr & _ & Hcase); try done.
  { apply (yields_array _ vs 0). lia. }
  { intros Hin. by apply elem_of_nil in Hin. }
  { intros a Ha. by apply elem_of_nil in Ha. }
  { intros a Ha. by apply elem_of_nil in Ha. }
  exists new, s'. do 3 (split; [done|]).
  destruct Hcase as [(Hcan & Hrun & Hvs & _)|(Hcan & Hrun & Hlen & Hpre)].
  - left. done.
  - right. done.
Qed.

(** X16.  [Create] on an empty list.  While [new] succeeds it appends the
    values of the range in order.  When [new] throws on the way, [Create]
    itself rolls nothing back: the list is left holding the values built so
    far, a proper prefix of the range, with a matching [size_]. *)
Theorem Create_appends_or_keeps_prefix s fuel this (vs : list T) :
  is_list s this [] → length vs ≤ fuel →
  (can_alloc_n (length vs) s →
   ∃ new s',
     Create fuel this (array_begin vs) (array_end vs) s = Ret tt s' ∧
     is_list s' this new ∧ new.*2 = vs ∧
     GetSize this s' = Ret (N.of_nat (length vs)) s') ∧
  (¬ can_alloc_n (length vs) s →
   ∃ new s',
     Create fuel this (array_begin vs) (array_end vs) s = Throw s' ∧
     is_list s' this new ∧
     length new < length vs ∧ new.*2 = take (length new) vs ∧
     GetSize this s' = Ret (N.of_nat (length new)) s').
Proof.
  intros Hl Hf.
  destruct (Create_values_spec s fuel this vs Hl Hf)
    as (new & s' & Hl' & _ & _ & [(Hcan & Hrun & Hvs)|(Hcan & Hrun & Hlen & Hpre)]).
  - split; [|done]. intros _. exists new, s'.
    do 3 (split; [done|]).
    rewrite <-Hvs, length_fmap. by apply GetSize_spec.
  - split; [done|]. intros _. exists new, s'.
    do 4 (split; [done|]). by apply GetSize_spec.
Qed.

(** X17.  The destructor frees the nodes of its list, these and no others,
    and the list object is gone; other list objects are not touched. *)
Theorem destroy_frees_all s this cells fuel :
  is_list s this cells → length cells ≤ fuel →
  ∃ s',
    destroy fuel this s = Ret tt s' ∧
    lists s' !! this = None ∧
    dom (heap s') = dom (heap s) ∖ list_to_set cells.*1 ∧
    (∀ a, a ∉ cells.*1 → heap s' !! a = heap s !! a) ∧
    (∀ l, l ≠ this → lists s' !! l = lists s !! l).
Proof.
  intros Hl Hf.
  destruct (destroy_spec s this cells fuel Hl Hf)
    as (s' & Hrun & Hnone & [Hfl Hfa] & Hdel & _).
  exists s'. split; [done|]. split; [done|]. split; [|split; [done|]].
  - apply set_eq. intros a.
    rewrite elem_of_difference, !elem_of_dom, elem_of_list_to_set.
    destruct (decide (a ∈ cells.*1)) as [Hin|Hout].
    + rewrite (Hdel a Hin). split; [by intros [? ?]|by intros [_ ?]].
    + rewrite (Hfa a Hout). tauto.
  - intros l Hne. apply Hfl. set_solver.
Qed.

(** X18.  A list that is constructed and then destroyed leaves no trace:
    list objects and heap are what they were before the construction. *)
Theorem construct_destroy_roundtrip s fuel (vs : list T) :
  length vs ≤ fuel → can_alloc_n (length vs) s →
  ∃ this s1 s2,
    construct_values fuel vs s = Ret this s1 ∧
    destroy fuel this s1 = Ret tt s2 ∧
    lists s2 = lists s ∧ heap s2 = heap s.
Proof.
  intros Hf Hcan.
  destruct (construct_values_spec s fuel vs Hf)
    as [(_ & new & s1 & Hrun1 & Hl1 & Hvs & Hfresh & [Hfl1 Hfa1] & _)
       |(Hcan' & _)]; [|done].
  assert (length new ≤ fuel) as Hf'.
  { by rewrite <-(length_fmap snd new), Hvs. }
  destruct (destroy_spec s1 _ new fuel Hl1 Hf')
    as (s2 & Hrun2 & Hnone & [Hfl2 Hfa2] & Hdel & _).
  exists (fresh (dom (lists s))), s1, s2. split; [done|]. split; [done|].
  split; apply map_eq; intros x.
  - destruct (decide (x = fresh (dom (lists s)))) as [->|Hne].
    + by rewrite Hnone, fresh_lists.
    + rewrite Hfl2, Hfl1; [done|set_solver..].
  - destruct (decide (x ∈ new.*1)) as [Hin|Hout].
    + by rewrite (Hdel x Hin), (Hfresh x Hin).
    + by rewrite Hfa2, Hfa1.
Qed.

Lemma equal_outcome_same_length (xs ys : list T) :
  length xs = length ys →
  equal_outcome xs ys
  = Some (forallb (fun p => T_eq p.1 p.2) (zip xs ys)).
Proof.
  revert ys. induction xs as [|x xs IH]; intros [|y ys] Hlen; simpl in *;
    try done.
  destruct (T_eq x y); simpl; [|done]. apply IH. lia.
Qed.

(** X19.  On two lists of the same length, [operator==] returns true
    exactly when the elements at all positions compare equal under the
    element type's [operator==], and [operator!=] returns the opposite; the
    lists are only read. *)
Theorem op_eq_same_length s lhs rhs c1 c2 fuel :
  is_list s lhs c1 → is_list s rhs c2 →
  length c1 = length c2 → length c1 ≤ fuel →
  op_eq fuel lhs rhs s
    = Ret (forallb (fun p => T_eq p.1 p.2) (zip c1.*2 c2.*2)) s ∧
  op_ne fuel lhs rhs s
    = Ret (negb (forallb (fun p => T_eq p.1 p.2) (zip c1.*2 c2.*2))) s.
Proof.
  intros H1 H2 Hlen Hf.
  assert (op_eq fuel lhs rhs s
          = Ret (forallb (fun p => T_eq p.1 p.2) (zip c1.*2 c2.*2)) s) as Heq.
  { rewrite (op_eq_spec _ _ _ _ _ _ H1 H2 Hf).
    rewrite equal_outcome_same_length; [done|]. by rewrite !length_fmap. }
  split; [done|]. unfold op_ne. by erewrite bind_Ret by exact Heq.
Qed.

Lemma equal_outcome_refl (xs : list T) :
  (∀ x, x ∈ xs → T_eq x x = true) → equal_outcome xs xs = Some true.
Proof.
  induction xs as [|x xs IH]; intros Hrefl; simpl; [done|].
  rewrite Hrefl by set_solver. apply IH. intros y Hy. apply Hrefl. set_solver.
Qed.

(** X20.  A copy compares equal to its source, both ways, when every
    element of the source compares equal to itself. *)
Theorem copy_compares_equal s fuel src cells :
  is_list s src cells → length cells ≤ fuel →
  can_alloc_n (length cells) s →
  (∀ x, x ∈ cells.*2 → T_eq x x = true) →
  ∃ copy s1,
    construct_copy fuel src s = Ret copy s1 ∧
    op_eq fuel src copy s1 = Ret true s1 ∧
    op_eq fuel copy src s1 = Ret true s1 ∧
    op_ne fuel copy src s1 = Ret false s1.
Proof.
  intros Hsrc Hf Hcan Hrefl.
  destruct (construct_copy_spec s fuel src cells Hsrc Hf)
    as [(_ & new & s1 & Hrun1 & Hcopy1 & Hvs & Hfresh & Hfr1 & _)
       |(Hcan' & _)]; [|done].
  pose proof (fresh_lists (lists s)) as Hnone.
  set (copy := fresh (dom (lists s))) in *.
  assert (copy ≠ src) as Hne.
  { intros ->. destruct Hsrc as (o & Ho & _). congruence. }
  assert (is_list s1 src cells) as Hsrc1.
  { eapply is_list_frame; [exact Hfr1| | |exact Hsrc]; [set_solver|].
    intros a Ha Hin. destruct (is_list_alive _ _ _ _ Hsrc Ha) as [n Hn].
    rewrite (Hfresh a Hin) in Hn. done. }
  assert (length new = length cells) as Hlen.
  { by rewrite <-(length_fmap snd new), Hvs, length_fmap. }
  assert (op_eq fuel copy src s1 = Ret true s1) as Heq.
  { rewrite (op_eq_spec _ _ _ _ _ _ Hcopy1 Hsrc1) by lia.
    by rewrite Hvs, equal_outcome_refl. }
  exists copy, s1. split; [done|]. split; [|split; [done|]].
  - rewrite (op_eq_spec _ _ _ _ _ _ Hsrc1 Hcopy1) by lia.
    by rewrite Hvs, equal_outcome_refl.
  - unfold op_ne. by erewrite bind_Ret by exact Heq.
Qed.

End LifetimeFacts.

(** ** What [noexcept] promises *)

Section NoThrow.
Context {T : Type} `{Element T}.
Implicit Types (s : state T) (this : loc).

Lemma no_throw_bind {A B} (m : M T A) (k : A → M T B) :
  no_throw m → (∀ a, no_throw (k a)) → no_throw (m ≫= k).
Proof.
  intros Hm Hk s s'. unfold mbind, M_bind.
  destruct (m s) as [a s1|s1|f] eqn:Hms; [apply Hk| |done].
  by destruct (Hm s s1).
Qed.

Lemma no_throw_ret {A} (a : A) : no_throw (T:=T) (mret a).
Proof. by intros s s'. Qed.

Lemma no_throw_load p : no_throw (T:=T) (load p).
Proof.
  intros s s'. unfold load.
  destruct p as [[l|a]|]; [destruct (lists s !! l)|destruct (heap s !! a)|];
    done.
Qed.

Lemma no_throw_store_next p q : no_throw (T:=T) (store_next p q).
Proof.
  intros s s'. unfold store_next.
  destruct p as [[l|a]|]; [destruct (lists s !! l)|destruct (heap s !! a)|];
    done.
Qed.

Lemma no_throw_delete_Node p : no_throw (T:=T) (delete_Node p).
Proof.
  intros s s'. unfold delete_Node.
  destruct p as [[l|a]|]; [|destruct (heap s !! a)|]; done.
Qed.

Lemma no_throw_get_size this : no_throw (T:=T) (get_size this).
Proof. intros s s'. unfold get_size. by destruct (lists s !! this). Qed.

Lemma no_throw_set_size this n : no_throw (T:=T) (set_size this n).
Proof. intros s s'. unfold set_size. by destruct (lists s !! this). Qed.

Lemma no_throw_decr_size this : no_throw (T:=T) (decr_size this).
Proof.
  apply no_throw_bind; [apply no_throw_get_size|].
  intros n. apply no_throw_set_size.
Qed.

Ltac no_throw_steps :=
  repeat first
    [ apply no_throw_ret | apply no_throw_load | apply no_throw_store_next
    | apply no_throw_delete_Node | apply no_throw_get_size
    | apply no_throw_set_size | apply no_throw_decr_size
    | apply no_throw_bind; [|intros ?] ].

Lemma no_throw_Clear_loop fuel this : no_throw (T:=T) (Clear_loop fuel this).
Proof.
  induction fuel as [|fuel IH]; simpl.
  - apply no_throw_bind; [apply no_throw_load|]. intros h.
    destruct (next_node h); [by intros s s'|apply no_throw_ret].
  - apply no_throw_bind; [apply no_throw_load|]. intros h.
    destruct (next_node h); [|apply no_throw_ret].
    no_throw_steps. exact IH.
Qed.

Lemma no_throw_Clear fuel this : no_throw (T:=T) (Clear fuel this).
Proof.
  unfold Clear. apply no_throw_bind; [apply no_throw_Clear_loop|].
  intros _. apply no_throw_set_size.
Qed.

(** X21.  The operations declared [noexcept] do not throw, in any state,
    well formed or not: the iterator operations, [begin], [GetSize],
    [IsEmpty], [Clear], [EraseAfter], [PopFront], [swap] and the
    destructor.  Only the operations that build a node can throw. *)
Theorem noexcept_operations_do_not_throw fuel this other
    (pos : BasicIterator) :
  no_throw (T:=T) (iterator_incr pos) ∧
  no_throw (T:=T) (iterator_post_incr pos) ∧
  no_throw (T:=T) (iterator_deref pos) ∧
  no_throw (T:=T) (begin this) ∧
  no_throw (T:=T) (GetSize this) ∧
  no_throw (T:=T) (IsEmpty this) ∧
  no_throw (T:=T) (Clear fuel this) ∧
  no_throw (T:=T) (EraseAfter this pos) ∧
  no_throw (T:=T) (PopFront this) ∧
  no_throw (T:=T) (swap this other) ∧
  no_throw (T:=T) (destroy fuel this).
Proof.
  assert (no_throw (T:=T) (iterator_incr pos)) as Hincr.
  { unfold iterator_incr. no_throw_steps. }
  assert (∀ p, no_throw (T:=T) (EraseAfter this p)) as Herase.
  { intros p. unfold EraseAfter. no_throw_steps. }
  repeat split.
  - done.
  - unfold iterator_post_incr. apply no_throw_bind; [done|].
    intros it. apply no_throw_ret.
  - unfold iterator_deref. no_throw_steps.
  - unfold begin. no_throw_steps.
  - apply no_throw_get_size.
  - unfold IsEmpty. no_throw_steps.
  - apply no_throw_Clear.
  - apply Herase.
  - unfold PopFront. apply no_throw_bind; [apply Herase|].
    intros _. apply no_throw_ret.
  - unfold swap. no_throw_steps.
  - unfold destroy. apply no_throw_bind; [apply no_throw_Clear|].
    intros _ s s'. unfold dealloc_list. by destruct (lists s !! this).
Qed.

End NoThrow.

(** ** No node is lost *)

Section NoLeak.
Context {T : Type} `{Element T}.
Implicit Types (s : state T) (cells c new : list (loc * T)) (this l : loc)
               (L A : list loc).

Lemma no_leak_ext s s' :
  lists s' = lists s → heap s' = heap s → no_leak s → no_leak s'.
Proof.
  intros Hl Hh Hno a Ha. rewrite Hh in Ha.
  destruct (Hno a Ha) as (l & c & Hc & Hin). exists l, c.
  split; [|done]. by eapply is_list_ext.
Qed.

Lemma no_leak_initial b : no_leak (initial (T:=T) b).
Proof. intros a [n Hn]. simpl in Hn. by rewrite lookup_empty in Hn. Qed.

(** A step that touches only the list objects [L] and the addresses [A]
    keeps every node owned, when the nodes of [A] and of the old lists of
    [L] that are still alive belong to a list afterwards. *)
Lemma no_leak_update L A s s' :
  wf s → no_leak s → frame L A s s' →
  (∀ a, a ∈ A →
     (∃ l0 c0, l0 ∈ L ∧ is_list s l0 c0 ∧ a ∈ c0.*1) ∨ heap s !! a = None) →
  (∀ a, is_Some (heap s' !! a) →
     a ∈ A ∨ (∃ l0 c0, l0 ∈ L ∧ is_list s l0 c0 ∧ a ∈ c0.*1) →
     owned s' a) →
  no_leak s'.
Proof.
  intros [Hall Hdisj] Hno Hfr Hfp Hown a Hal.
  destruct (decide (a ∈ A)) as [HA|HA]; [by apply Hown; [|left]|].
  rewrite (proj2 Hfr a HA) in Hal.
  destruct (Hno a Hal) as (l & c & Hc & Hin).
  destruct (decide (l ∈ L)) as [Hl|Hl].
  - apply Hown; [by rewrite (proj2 Hfr a HA)|]. right. by exists l, c.
  - exists l, c. split; [|done].
    eapply is_list_frame; [exact Hfr|done| |done].
    intros x Hx Hx'. destruct (Hfp x Hx') as [(l0 & c0 & Hl0 & Hc0 & Hx0)|Hfree].
    + refine (Hdisj l l0 c c0 _ Hc Hc0 x Hx Hx0). intros ->. done.
    + destruct (is_list_alive _ _ _ _ Hc Hx) as [n Hn]. congruence.
Qed.

Lemma no_leak_update_one s s' this cells cells' A :
  wf s → no_leak s → is_list s this cells → is_list s' this cells' →
  frame [this] A s s' →
  (∀ a, a ∈ A → a ∈ cells.*1 ∨ heap s !! a = None) →
  (∀ a, is_Some (heap s' !! a) → a ∈ A ∨ a ∈ cells.*1 → a ∈ cells'.*1) →
  no_leak s'.
Proof.
  intros Hwf Hno Hl Hl' Hfr HA Hnew.
  apply (no_leak_update [this] A s s'); try done.
  - intros a Ha. destruct (HA a Ha) as [Hin|Hf]; [left|by right].
    exists this, cells. set_solver.
  - intros a Hal Hcase. exists this, cells'. split; [done|].
    apply Hnew; [done|]. destruct Hcase as [?|(l0 & c0 & Hl0 & Hc0 & Hin)];
      [by left|right].
    apply list_elem_of_singleton in Hl0 as ->.
    by rewrite (is_list_det _ _ _ _ Hl Hc0).
Qed.

Lemma no_leak_construct s s' this new :
  wf s → no_leak s → lists s !! this = None → is_list s' this new →
  (∀ a, a ∈ new.*1 → heap s !! a = None) →
  frame [this] new.*1 s s' →
  no_leak s'.
Proof.
  intros Hwf Hno Hnone Hl' Hfresh Hfr.
  apply (no_leak_update [this] new.*1 s s'); try done.
  - intros a Ha. right. by apply Hfresh.
  - intros a Hal [Hin|(l0 & c0 & Hl0 & (o & Ho & _) & _)].
    + by exists this, new.
    + apply list_elem_of_singleton in Hl0 as ->. congruence.
Qed.

Ltac settle Hrun :=
  let s' := fresh "s'" in
  let Hr := fresh "Hr" in
  intros s' [Hr|Hr]; rewrite Hrun in Hr; try discriminate Hr;
  injection Hr as <-.

Lemma run_no_leak s k fuel :
  wf s → no_leak s → permitted s k →
  size (heap s) ≤ fuel → values_length k ≤ fuel →
  ∀ s', run fuel k s = Ret tt s' ∨ run fuel k s = Throw s' → no_leak s'.
Proof.
  intros Hwf Hno Hperm Hfuel Hvals.
  destruct k as [|values|other|this|this rhs|this v|this pos v|this pos
                 |this|this|this other|this values|this other];
    simpl in Hperm, Hvals |- *.
  - (* SingleLinkedList() *)
    destruct (alloc_list_spec s) as (s1 & Hrun1 & Hnone & _ & Hl1 & Hfr1 & _).
    assert ((alloc_list;; mret tt) s = Ret tt s1) as Hrun
      by by erewrite bind_Ret by exact Hrun1.
    settle Hrun. eapply (no_leak_construct s _ _ []); [done..| |done].
    intros a Ha. by apply elem_of_nil in Ha.
  - (* SingleLinkedList(values) *)
    destruct (construct_values_spec s fuel values Hvals)
      as [(_ & new & s1 & Hrun1 & Hl1 & _ & Hfresh & Hfr1 & _)
         |(_ & s1 & Hrun1 & Hls & Hhs)].
    + assert ((construct_values fuel values;; mret tt) s = Ret tt s1) as Hrun
        by by erewrite bind_Ret by exact Hrun1.
      settle Hrun. eapply no_leak_construct; [done|done|apply fresh_lists|done|done|done].
    + assert ((construct_values fuel values;; mret tt) s = Throw s1) as Hrun
        by by erewrite bind_Throw by exact Hrun1.
      settle Hrun. by eapply no_leak_ext.
  - (* SingleLinkedList(other) *)
    destruct (proj1 Hwf other Hperm) as [co Hco].
    pose proof (is_list_length _ _ _ Hco) as Hlen.
    destruct (construct_copy_spec s fuel other co Hco ltac:(lia))
      as [(_ & new & s1 & Hrun1 & Hl1 & _ & Hfresh & Hfr1 & _)
         |(_ & s1 & Hrun1 & Hls & Hhs)].
    + assert ((construct_copy fuel other;; mret tt) s = Ret tt s1) as Hrun
        by by erewrite bind_Ret by exact Hrun1.
      settle Hrun. eapply no_leak_construct; [done|done|apply fresh_lists|done|done|done].
    + assert ((construct_copy fuel other;; mret tt) s = Throw s1) as Hrun
        by by erewrite bind_Throw by exact Hrun1.
      settle Hrun. by eapply no_leak_ext.
  - (* ~SingleLinkedList() *)
    destruct (proj1 Hwf this Hperm) as [ct Hct].
    pose proof (is_list_length _ _ _ Hct) as Hlen.
    destruct (destroy_spec s this ct fuel Hct ltac:(lia))
      as (s1 & Hrun & Hnone & Hfr1 & Hdel & _).
    settle Hrun. apply (no_leak_update [this] ct.*1 s); try done.
    + intros a Ha. left. exists this, ct. set_solver.
    + intros a [n Hn] [Hin|(l0 & c0 & Hl0 & Hc0 & Hin)].
      * rewrite (Hdel a Hin) in Hn. done.
      * apply list_elem_of_singleton in Hl0 as ->.
        rewrite (is_list_det _ _ _ _ Hc0 Hct) in Hin.
        rewrite (Hdel a Hin) in Hn. done.
  - (* operator= *)
    destruct Hperm as [Hthis Hrhs].
    destruct (proj1 Hwf this Hthis) as [ct Hct].
    destruct (proj1 Hwf rhs Hrhs) as [cr Hcr].
    pose proof (is_list_length _ _ _ Hct) as Hlent.
    pose proof (is_list_length _ _ _ Hcr) as Hlenr.
    destruct (assign_spec s fuel this rhs ct cr Hct Hcr ltac:(lia) ltac:(lia))
      as [(_ & new & s1 & Hrun1 & Hl1 & _ & Hfresh & Hfr1 & Hdel & _)
         |(_ & s1 & Hrun1 & Hls & Hhs)].
    + assert ((assign fuel this rhs;; mret tt) s = Ret tt s1) as Hrun
        by by erewrite bind_Ret by exact Hrun1.
      settle Hrun. eapply (no_leak_update_one s _ this ct new); [done..| |].
      * intros a Ha. apply elem_of_app in Ha as [Ha|Ha]; auto.
      * intros a [n Hn] Hcase.
        assert (a ∈ ct.*1 → False) as Hnot.
        { intros Hin. rewrite (Hdel a Hin) in Hn. done. }
        destruct Hcase as [Hin|Hin]; [|by destruct Hnot].
        apply elem_of_app in Hin as [Hin|Hin]; [by destruct Hnot|done].
    + assert ((assign fuel this rhs;; mret tt) s = Throw s1) as Hrun
        by by erewrite bind_Throw by exact Hrun1.
      settle Hrun. by eapply no_leak_ext.
  - (* PushFront *)
    destruct (proj1 Hwf this Hperm) as [ct Hct].
    destruct (decide (can_alloc s)) as [Hcan|Hcan].
    + destruct (PushFront_spec s this ct v Hct Hcan)
        as (s1 & Hrun & Hl1 & Hfr1 & _).
      pose proof (fresh_heap (heap s)) as Hfresh.
      settle Hrun. eapply (no_leak_update_one s _ this ct); [done..| |].
      * intros a Ha. apply list_elem_of_singleton in Ha as ->. by right.
      * intros a _ Hcase. simpl. set_solver.
    + pose proof (PushFront_throw s this ct v Hct Hcan) as Hrun.
      by settle Hrun.
  - (* InsertAfter *)
    destruct Hperm as (c1 & c2 & Hct & Hpos).
    apply iterator_eta in Hpos as ->.
    destruct (decide (can_alloc s)) as [Hcan|Hcan].
    + destruct (InsertAfter_spec s this c1 c2 v Hct Hcan)
        as (s1 & Hrun1 & Hl1 & Hfr1 & _).
      pose proof (fresh_heap (heap s)) as Hfresh.
      assert ((InsertAfter this (mkIterator (last_ptr this c1)) v;; mret tt) s
              = Ret tt s1) as Hrun by by erewrite bind_Ret by exact Hrun1.
      settle Hrun. eapply (no_leak_update_one s _ this (c1 ++ c2)); [done..| |].
      * intros a Ha. rewrite fmap_app.
        apply elem_of_cons in Ha as [->|Ha]; [by right|left; set_solver].
      * intros a _ Hcase. rewrite fmap_app in Hcase |- *. simpl. set_solver.
    + pose proof (InsertAfter_throw s this c1 c2 v Hct Hcan) as Hrun1.
      assert ((InsertAfter this (mkIterator (last_ptr this c1)) v;; mret tt) s
              = Throw s) as Hrun by by erewrite bind_Throw by exact Hrun1.
      by settle Hrun.
  - (* EraseAfter *)
    destruct Hperm as (c1 & c2 & Hct & Hpos).
    apply iterator_eta in Hpos as ->.
    destruct c2 as [|[a v] c2].
    + rewrite app_nil_r in Hct.
      pose proof (EraseAfter_at_end s this c1 Hct) as Hrun1.
      intros s' [Hr|Hr]; unfold mbind, M_bind in Hr; by rewrite Hrun1 in Hr.
    + destruct (EraseAfter_spec s this c1 a v c2 Hct)
        as (s1 & Hrun1 & Hl1 & Hfr1 & Hdom & _).
      assert ((EraseAfter this (mkIterator (last_ptr this c1));; mret tt) s
              = Ret tt s1) as Hrun by by erewrite bind_Ret by exact Hrun1.
      settle Hrun.
      eapply (no_leak_update_one s _ this (c1 ++ (a, v) :: c2)); [done..| |].
      * intros x Hx. left. rewrite fmap_app. simpl. set_solver.
      * intros x Hal Hcase. apply elem_of_dom in Hal. rewrite Hdom in Hal.
        rewrite fmap_app in Hcase |- *. simpl in Hcase. set_solver.
  - (* PopFront *)
    destruct (proj1 Hwf this Hperm) as [[|[a v] ct] Hct].
    + pose proof (EraseAfter_at_end s this [] Hct) as Hrun1.
      assert (PopFront this s = Fail UndefinedBehaviour) as Hrun.
      { unfold PopFront, mbind, M_bind.
        change (before_begin this)
          with (mkIterator (last_ptr (T:=T) this [])).
        by rewrite Hrun1. }
      intros s' [Hr|Hr]; by rewrite Hrun in Hr.
    + destruct (PopFront_spec s this a v ct Hct)
        as (s1 & Hrun & Hl1 & Hfr1 & Hdom & _).
      settle Hrun.
      eapply (no_leak_update_one s _ this ((a, v) :: ct)); [done..| |].
      * intros x Hx. left. simpl. set_solver.
      * intros x Hal Hcase. apply elem_of_dom in Hal. rewrite Hdom in Hal.
        simpl in Hcase. set_solver.
  - (* Clear *)
    destruct (proj1 Hwf this Hperm) as [ct Hct].
    pose proof (is_list_length _ _ _ Hct) as Hlen.
    destruct (Clear_spec s this ct fuel Hct ltac:(lia))
      as (s1 & Hrun & Hl1 & Hfr1 & Hdel & _).
    settle Hrun. eapply (no_leak_update_one s _ this ct []); [done..| |].
    + intros a Ha. by left.
    + intros a [n Hn] Hcase.
      assert (a ∈ ct.*1) as Hin by (by destruct Hcase).
      rewrite (Hdel a Hin) in Hn. done.
  - (* swap *)
    destruct Hperm as [Hthis Hother].
    destruct (proj1 Hwf this Hthis) as [ct Hct].
    destruct (proj1 Hwf other Hother) as [co Hco].
    destruct (swap_spec s this other ct co Hct Hco)
      as (s1 & Hrun & Hl1 & Hl2 & Hfr1 & _).
    settle Hrun. apply (no_leak_update [this; other] [] s); try done.
    + intros a Ha. by apply elem_of_nil in Ha.
    + intros a _ [Hin|(l0 & c0 & Hl0 & Hc0 & Hin)];
        [by apply elem_of_nil in Hin|].
      apply elem_of_cons in Hl0 as [->|Hl0];
        [|apply list_elem_of_singleton in Hl0 as ->].
      * rewrite (is_list_det _ _ _ _ Hc0 Hct) in Hin. by exists other, ct.
      * rewrite (is_list_det _ _ _ _ Hc0 Hco) in Hin. by exists this, co.
  - (* Create, from an initializer list *)
    destruct (Create_values_spec s fuel this values Hperm Hvals)
      as (new & s1 & Hl1 & Hfresh & Hfr1 & Hcase).
    assert (no_leak s1) as Hno1.
    { eapply (no_leak_update_one s _ this [] new); [done..| |]; auto.
      intros a _ [Hin|Hin]; [done|]. by apply elem_of_nil in Hin. }
    destruct Hcase as [(_ & Hrun & _)|(_ & Hrun & _)]; by settle Hrun.
  - (* Create, from the range of a list *)
    destruct Hperm as [Hct Hother].
    destruct (proj1 Hwf other Hother) as [co Hco].
    pose proof (is_list_length _ _ _ Hco) as Hlen.
    pose proof Hco as (o & Ho & _ & _ & Hc).
    destruct (Create_loop_spec [] co.*1 s fuel this
                (mkIterator (first_ptr None co)) (mkIterator None) co.*2 s [])
      as (new & s1 & Hl1 & Hfresh & Hfr1 & _ & Hcase); try done.
    { rewrite (lseg_first _ _ _ _ Hc) in Hc. by apply yields_chain. }
    { intros Hin. by apply elem_of_nil in Hin. }
    { intros a Ha. by eapply is_list_alive. }
    { intros a _ Hin. by apply elem_of_nil in Hin. }
    { rewrite length_fmap. lia. }
    simpl in Hl1, Hfr1.
    assert (no_leak s1) as Hno1.
    { eapply (no_leak_update_one s _ this [] new); [done..| |]; auto.
      intros a _ [Hin|Hin]; [done|]. by apply elem_of_nil in Hin. }
    assert (∀ r, Create_loop fuel this (last_ptr (T:=T) this [])
                   (mkIterator (first_ptr None co)) (mkIterator None) s = r →
                 (b ← begin other; Create fuel this b (end_ other)) s = r)
      as Hbegin.
    { intros r <-. by erewrite bind_Ret by by apply begin_spec. }
    destruct Hcase as [(_ & Hrun & _)|(_ & Hrun & _)];
      apply Hbegin in Hrun; by settle Hrun.
Qed.

Lemma reachable_no_leak s : reachable s → no_leak s.
Proof.
  induction 1 as [b|s b Hs IH|s k fuel s' Hs IH Hperm Hrun
                 |s k fuel s' Hs IH Hperm Hrun].
  - apply no_leak_initial.
  - by eapply no_leak_ext.
  - eapply (run_no_leak s k (fuel `max` (size (heap s) `max` values_length k)));
      [by apply reachable_wf|done|done|lia|lia|].
    left. eapply run_more_fuel; [|exact Hrun|done]. lia.
  - eapply (run_no_leak s k (fuel `max` (size (heap s) `max` values_length k)));
      [by apply reachable_wf|done|done|lia|lia|].
    right. eapply run_more_fuel; [|exact Hrun|done]. lia.
Qed.

(** X22.  No node is lost.  In every state reached by permitted calls of
    the public operations, whether they return or throw, each node of the
    heap is in the chain of one list object and of no other; so when no
    list object is alive the heap is empty. *)
Theorem reachable_states_do_not_leak s :
  reachable s →
  (∀ a, is_Some (heap s !! a) →
     ∃ l cells, is_list s l cells ∧ a ∈ cells.*1 ∧
       ∀ l' cells', is_list s l' cells' → a ∈ cells'.*1 → l' = l) ∧
  (lists s = ∅ → heap s = ∅).
Proof.
  intros Hr. pose proof (reachable_no_leak s Hr) as Hno.
  destruct (reachable_wf s Hr) as [Hall Hdisj]. split.
  - intros a Hal. destruct (Hno a Hal) as (l & c & Hc & Hin).
    exists l, c. split; [done|]. split; [done|].
    intros l' c' Hc' Hin'. destruct (decide (l' = l)) as [->|Hne]; [done|].
    destruct (Hdisj l' l c' c Hne Hc' Hc a Hin' Hin).
  - intros Hempty. apply map_eq. intros a. rewrite lookup_empty.
    destruct (heap s !! a) as [n|] eqn:Hn; [|done].
    destruct (Hno a) as (l & c & (o & Ho & _) & _); [eauto|].
    rewrite Hempty, lookup_empty in Ho. done.
Qed.

(** X23.  In every such state the size a list reports is the number of
    elements met by iterating it. *)
Theorem reachable_size_counts_elements s this :
  reachable s → is_Some (lists s !! this) →
  ∃ vs,
    iterate (size (heap s)) this s = Ret vs s ∧
    GetSize this s = Ret (N.of_nat (length vs)) s.
Proof.
  intros Hr Hal. destruct (proj1 (reachable_wf s Hr) this Hal) as [cells Hl].
  exists cells.*2. split.
  - apply iterate_spec; [done|]. by eapply is_list_length.
  - rewrite length_fmap. by apply GetSize_spec.
Qed.

End NoLeak.

(** ** Concrete runs *)

Module Examples.

Import Demo.

Local Open Scope Z_scope.
Local Open Scope positive_scope.

(** Checks [is_list] on a closed state by looking every cell up. *)
Ltac check_is_list :=
  eexists; split; [vm_compute; reflexivity|];
  split; [vm_compute; reflexivity|];
  split; [vm_compute; reflexivity|];
  unfold chain; simpl;
  repeat (split; [reflexivity|eexists; split; [vm_compute; reflexivity|]]);
  reflexivity.

Ltac check_can_alloc := split; vm_compute; [lia|discriminate].

Lemma list_10_20_is_list :
  is_list list_10_20 1 [(1, 10%Z); (2, 20%Z)].
Proof. check_is_list. Defined.

Lemma list_10_20_can_alloc : can_alloc list_10_20.
Proof. check_can_alloc. Defined.

Lemma list_1_2_3_is_list :
  is_list list_1_2_3 1 [(1, 1%Z); (2, 2%Z); (3, 3%Z)].
Proof. check_is_list. Defined.

Lemma lists_12_9_first : is_list lists_12_9 1 [(1, 1%Z); (2, 2%Z)].
Proof. check_is_list. Defined.

Lemma lists_12_9_second : is_list lists_12_9 2 [(3, 9%Z)].
Proof. check_is_list. Defined.

Lemma lists_12_123_first : is_list lists_12_123 1 [(1, 1%Z); (2, 2%Z)].
Proof. check_is_list. Defined.

Lemma lists_12_123_second :
  is_list lists_12_123 2 [(3, 1%Z); (4, 2%Z); (5, 3%Z)].
Proof. check_is_list. Defined.

Lemma lists_2_19_first : is_list lists_2_19 1 [(1, 2%Z)].
Proof. check_is_list. Defined.

Lemma lists_2_19_second : is_list lists_2_19 2 [(2, 1%Z); (3, 9%Z)].
Proof. check_is_list. Defined.

Lemma empty_list_is_list : is_list empty_list 1 [].
Proof. check_is_list. Defined.

(** [insert_after(before_begin(), 5)] on [{10, 20}] gives [{5, 10, 20}],
    and the iterator returned dereferences to 5. *)
Lemma InsertAfter_correct_witness :
  is_list list_10_20 1 ([] ++ [(1, 10%Z); (2, 20%Z)]) ∧
  can_alloc list_10_20 ∧
  ∃ it s',
    InsertAfter 1 (before_begin 1) 5%Z list_10_20 = Ret it s' ∧
    iterate 3 1 s' = Ret [5; 10; 20]%Z s' ∧
    GetSize 1 s' = Ret 3%N s' ∧
    iterator_deref it s' = Ret 5%Z s'.
Proof.
  split; [exact list_10_20_is_list|]. split; [exact list_10_20_can_alloc|].
  destruct (InsertAfter_correct list_10_20 1 [] [(1, 10%Z); (2, 20%Z)] 5%Z
              list_10_20_is_list list_10_20_can_alloc)
    as (a & s' & Hrun & _ & _ & _ & _ & Hl' & _ & Hsize & Hderef).
  exists (mkIterator (Some (Cell a))), s'.
  split; [exact Hrun|]. split; [|split; [exact Hsize|exact Hderef]].
  apply (iterate_spec s' 1 ([] ++ (a, 5%Z) :: [(1, 10%Z); (2, 20%Z)]) 3 Hl').
  simpl. lia.
Defined.

(** [erase_after] on [{1, 2, 3}] at the position of 1 gives [{1, 3}] and
    returns a position that dereferences to 3. *)
Lemma EraseAfter_correct_witness :
  is_list list_1_2_3 1 ([(1, 1%Z)] ++ (2, 2%Z) :: [(3, 3%Z)]) ∧
  ∃ it s',
    EraseAfter 1 (mkIterator (Some (Cell 1))) list_1_2_3 = Ret it s' ∧
    iterate 3 1 s' = Ret [1; 3]%Z s' ∧
    GetSize 1 s' = Ret 2%N s' ∧
    iterator_deref it s' = Ret 3%Z s'.
Proof.
  split; [exact list_1_2_3_is_list|].
  destruct (EraseAfter_correct list_1_2_3 1 [(1, 1%Z)] 2 2%Z [(3, 3%Z)]
              list_1_2_3_is_list)
    as (s' & Hrun & _ & Hl' & _ & Hsize & Hderef).
  exists (mkIterator (Some (Cell 3))), s'.
  split; [exact Hrun|]. split; [|split; [exact Hsize|exact Hderef]].
  apply (iterate_spec s' 1 ([(1, 1%Z)] ++ [(3, 3%Z)]) 3 Hl'). simpl. lia.
Defined.

(** Inserting 7 after the node of 10 in [{10, 20}] and erasing after that
    node again gives [{10, 20}] back. *)
Lemma InsertAfter_EraseAfter_roundtrip_witness :
  is_list list_10_20 1 ([(1, 10%Z)] ++ [(2, 20%Z)]) ∧
  can_alloc list_10_20 ∧
  ∃ it s1 it' s2,
    InsertAfter 1 (mkIterator (Some (Cell 1))) 7%Z list_10_20 = Ret it s1 ∧
    EraseAfter 1 (mkIterator (Some (Cell 1))) s1 = Ret it' s2 ∧
    iterate 2 1 s2 = Ret [10; 20]%Z s2 ∧
    GetSize 1 s2 = Ret 2%N s2.
Proof.
  split; [exact list_10_20_is_list|]. split; [exact list_10_20_can_alloc|].
  destruct (InsertAfter_EraseAfter_roundtrip list_10_20 1
              [(1, 10%Z)] [(2, 20%Z)] 7%Z
              list_10_20_is_list list_10_20_can_alloc)
    as (it & s1 & it' & s2 & Hrun1 & Hrun2 & Hl2 & Hsize & _).
  exists it, s1, it', s2.
  split; [exact Hrun1|]. split; [exact Hrun2|]. split; [|exact Hsize].
  apply (iterate_spec s2 1 ([(1, 10%Z)] ++ [(2, 20%Z)]) 2 Hl2). simpl. lia.
Defined.

(** Pushing 1, 2, 3 onto the front of an empty list gives [{3, 2, 1}]. *)
Lemma PushFront_reverses_witness :
  is_list empty_list 1 [] ∧
  can_alloc_n (length [1; 2; 3]%Z) empty_list ∧
  ∃ s',
    PushFront_all 1 [1; 2; 3]%Z empty_list = Ret tt s' ∧
    iterate 3 1 s' = Ret [3; 2; 1]%Z s' ∧
    GetSize 1 s' = Ret 3%N s'.
Proof.
  assert (can_alloc_n (length [1; 2; 3]%Z) empty_list) as Hcan
    by check_can_alloc.
  split; [exact empty_list_is_list|]. split; [exact Hcan|].
  destruct (PushFront_reverses empty_list 1 [1; 2; 3]%Z
              empty_list_is_list Hcan) as (s' & Hrun & Hiter & Hsize).
  exists s'. split; [exact Hrun|]. split; [|exact Hsize].
  apply (Hiter 3%nat). simpl. lia.
Defined.

(** [{1, 2} < {1, 2, 3}], and [{2} > {1, 9}]. *)
Lemma ordering_operators_lexicographic_witness :
  (is_list lists_12_123 1 [(1, 1%Z); (2, 2%Z)] ∧
   is_list lists_12_123 2 [(3, 1%Z); (4, 2%Z); (5, 3%Z)] ∧
   op_lt 2 1 2 lists_12_123 = Ret true lists_12_123 ∧
   op_ge 2 1 2 lists_12_123 = Ret false lists_12_123) ∧
  (is_list lists_2_19 1 [(1, 2%Z)] ∧
   is_list lists_2_19 2 [(2, 1%Z); (3, 9%Z)] ∧
   op_gt 2 1 2 lists_2_19 = Ret true lists_2_19 ∧
   op_le 2 1 2 lists_2_19 = Ret false lists_2_19).
Proof.
  split.
  - split; [exact lists_12_123_first|]. split; [exact lists_12_123_second|].
    destruct (ordering_operators_lexicographic lists_12_123 1 2 _ _ 2
                lists_12_123_first lists_12_123_second)
      as (Hlt & _ & _ & Hge); [simpl; lia|].
    split; [exact Hlt|exact Hge].
  - split; [exact lists_2_19_first|]. split; [exact lists_2_19_second|].
    destruct (ordering_operators_lexicographic lists_2_19 1 2 _ _ 2
                lists_2_19_first lists_2_19_second)
      as (_ & Hle & Hgt & _); [simpl; lia|].
    split; [exact Hgt|exact Hle].
Defined.

Lemma lists_12_9_exhausted_first :
  is_list lists_12_9_exhausted 1 [(1, 1%Z); (2, 2%Z)].
Proof. check_is_list. Defined.

Lemma lists_12_9_exhausted_second :
  is_list lists_12_9_exhausted 2 [(3, 9%Z)].
Proof. check_is_list. Defined.

(** Assigning [{9}] to [{1, 2}] makes it [{9}]; assigning [{10, 20}] to
    itself keeps it; the assignment that throws changes nothing. *)
Lemma assign_strong_guarantee_witness :
  (is_list lists_12_9 1 [(1, 1%Z); (2, 2%Z)] ∧
   is_list lists_12_9 2 [(3, 9%Z)] ∧
   ∃ s', assign 2 1 2 lists_12_9 = Ret 1 s' ∧
         iterate 2 1 s' = Ret [9]%Z s' ∧ GetSize 1 s' = Ret 1%N s' ∧
         is_list s' 2 [(3, 9%Z)]) ∧
  (is_list list_10_20 1 [(1, 10%Z); (2, 20%Z)] ∧
   ∃ s', assign 2 1 1 list_10_20 = Ret 1 s' ∧
         iterate 2 1 s' = Ret [10; 20]%Z s' ∧ GetSize 1 s' = Ret 2%N s') ∧
  (is_list lists_12_9_exhausted 1 [(1, 1%Z); (2, 2%Z)] ∧
   is_list lists_12_9_exhausted 2 [(3, 9%Z)] ∧
   ∃ s', assign 2 1 2 lists_12_9_exhausted = Throw s' ∧
         lists s' = lists lists_12_9_exhausted ∧
         heap s' = heap lists_12_9_exhausted).
Proof.
  split; [|split].
  - split; [exact lists_12_9_first|]. split; [exact lists_12_9_second|].
    destruct (assign_strong_guarantee lists_12_9 2 1 2 _ _
                lists_12_9_first lists_12_9_second)
      as (Hok & _ & _); [simpl; lia..|].
    destruct Hok as (new & s' & Hrun & _ & _ & _ & Hiter & Hsize & Hrhs);
      [check_can_alloc|].
    exists s'. split; [exact Hrun|]. split; [exact Hiter|].
    split; [exact Hsize|]. apply Hrhs; [discriminate|].
    intros a Ha Hin. simpl in Ha, Hin.
    apply list_elem_of_singleton in Hin as ->.
    apply elem_of_cons in Ha as [Ha|Ha]; [discriminate|].
    apply list_elem_of_singleton in Ha. discriminate.
  - split; [exact list_10_20_is_list|].
    destruct (assign_strong_guarantee list_10_20 2 1 1 _ _
                list_10_20_is_list list_10_20_is_list)
      as (Hok & _ & _); [simpl; lia..|].
    destruct Hok as (new & s' & Hrun & _ & _ & _ & Hiter & Hsize & _);
      [check_can_alloc|].
    exists s'. split; [exact Hrun|]. split; [exact Hiter|exact Hsize].
  - split; [exact lists_12_9_exhausted_first|].
    split; [exact lists_12_9_exhausted_second|].
    destruct (assign_strong_guarantee lists_12_9_exhausted 2 1 2 _ _
                lists_12_9_exhausted_first lists_12_9_exhausted_second)
      as (_ & Hthrow & _); [simpl; lia..|].
    destruct Hthrow as (s' & Hrun & Hls & Hhs & _).
    { intros [Hb _]. vm_compute in Hb. lia. }
    exists s'. split; [exact Hrun|]. split; [exact Hls|exact Hhs].
Defined.

(** A copy of [{1, 2, 3}] is another list object; pushing onto its front
    leaves the source [{1, 2, 3}]. *)
Lemma copy_is_independent_witness :
  is_list list_1_2_3 1 [(1, 1%Z); (2, 2%Z); (3, 3%Z)] ∧
  can_alloc_n 3 list_1_2_3 ∧
  ∃ copy s1,
    construct_copy 3 1 list_1_2_3 = Ret copy s1 ∧ copy ≠ 1 ∧
    iterate 3 copy s1 = Ret [1; 2; 3]%Z s1 ∧
    ∀ s2, PushFront copy 0%Z s1 = Ret tt s2 →
      iterate 3 1 s2 = Ret [1; 2; 3]%Z s2 ∧ GetSize 1 s2 = Ret 3%N s2.
Proof.
  assert (can_alloc_n 3 list_1_2_3) as Hcan by check_can_alloc.
  split; [exact list_1_2_3_is_list|]. split; [exact Hcan|].
  destruct (copy_is_independent list_1_2_3 3 1 _ list_1_2_3_is_list)
    as (copy & new & s1 & Hrun & Hne & Hcopy & Hvs & _ & _ & Hmut);
    [simpl; lia|exact Hcan|].
  exists copy, s1. split; [exact Hrun|]. split; [exact Hne|]. split.
  - pose proof (iterate_spec s1 copy new 3 Hcopy) as Hiter.
    rewrite Hvs in Hiter. apply Hiter.
    rewrite <-(length_fmap snd new), Hvs. simpl. lia.
  - intros s2 Hpush. destruct (Hmut s2) as (_ & Hiter & Hsize); [|done].
    left. by exists 0%Z.
Defined.

Lemma after_push_reachable : reachable after_push.
Proof.
  apply (reachable_return after_values (CallPushFront 1 0%Z) 0).
  - apply (reachable_return (initial 5) (CallValues [1; 2]%Z) 2).
    + apply reachable_initial.
    + exact I.
    + vm_compute. reflexivity.
  - eexists. vm_compute. reflexivity.
  - vm_compute. reflexivity.
Defined.

Lemma reachable_invariant_witness :
  reachable after_push ∧
  iterate 3 1 after_push = Ret [0; 1; 2]%Z after_push ∧
  list_invariant after_push 1.
Proof.
  split; [exact after_push_reachable|].
  split; [vm_compute; reflexivity|].
  apply (proj1 (reachable_invariant after_push after_push_reachable) 1).
  eexists. vm_compute. reflexivity.
Defined.

(** C3, as the spec words it, fails for [Create], which is public: called
    on the reachable, well-formed list [{1}] it leaves a list object whose
    [size_] is 2 while one node, holding 7, is reachable from the sentinel. *)
Lemma Create_on_nonempty_list_breaks_invariant :
  reachable list_1 ∧
  list_invariant list_1 1 ∧
  run 1 (CallCreateValues 1 [7]%Z) list_1 = Ret tt list_1_created ∧
  GetSize 1 list_1_created = Ret 2%N list_1_created ∧
  iterate 2 1 list_1_created = Ret [7]%Z list_1_created ∧
  ¬ list_invariant list_1_created 1.
Proof.
  assert (reachable list_1) as Hreach.
  { apply (reachable_return list_empty (CallPushFront 1 1%Z) 0).
    - apply (reachable_return (initial 5) CallDefault 0).
      + apply reachable_initial.
      + exact I.
      + vm_compute. reflexivity.
    - eexists. vm_compute. reflexivity.
    - vm_compute. reflexivity. }
  split; [exact Hreach|]. split.
  { destruct (proj1 (reachable_wf list_1 Hreach) 1) as [cells Hl].
    - eexists. vm_compute. reflexivity.
    - by eapply is_list_invariant. }
  split; [vm_compute; reflexivity|].
  split; [vm_compute; reflexivity|].
  split; [vm_compute; reflexivity|].
  intros (o & cells & Ho & Hc & _ & _ & Hsz).
  vm_compute in Ho. injection Ho as <-. simpl in Hc, Hsz.
  destruct cells as [|[a1 v1] [|[a2 v2] rest]]; [discriminate..|].
  destruct Hc as (Ha1 & r & Hlook & Hr & _).
  injection Ha1 as <-. vm_compute in Hlook. subst r. discriminate.
Qed.

(** C1 fails on the code: [operator==] calls [std::equal] without the end
    of the second range, so it stops at the end of the left list.  With
    [{1, 2}] on the left and [{1, 2, 3}] on the right it returns true (and
    [operator!=] false); with the two exchanged it dereferences the end
    iterator of the shorter list. *)
Theorem op_eq_accepts_proper_prefix :
  iterate 3 1 lists_12_123 = Ret [1; 2]%Z lists_12_123 ∧
  iterate 3 2 lists_12_123 = Ret [1; 2; 3]%Z lists_12_123 ∧
  op_eq 3 1 2 lists_12_123 = Ret true lists_12_123 ∧
  op_ne 3 1 2 lists_12_123 = Ret false lists_12_123 ∧
  op_eq 3 2 1 lists_12_123 = Fail UndefinedBehaviour.
Proof. repeat split; vm_compute; reflexivity. Qed.

End Examples.

(** ** Concrete runs of the further properties *)

Module MoreExamples.

Import Demo.
Import Examples.

Local Open Scope Z_scope.
Local Open Scope positive_scope.

Ltac in_list :=
  simpl; repeat first [apply list_elem_of_here | apply list_elem_of_further].

Ltac not_in_list :=
  simpl; let Hin := fresh "Hin" in
  intros Hin;
  repeat (apply elem_of_cons in Hin as [Hin|Hin]; [discriminate Hin|]);
  by apply elem_of_nil in Hin.

Lemma empty_list_budget_1_is_list : is_list empty_list_budget_1 1 [].
Proof. check_is_list. Defined.

Lemma lists_12_13_first : is_list lists_12_13 1 [(1, 1%Z); (2, 2%Z)].
Proof. check_is_list. Defined.

Lemma lists_12_13_second : is_list lists_12_13 2 [(3, 1%Z); (4, 3%Z)].
Proof. check_is_list. Defined.

(** [{10, 20}] is not empty by any of the three tests; a default
    constructed list is empty by all of them. *)
Lemma emptiness_tests_agree_witness :
  (is_list list_10_20 1 [(1, 10%Z); (2, 20%Z)] ∧
   IsEmpty 1 list_10_20 = Ret false list_10_20) ∧
  (is_list empty_list 1 [] ∧
   IsEmpty 1 empty_list = Ret true empty_list).
Proof.
  split.
  - split; [exact list_10_20_is_list|].
    destruct (emptiness_tests_agree list_10_20 1 _ list_10_20_is_list)
      as (b & n & Hb & _ & Hempty & _).
    rewrite Hempty. f_equal.
    vm_compute in Hb. injection Hb as <-. reflexivity.
  - split; [exact empty_list_is_list|].
    destruct (emptiness_tests_agree empty_list 1 _ empty_list_is_list)
      as (b & n & Hb & _ & Hempty & _).
    rewrite Hempty. f_equal.
    vm_compute in Hb. injection Hb as <-. reflexivity.
Defined.

(** In [{1, 2, 3}], from the node of 1: [++] leads to the node of 2, which
    dereferences to 2, and on to the node of 3. *)
Lemma iterator_steps_witness :
  is_list list_1_2_3 1 ([(1, 1%Z)] ++ (2, 2%Z) :: [(3, 3%Z)]) ∧
  iterator_incr (mkIterator (Some (Cell 1))) list_1_2_3
    = Ret (mkIterator (Some (Cell 2))) list_1_2_3 ∧
  iterator_deref (mkIterator (Some (Cell 2))) list_1_2_3 = Ret 2%Z list_1_2_3 ∧
  iterator_post_incr (mkIterator (Some (Cell 2))) list_1_2_3
    = Ret (mkIterator (Some (Cell 2)), mkIterator (Some (Cell 3))) list_1_2_3.
Proof.
  split; [exact list_1_2_3_is_list|].
  destruct (iterator_steps list_1_2_3 1 [(1, 1%Z)] 2 2%Z [(3, 3%Z)]
              list_1_2_3_is_list) as (Hpre & Hderef & _ & Hpost & _).
  split; [exact Hpre|]. split; [exact Hderef|exact Hpost].
Defined.

Lemma iteration_visits_all_witness :
  is_list list_1_2_3 1 [(1, 1%Z); (2, 2%Z); (3, 3%Z)] ∧
  (3 ≤ 3)%nat ∧
  iterate 3 1 list_1_2_3 = Ret [1; 2; 3]%Z list_1_2_3 ∧
  GetSize 1 list_1_2_3 = Ret 3%N list_1_2_3.
Proof.
  split; [exact list_1_2_3_is_list|]. split; [lia|].
  apply (iteration_visits_all list_1_2_3 1 _ 3 list_1_2_3_is_list).
  simpl. lia.
Defined.


Lemma iterators_at_different_places_witness :
  is_list list_10_20 1 [(1, 10%Z); (2, 20%Z)] ∧
  iterator_eq (mkIterator (Some (Cell 1))) (mkIterator (Some (Cell 2)))
    = false.
Proof.
  split; [exact list_10_20_is_list|].
  destruct (iterators_at_different_places list_10_20 1 _ 0 1 1 2 10%Z 20%Z
              list_10_20_is_list) as (Heq & _); [reflexivity..|lia|].
  exact Heq.
Defined.

(** [PopFront] on [{10, 20}] leaves [{20}]. *)
Lemma PopFront_removes_first_witness :
  is_list list_10_20 1 [(1, 10%Z); (2, 20%Z)] ∧
  ∃ s', PopFront 1 list_10_20 = Ret tt s' ∧
        iterate 2 1 s' = Ret [20]%Z s' ∧ GetSize 1 s' = Ret 1%N s'.
Proof.
  split; [exact list_10_20_is_list|].
  destruct (PopFront_removes_first list_10_20 1 1 10%Z [(2, 20%Z)]
              list_10_20_is_list) as (s' & Hrun & Hl' & _ & _ & Hsize & _).
  exists s'. split; [exact Hrun|]. split; [|exact Hsize].
  apply (iterate_spec s' 1 [(2, 20%Z)] 2 Hl'). simpl. lia.
Defined.

Lemma PushFront_PopFront_roundtrip_witness :
  is_list list_10_20 1 [(1, 10%Z); (2, 20%Z)] ∧
  can_alloc list_10_20 ∧
  ∃ s1 s2,
    PushFront 1 5%Z list_10_20 = Ret tt s1 ∧
    PopFront 1 s1 = Ret tt s2 ∧
    iterate 2 1 s2 = Ret [10; 20]%Z s2 ∧ heap s2 = heap list_10_20.
Proof.
  split; [exact list_10_20_is_list|]. split; [exact list_10_20_can_alloc|].
  destruct (PushFront_PopFront_roundtrip list_10_20 1 _ 5%Z
              list_10_20_is_list list_10_20_can_alloc)
    as (s1 & s2 & Hrun1 & Hrun2 & Hl2 & Hheap).
  exists s1, s2. split; [exact Hrun1|]. split; [exact Hrun2|].
  split; [|exact Hheap].
  apply (iterate_spec s2 1 _ 2 Hl2). simpl. lia.
Defined.

Lemma lists_12_9_exhausted_cannot_alloc : ¬ can_alloc lists_12_9_exhausted.
Proof. intros [Hb _]. vm_compute in Hb. lia. Defined.

Lemma insertion_throws_unchanged_witness :
  is_list lists_12_9_exhausted 1 ([(1, 1%Z)] ++ [(2, 2%Z)]) ∧
  ¬ can_alloc lists_12_9_exhausted ∧
  PushFront 1 0%Z lists_12_9_exhausted = Throw lists_12_9_exhausted ∧
  InsertAfter 1 (mkIterator (Some (Cell 1))) 0%Z lists_12_9_exhausted
    = Throw lists_12_9_exhausted.
Proof.
  split; [exact lists_12_9_exhausted_first|].
  split; [exact lists_12_9_exhausted_cannot_alloc|].
  exact (insertion_throws_unchanged lists_12_9_exhausted 1
           [(1, 1%Z)] [(2, 2%Z)] 0%Z lists_12_9_exhausted_first
           lists_12_9_exhausted_cannot_alloc).
Defined.

(** Clearing [{1, 2}] beside [{9}]: the first list is empty, the second
    is as it was. *)
Lemma Clear_frees_all_witness :
  is_list lists_12_9 1 [(1, 1%Z); (2, 2%Z)] ∧
  ∃ s', Clear 2 1 lists_12_9 = Ret tt s' ∧
        IsEmpty 1 s' = Ret true s' ∧ GetSize 1 s' = Ret 0%N s' ∧
        heap s' !! 1 = None ∧ heap s' !! 2 = None ∧
        heap s' !! 3 = heap lists_12_9 !! 3.
Proof.
  split; [exact lists_12_9_first|].
  destruct (Clear_frees_all lists_12_9 1 _ 2 lists_12_9_first)
    as (s' & Hrun & _ & Hsize & Hempty & Hdom & Hkeep & _); [simpl; lia|].
  exists s'. split; [exact Hrun|]. split; [exact Hempty|].
  split; [exact Hsize|].
  assert (∀ a, a ∈ [(1, 1%Z); (2, 2%Z)].*1 → heap s' !! a = None) as Hgone.
  { intros a Ha. apply not_elem_of_dom. rewrite Hdom.
    apply not_elem_of_difference. right. by apply elem_of_list_to_set. }
  split; [apply Hgone; in_list|].
  split; [apply Hgone; in_list|].
  apply Hkeep. not_in_list.
Defined.

(** After [swap] of [{1, 2}] and [{9}] the first is [{9}] and the second is
    [{1, 2}]; after a second [swap] they are back. *)
Lemma swap_exchanges_witness :
  is_list lists_12_9 1 [(1, 1%Z); (2, 2%Z)] ∧
  is_list lists_12_9 2 [(3, 9%Z)] ∧
  ∃ s', swap 1 2 lists_12_9 = Ret tt s' ∧
        iterate 2 1 s' = Ret [9]%Z s' ∧ iterate 2 2 s' = Ret [1; 2]%Z s' ∧
        GetSize 1 s' = Ret 1%N s' ∧ GetSize 2 s' = Ret 2%N s'.
Proof.
  split; [exact lists_12_9_first|]. split; [exact lists_12_9_second|].
  destruct (swap_exchanges lists_12_9 1 2 _ _
              lists_12_9_first lists_12_9_second)
    as (s' & Hrun & _ & H1 & H2 & _).
  exists s'. split; [exact Hrun|].
  split; [apply (iterate_spec s' 1 _ 2 H1); simpl; lia|].
  split; [apply (iterate_spec s' 2 _ 2 H2); simpl; lia|].
  split; [exact (GetSize_spec s' 1 _ H1)|exact (GetSize_spec s' 2 _ H2)].
Defined.

Lemma swap_twice_witness :
  is_list lists_12_9 1 [(1, 1%Z); (2, 2%Z)] ∧
  is_list lists_12_9 2 [(3, 9%Z)] ∧
  ∃ s1 s2,
    swap 1 2 lists_12_9 = Ret tt s1 ∧ swap 1 2 s1 = Ret tt s2 ∧
    iterate 2 1 s2 = Ret [1; 2]%Z s2 ∧ iterate 2 2 s2 = Ret [9]%Z s2.
Proof.
  split; [exact lists_12_9_first|]. split; [exact lists_12_9_second|].
  destruct (swap_twice lists_12_9 1 2 _ _ lists_12_9_first lists_12_9_second)
    as (s1 & s2 & _ & Hrun1 & Hrun2 & H1 & H2 & _).
  exists s1, s2. split; [exact Hrun1|]. split; [exact Hrun2|].
  split; [apply (iterate_spec s2 1 _ 2 H1); simpl; lia|].
  apply (iterate_spec s2 2 _ 2 H2); simpl; lia.
Defined.

(** Constructing [{1, 2, 3}] with enough budget, and with a budget of 2. *)
Lemma construct_values_correct_witness :
  (length [1; 2; 3]%Z ≤ 3)%nat ∧
  (∃ this s', construct_values 3 [1; 2; 3]%Z (initial 5) = Ret this s' ∧
              iterate 3 this s' = Ret [1; 2; 3]%Z s' ∧
              GetSize this s' = Ret 3%N s') ∧
  (∃ s', construct_values 3 [1; 2; 3]%Z (initial 2) = Throw s' ∧
         lists s' = ∅ ∧ heap s' = ∅).
Proof.
  assert (length [1; 2; 3]%Z ≤ 3)%nat as Hf by (simpl; lia).
  split; [exact Hf|]. split.
  - destruct (construct_values_correct (initial 5) 3 [1; 2; 3]%Z Hf)
      as (Hok & _).
    destruct Hok as (this & new & s' & Hrun & _ & _ & _ & _ & Hiter & Hsize & _);
      [check_can_alloc|].
    exists this, s'. split; [exact Hrun|]. split; [exact Hiter|exact Hsize].
  - destruct (construct_values_correct (initial 2) 3 [1; 2; 3]%Z Hf)
      as (_ & Hthrow).
    destruct Hthrow as (s' & Hrun & Hls & Hhs).
    { intros [Hb _]. vm_compute in Hb. lia. }
    exists s'. split; [exact Hrun|]. split; [exact Hls|exact Hhs].
Defined.

Lemma construct_copy_throws_unchanged_witness :
  is_list lists_12_9_exhausted 1 [(1, 1%Z); (2, 2%Z)] ∧
  ¬ can_alloc_n 2 lists_12_9_exhausted ∧
  ∃ s', construct_copy 2 1 lists_12_9_exhausted = Throw s' ∧
        lists s' = lists lists_12_9_exhausted ∧
        heap s' = heap lists_12_9_exhausted.
Proof.
  assert (¬ can_alloc_n 2 lists_12_9_exhausted) as Hcan.
  { intros [Hb _]. vm_compute in Hb. lia. }
  split; [exact lists_12_9_exhausted_first|]. split; [exact Hcan|].
  destruct (construct_copy_throws_unchanged lists_12_9_exhausted 2 1 _
              lists_12_9_exhausted_first)
    as (s' & Hrun & Hls & Hhs & _); [simpl; lia|exact Hcan|].
  exists s'. split; [exact Hrun|]. split; [exact Hls|exact Hhs].
Defined.

(** [Create] with [{7, 8}] on an empty list: with budget it gives
    [{7, 8}]; with a budget of 1 it throws and leaves [{7}]. *)
Lemma Create_appends_or_keeps_prefix_witness :
  (is_list empty_list 1 [] ∧
   ∃ s', Create 2 1 (array_begin [7; 8]%Z) (array_end [7; 8]%Z) empty_list
           = Ret tt s' ∧
         iterate 2 1 s' = Ret [7; 8]%Z s') ∧
  (is_list empty_list_budget_1 1 [] ∧
   ∃ s', Create 2 1 (array_begin [7; 8]%Z) (array_end [7; 8]%Z)
           empty_list_budget_1 = Throw s' ∧
         iterate 2 1 s' = Ret [7]%Z s' ∧ GetSize 1 s' = Ret 1%N s').
Proof.
  split.
  - split; [exact empty_list_is_list|].
    destruct (Create_appends_or_keeps_prefix empty_list 2 1 [7; 8]%Z
                empty_list_is_list) as (Hok & _); [simpl; lia|].
    destruct Hok as (new & s' & Hrun & Hl' & Hvs & _); [check_can_alloc|].
    exists s'. split; [exact Hrun|]. rewrite <-Hvs.
    apply (iterate_spec s' 1 new 2 Hl').
    rewrite <-(length_fmap snd new), Hvs. simpl. lia.
  - split; [exact empty_list_budget_1_is_list|].
    destruct (Create_appends_or_keeps_prefix empty_list_budget_1 2 1 [7; 8]%Z
                empty_list_budget_1_is_list) as (_ & Hthrow); [simpl; lia|].
    destruct Hthrow as (new & s' & Hrun & Hl' & Hlen & Hpre & Hsize).
    { intros [Hb _]. vm_compute in Hb. lia. }
    exists s'. split; [exact Hrun|].
    vm_compute in Hrun. injection Hrun as <-.
    split; vm_compute; reflexivity.
Defined.

Lemma destroy_frees_all_witness :
  is_list lists_12_9 1 [(1, 1%Z); (2, 2%Z)] ∧
  ∃ s', destroy 2 1 lists_12_9 = Ret tt s' ∧
        lists s' !! 1 = None ∧
        lists s' !! 2 = lists lists_12_9 !! 2 ∧
        heap s' !! 3 = heap lists_12_9 !! 3.
Proof.
  split; [exact lists_12_9_first|].
  destruct (destroy_frees_all lists_12_9 1 _ 2 lists_12_9_first)
    as (s' & Hrun & Hnone & _ & Hkeep & Hothers); [simpl; lia|].
  exists s'. split; [exact Hrun|]. split; [exact Hnone|].
  split; [apply Hothers; discriminate|].
  apply Hkeep. not_in_list.
Defined.

Lemma construct_destroy_roundtrip_witness :
  (length [1; 2; 3]%Z ≤ 3)%nat ∧
  can_alloc_n (length [1; 2; 3]%Z) list_1_2_3 ∧
  ∃ this s1 s2,
    construct_values 3 [1; 2; 3]%Z list_1_2_3 = Ret this s1 ∧
    destroy 3 this s1 = Ret tt s2 ∧
    lists s2 = lists list_1_2_3 ∧ heap s2 = heap list_1_2_3.
Proof.
  assert (length [1; 2; 3]%Z ≤ 3)%nat as Hf by (simpl; lia).
  assert (can_alloc_n (length [1; 2; 3]%Z) list_1_2_3) as Hcan
    by check_can_alloc.
  split; [exact Hf|]. split; [exact Hcan|].
  exact (construct_destroy_roundtrip list_1_2_3 3 [1; 2; 3]%Z Hf Hcan).
Defined.

(** [{1, 2} == {1, 3}] is false, and [{1, 2} == {1, 2}] is true. *)
Lemma op_eq_same_length_witness :
  (is_list lists_12_13 1 [(1, 1%Z); (2, 2%Z)] ∧
   is_list lists_12_13 2 [(3, 1%Z); (4, 3%Z)] ∧
   op_eq 2 1 2 lists_12_13 = Ret false lists_12_13 ∧
   op_ne 2 1 2 lists_12_13 = Ret true lists_12_13) ∧
  op_eq 2 1 1 lists_12_13 = Ret true lists_12_13.
Proof.
  split.
  - split; [exact lists_12_13_first|]. split; [exact lists_12_13_second|].
    destruct (op_eq_same_length lists_12_13 1 2 _ _ 2
                lists_12_13_first lists_12_13_second) as [Heq Hne];
      [simpl; lia..|].
    split; [exact Heq|exact Hne].
  - destruct (op_eq_same_length lists_12_13 1 1 _ _ 2
                lists_12_13_first lists_12_13_first) as [Heq _];
      [simpl; lia..|].
    exact Heq.
Defined.

Lemma copy_compares_equal_witness :
  is_list list_1_2_3 1 [(1, 1%Z); (2, 2%Z); (3, 3%Z)] ∧
  can_alloc_n 3 list_1_2_3 ∧
  ∃ copy s1,
    construct_copy 3 1 list_1_2_3 = Ret copy s1 ∧
    op_eq 3 1 copy s1 = Ret true s1 ∧ op_ne 3 copy 1 s1 = Ret false s1.
Proof.
  assert (can_alloc_n 3 list_1_2_3) as Hcan by check_can_alloc.
  split; [exact list_1_2_3_is_list|]. split; [exact Hcan|].
  destruct (copy_compares_equal list_1_2_3 3 1 _ list_1_2_3_is_list)
    as (copy & s1 & Hrun & Heq & _ & Hne); [simpl; lia|exact Hcan| |].
  { intros x _. apply Z.eqb_refl. }
  exists copy, s1. split; [exact Hrun|]. split; [exact Heq|exact Hne].
Defined.

(** In the state reached by building [{1, 2}] and pushing 0, the three
    nodes of the heap are the nodes of the list, and its size is 3. *)
Lemma reachable_states_do_not_leak_witness :
  reachable after_push ∧
  ∀ a, is_Some (heap after_push !! a) →
    ∃ l cells, is_list after_push l cells ∧ a ∈ cells.*1.
Proof.
  split; [exact after_push_reachable|].
  intros a Ha.
  destruct (proj1 (reachable_states_do_not_leak after_push
                     after_push_reachable) a Ha) as (l & cells & Hl & Hin & _).
  by exists l, cells.
Defined.

Lemma reachable_size_counts_elements_witness :
  reachable after_push ∧
  is_Some (lists after_push !! 1) ∧
  ∃ vs, iterate 3 1 after_push = Ret vs after_push ∧
        GetSize 1 after_push = Ret (N.of_nat (length vs)) after_push.
Proof.
  assert (is_Some (lists after_push !! 1)) as Hal.
  { eexists. vm_compute. reflexivity. }
  split; [exact after_push_reachable|]. split; [exact Hal|].
  destruct (reachable_size_counts_elements after_push 1
              after_push_reachable Hal) as (vs & Hiter & Hsize).
  exists vs. split; [|exact Hsize].
  vm_compute in Hiter. injection Hiter as <-. vm_compute. reflexivity.
Defined.

End MoreExamples.
